(** * ThreadPool: a model of the two pool designs and their properties

    The repository holds two designs of one worker pool:
    - [ThreadPool1.0] ([ThreadPool.h], [ThreadPool.cpp]): tasks are objects
      with a virtual [run], results travel through [Result]/[Any] and a
      hand-written [Semaphore];
    - [ThreaadPool2.0] ([ThreadPool.hpp]): tasks are [std::packaged_task]s
      and results travel through [std::future].

    Each design is embedded as a transition system.  One transition is one
    stretch of code that a thread runs without releasing [taskQueMtx_]
    ([taskMtx_] in 2.0), or one access to an atomic counter outside the lock.
    A thread suspended in [wait]/[wait_for] may resume at any time: the C++
    standard allows spurious wake-ups, so the notifications themselves carry
    no state. *)

From Stdlib Require Import ZArith Lia.
From stdpp Require Import base numbers option list gmap.

Local Open Scope Z_scope.

(** ** Machine integers, clock, exceptions *)

Definition INT_MIN : Z := - 2 ^ 31.
Definition INT_MAX : Z := 2 ^ 31 - 1.

(** [std::atomic_int] arithmetic is two's complement and wraps. *)
Definition wrap_int (z : Z) : Z := (z + 2 ^ 31) mod 2 ^ 32 - 2 ^ 31.

(** An [int] compared with a [size_t] is first converted to [size_t]
    (64 bits). *)
Definition to_size_t (z : Z) : Z := z mod 2 ^ 64.

Definition in_int (z : Z) : Prop := INT_MIN <= z <= INT_MAX.

Definition THREAD_MAX_THRESHHOLD : Z := 1024.
Definition THREAD_MAX_IDLE_TIME : Z := 60.

(** Clock readings of [high_resolution_clock] are ticks; [duration_cast]
    to seconds truncates towards zero. *)
Definition ticks_per_second : Z := 1000000000.
Definition seconds_between (lastTime now : Z) : Z :=
  Z.quot (now - lastTime) ticks_per_second.

Inductive PoolMode := MODE_FIXED | MODE_CACHED.

Definition is_cached (m : PoolMode) : bool :=
  match m with MODE_CACHED => true | MODE_FIXED => false end.

(** What calling user code gives: a value, or an exception in flight. *)
Inductive outcome (E A : Type) :=
| Value (a : A)
| Raise (e : E).
Arguments Value {E A} a.
Arguments Raise {E A} e.

(** A call that may suspend its caller. *)
Inductive blocking (A : Type) :=
| Blocks
| Returns (a : A).
Arguments Blocks {A}.
Arguments Returns {A} a.

(** The thread object of both designs.  [func_] is always [threadFunc]
    bound to the owning pool and is left out. *)
Record Thread := { threadId_ : Z }.

(** [Thread::Thread]: [threadId_(generateId_++)] on the process-wide static
    counter.  The counter is a plain [int], so the increment at [INT_MAX] is
    undefined: [None]. *)
Definition Thread_new (generateId_ : Z) : option (Thread * Z) :=
  if generateId_ <? INT_MAX
  then Some ({| threadId_ := generateId_ |}, generateId_ + 1)
  else None.

(** [threadMap_.emplace(id, ptr)]: no effect when the key is present. *)
Definition emplace (id : Z) (t : Thread) (m : gmap Z Thread) : gmap Z Thread :=
  match m !! id with
  | Some _ => m
  | None => <[id := t]> m
  end.

(** The first loop of [start()] in both designs: [n] times, construct a
    [Thread] and [emplace] it under its own id. *)
Fixpoint register_threads (n : nat) (generateId_ : Z) (m : gmap Z Thread)
  : option (Z * gmap Z Thread) :=
  match n with
  | O => Some (generateId_, m)
  | S n' =>
      match Thread_new generateId_ with
      | Some (t, g') => register_threads n' g' (emplace (threadId_ t) t m)
      | None => None
      end
  end.

(** Program points of [threadFunc], the same in both designs. *)
Inductive pc (T : Type) :=
| Entry                 (* created; has not yet read the clock into lastTime *)
| AtLock                (* top of the for(;;) body, before taking the lock *)
| InWait                (* inside notEmpty_.wait / wait_for, lock released *)
| HasTask (t : T)       (* critical section left with a task in hand *)
| Ran                   (* task executed; idleThreadNum_++ not yet done *)
| ReturnedShutdown      (* returned through the !running branch *)
| ReturnedIdle.         (* returned through the idle-timeout branch *)
Arguments Entry {T}.
Arguments AtLock {T}.
Arguments InWait {T}.
Arguments HasTask {T} t.
Arguments Ran {T}.
Arguments ReturnedShutdown {T}.
Arguments ReturnedIdle {T}.

(** An OS thread made by [Thread::start]: its argument, where it is, and
    its local [lastTime]. *)
Record worker (T : Type) := Build_worker {
  threadid : Z;
  at_pc : pc T;
  lastTime : Z
}.
Arguments Build_worker {T}.
Arguments threadid {T}.
Arguments at_pc {T}.
Arguments lastTime {T}.

Definition goto {T} (p : pc T) (w : worker T) : worker T :=
  Build_worker (threadid w) p (lastTime w).

Definition holds {T} (w : worker T) : list T :=
  match at_pc w with HasTask t => [t] | _ => [] end.

(** Tasks dequeued and not yet run, over all threads. *)
Definition in_flight {T} (ws : list (worker T)) : list T :=
  concat (map holds ws).

(** What a thread adds to [idleThreadNum_]: one from [Thread::start] until
    it dequeues, one again after the task; the idle-timeout return takes it
    away, the shutdown return leaves it. *)
Definition idle_share {T} (w : worker T) : Z :=
  match at_pc w with
  | HasTask _ | Ran | ReturnedIdle => 0
  | _ => 1
  end.

(** What a thread adds to [curThreadNum_] ([currentThreadNum_]): one from
    its creation on; only the idle-timeout return takes it away. *)
Definition cur_share {T} (w : worker T) : Z :=
  match at_pc w with
  | ReturnedIdle => 0
  | _ => 1
  end.

Definition total {T} (share : worker T -> Z) (ws : list (worker T)) : Z :=
  foldr (fun w acc => share w + acc) 0 ws.

(** [n] atomic increments. *)
Definition bump (n : nat) (z : Z) : Z :=
  Nat.iter n (fun z => wrap_int (z + 1)) z.

Definition has_returned {T} (w : worker T) : bool :=
  match at_pc w with
  | ReturnedShutdown | ReturnedIdle => true
  | _ => false
  end.

(** The threads that the second loop of [start()] creates when the
    registry has the identities [i], [i+1], ... under their own keys. *)
Definition launched {T} (i : Z) (n : nat) : list (worker T) :=
  (fun k => Build_worker k Entry 0) <$> seqZ i (Z.of_nat n).

(** Where the owner of the pool object is; for the destructor, whether
    [start()] had been called. *)
Inductive owner_pc :=
| Constructed
| Started
| InDestructor (started : bool)
| Destroyed (started : bool).

Definition was_started (o : owner_pc) : bool :=
  match o with
  | Constructed => false
  | Started => true
  | InDestructor b | Destroyed b => b
  end.

(** What the environment does.  [Worker n now timed_out] lets OS thread [n]
    run to its next suspension; [now] is what the clock reads if the thread
    reads it, [timed_out] whether a pending [wait_for] reports a timeout. *)
Inductive event (Arg : Type) :=
| Start
| Submit (a : Arg)
| Worker (n : nat) (now : Z) (timed_out : bool)
| Destroy
| DestroyReturn
| OtherThread.
Arguments Start {Arg}.
Arguments Submit {Arg} a.
Arguments Worker {Arg} n now timed_out.
Arguments Destroy {Arg}.
Arguments DestroyReturn {Arg}.
Arguments OtherThread {Arg}.


(** Every thread that has not left [threadFunc] finds its entry in the
    registry [m]; the identities of the threads are below the counter [g]
    and pairwise distinct. *)
Definition enrolled_in {T} (m : gmap Z Thread) (g : Z) (ws : list (worker T))
  : Prop :=
  ∀ i w, ws !! i = Some w →
    threadid w < g
    ∧ (has_returned w = false → is_Some (m !! threadid w))
    ∧ (∀ j w', ws !! j = Some w' → threadid w' = threadid w → j = i).

(** Every entry of the registry [m] belongs to a thread that has not left
    [threadFunc]. *)
Definition attended_by {T} (m : gmap Z Thread) (ws : list (worker T)) : Prop :=
  ∀ k, is_Some (m !! k) →
       ∃ i w, ws !! i = Some w ∧ threadid w = k ∧ has_returned w = false.

(** ** [Any] (ThreadPool1.0) *)

(** What [Any::cast] throws: the literal ["type is unmatch"]. *)
Inductive cast_error := type_is_unmatch.

Section AnyCast.

(** The types that [Any(T data)] and [cast<T>] are instantiated at, and
    the values of each. *)
Context {Ty : Type} `{EqDecision Ty}.
Variable El : Ty -> Type.

(** What [base_] can point to ([Any::Base]): an object of some instance
    [Derive<T>], with its [data_]. *)
Definition Any_Base : Type := { T : Ty & El T }.

(** [Any::Any(T data)]: [base_] owns a new [Derive<T>]. *)
Definition Any_of (T : Ty) (data : El T) : option Any_Base :=
  Some (existT T data).

(** [Any::cast<T>]: [dynamic_cast<Derive<T>*>] gives null when [base_] is
    null or points to another instance of [Derive]; then the literal is
    thrown. *)
Definition Any_cast (T : Ty) (base_ : option Any_Base)
  : outcome cast_error (El T) :=
  match base_ with
  | None => Raise type_is_unmatch
  | Some (existT U data) =>
      match decide (U = T) with
      | left e => Value (eq_rect U El data T e)
      | right _ => Raise type_is_unmatch
      end
  end.

End AnyCast.
(** * ThreadPool1.0 *)

Module Pool1.

(** ** [Semaphore] *)

Record Semaphore := { resLimit_ : Z }.

(** [Semaphore::wait]: suspended while [resLimit_ > 0] is false, then
    [resLimit_--]. *)
Definition Semaphore_wait (m : Semaphore) : blocking Semaphore :=
  if 0 <? resLimit_ m then Returns {| resLimit_ := resLimit_ m - 1 |}
  else Blocks.

(** [Semaphore::post]: [resLimit_++] on a plain [int]; undefined ([None])
    at [INT_MAX]. *)
Definition Semaphore_post (m : Semaphore) : option Semaphore :=
  if resLimit_ m <? INT_MAX then Some {| resLimit_ := resLimit_ m + 1 |}
  else None.

Section Model.

(** The payload of an [Any] (some [Derive<T>]), the payload made from the
    literal that [Result::get] returns for its first branch, the exceptions
    of user code, and [Task::run] of the task object at each address. *)
Context {Dyn Fault : Type}.
Variable cstr_empty : Dyn.
Variable run : nat -> outcome Fault (option Dyn).

(** [Any]: [base_] is null (default-constructed or moved-from) or owns a
    [Derive<T>]. *)
Definition Any : Type := option Dyn.

(** ** [Result] *)

Record Result := {
  any_ : Any;
  sem_ : Semaphore;
  task_ : nat;
  isValid_ : bool
}.

(** The member initialisers of [Result::Result]; its body,
    [task_->setResult(this)], is in [construct_Result] below. *)
Definition Result_init (task : nat) (isValid : bool) : Result :=
  {| any_ := None; sem_ := {| resLimit_ := 0 |}; task_ := task;
     isValid_ := isValid |}.

Definition Result_setVal (any : Any) (r : Result) : option Result :=
  m ← Semaphore_post (sem_ r);
  Some {| any_ := any; sem_ := m; task_ := task_ r; isValid_ := isValid_ r |}.

(** [Result::get]: what is returned, and the object afterwards ([any_] is
    moved from). *)
Definition Result_get (r : Result) : blocking (Any * Result) :=
  if isValid_ r then Returns (Some cstr_empty, r)
  else
    match Semaphore_wait (sem_ r) with
    | Blocks => Blocks
    | Returns m =>
        Returns (any_ r,
                 {| any_ := None; sem_ := m; task_ := task_ r;
                    isValid_ := isValid_ r |})
    end.

(** ** Pool state *)

Record ThreadPool := {
  threadMap_ : gmap Z Thread;
  initThreadSize_ : Z;
  threadSizeThreshHold_ : Z;
  curThreadNum_ : Z;
  idleThreadNum_ : Z;
  taskQue_ : list nat;
  taskNum_ : Z;
  taskQueMaxThreshHold_ : Z;
  poolMode_ : PoolMode;
  isPoolRunning_ : bool
}.

(** [ThreadPool::ThreadPool].  The initialiser list leaves
    [isPoolRunning_] out; [indeterminate] is whatever it holds. *)
Definition ThreadPool_ctor (initThreadSize threadthreshhold taskthreshhold : Z)
    (mode : PoolMode) (indeterminate : bool) : ThreadPool :=
  {| threadMap_ := ∅;
     initThreadSize_ := initThreadSize;
     threadSizeThreshHold_ := threadthreshhold;
     curThreadNum_ := 0;
     idleThreadNum_ := 0;
     taskQue_ := [];
     taskNum_ := 0;
     taskQueMaxThreshHold_ := taskthreshhold;
     poolMode_ := mode;
     isPoolRunning_ := indeterminate |}.

Definition set_threadMap_ (m : gmap Z Thread) (p : ThreadPool) : ThreadPool :=
  {| threadMap_ := m; initThreadSize_ := initThreadSize_ p;
     threadSizeThreshHold_ := threadSizeThreshHold_ p;
     curThreadNum_ := curThreadNum_ p; idleThreadNum_ := idleThreadNum_ p;
     taskQue_ := taskQue_ p; taskNum_ := taskNum_ p;
     taskQueMaxThreshHold_ := taskQueMaxThreshHold_ p;
     poolMode_ := poolMode_ p; isPoolRunning_ := isPoolRunning_ p |}.

Definition set_counts (cur idle : Z) (p : ThreadPool) : ThreadPool :=
  {| threadMap_ := threadMap_ p; initThreadSize_ := initThreadSize_ p;
     threadSizeThreshHold_ := threadSizeThreshHold_ p;
     curThreadNum_ := cur; idleThreadNum_ := idle;
     taskQue_ := taskQue_ p; taskNum_ := taskNum_ p;
     taskQueMaxThreshHold_ := taskQueMaxThreshHold_ p;
     poolMode_ := poolMode_ p; isPoolRunning_ := isPoolRunning_ p |}.

Definition set_queue (q : list nat) (num : Z) (p : ThreadPool) : ThreadPool :=
  {| threadMap_ := threadMap_ p; initThreadSize_ := initThreadSize_ p;
     threadSizeThreshHold_ := threadSizeThreshHold_ p;
     curThreadNum_ := curThreadNum_ p; idleThreadNum_ := idleThreadNum_ p;
     taskQue_ := q; taskNum_ := num;
     taskQueMaxThreshHold_ := taskQueMaxThreshHold_ p;
     poolMode_ := poolMode_ p; isPoolRunning_ := isPoolRunning_ p |}.

Definition set_running (b : bool) (p : ThreadPool) : ThreadPool :=
  {| threadMap_ := threadMap_ p; initThreadSize_ := initThreadSize_ p;
     threadSizeThreshHold_ := threadSizeThreshHold_ p;
     curThreadNum_ := curThreadNum_ p; idleThreadNum_ := idleThreadNum_ p;
     taskQue_ := taskQue_ p; taskNum_ := taskNum_ p;
     taskQueMaxThreshHold_ := taskQueMaxThreshHold_ p;
     poolMode_ := poolMode_ p; isPoolRunning_ := b |}.

(** ** The process around one pool *)

(** [generateId_] is [Thread::generateId_], shared by every pool of the
    process.  [result_] holds [Task::result_] of each task object (absent:
    [nullptr]) and [results] the [Result] objects by address; a [Result]
    is taken to outlive the task that points to it.  [terminated] is set
    when an exception leaves a thread function ([std::terminate]).
    [accepted] and [completed] are history: the tasks put in the queue, and
    the tasks whose [run] returned and whose value was posted, in order. *)
Record Process := {
  pool : ThreadPool;
  generateId_ : Z;
  threads : list (worker nat);
  result_ : gmap nat nat;
  results : list Result;
  owner : owner_pc;
  terminated : option Fault;
  accepted : list nat;
  completed : list nat
}.

Definition boot (p : ThreadPool) (g : Z) : Process :=
  {| pool := p; generateId_ := g; threads := []; result_ := ∅;
     results := []; owner := Constructed; terminated := None;
     accepted := []; completed := [] |}.

Definition set_pool (p : ThreadPool) (s : Process) : Process :=
  {| pool := p; generateId_ := generateId_ s; threads := threads s;
     result_ := result_ s; results := results s; owner := owner s;
     terminated := terminated s; accepted := accepted s;
     completed := completed s |}.

Definition set_generateId_ (g : Z) (s : Process) : Process :=
  {| pool := pool s; generateId_ := g; threads := threads s;
     result_ := result_ s; results := results s; owner := owner s;
     terminated := terminated s; accepted := accepted s;
     completed := completed s |}.

Definition set_threads (ws : list (worker nat)) (s : Process) : Process :=
  {| pool := pool s; generateId_ := generateId_ s; threads := ws;
     result_ := result_ s; results := results s; owner := owner s;
     terminated := terminated s; accepted := accepted s;
     completed := completed s |}.

Definition set_results (ptr : gmap nat nat) (rs : list Result) (s : Process)
  : Process :=
  {| pool := pool s; generateId_ := generateId_ s; threads := threads s;
     result_ := ptr; results := rs; owner := owner s;
     terminated := terminated s; accepted := accepted s;
     completed := completed s |}.

Definition set_owner (o : owner_pc) (s : Process) : Process :=
  {| pool := pool s; generateId_ := generateId_ s; threads := threads s;
     result_ := result_ s; results := results s; owner := o;
     terminated := terminated s; accepted := accepted s;
     completed := completed s |}.

Definition set_terminated (e : Fault) (s : Process) : Process :=
  {| pool := pool s; generateId_ := generateId_ s; threads := threads s;
     result_ := result_ s; results := results s; owner := owner s;
     terminated := Some e; accepted := accepted s;
     completed := completed s |}.

Definition log_accepted (t : nat) (s : Process) : Process :=
  {| pool := pool s; generateId_ := generateId_ s; threads := threads s;
     result_ := result_ s; results := results s; owner := owner s;
     terminated := terminated s; accepted := accepted s ++ [t];
     completed := completed s |}.

Definition log_completed (t : nat) (s : Process) : Process :=
  {| pool := pool s; generateId_ := generateId_ s; threads := threads s;
     result_ := result_ s; results := results s; owner := owner s;
     terminated := terminated s; accepted := accepted s;
     completed := completed s ++ [t] |}.

Definition set_worker (n : nat) (w : worker nat) (s : Process) : Process :=
  set_threads (<[n := w]> (threads s)) s.

(** [Thread::start]: a detached OS thread running [func_(threadId_)]. *)
Definition Thread_start (t : Thread) (s : Process) : Process :=
  set_threads (threads s ++ [Build_worker (threadId_ t) Entry 0]) s.

(** [Result::Result(task, isValid)]: the new object gets the next address
    and [task_->setResult(this)] overwrites the task's [result_]. *)
Definition construct_Result (task : nat) (isValid : bool) (s : Process)
  : Process * nat :=
  let address := length (results s) in
  (set_results (<[task := address]> (result_ s))
               (results s ++ [Result_init task isValid]) s,
   address).

(** ** [Task::exec] *)

(** [None]: undefined (the [Result] pointed to is gone, or the semaphore
    count overflows). [Raise e]: the exception of [run()] passes through,
    nothing is posted. *)
Definition Task_exec (t : nat) (s : Process) : option (outcome Fault Process) :=
  match result_ s !! t with
  | None => Some (Value s)
  | Some address =>
      match run t with
      | Raise e => Some (Raise e)
      | Value any =>
          r ← results s !! address;
          r' ← Result_setVal any r;
          Some (Value (set_results (result_ s) (<[address := r']> (results s)) s))
      end
  end.


(** ** [ThreadPool::start] *)

Inductive start_result :=
| StartDone (s : Process)
| NullThreadHandle (i : Z)   (* threadMap_[i] had no entry: a null unique_ptr is dereferenced *)
| IdOverflow.                (* generateId_++ at INT_MAX *)

(** The second loop, from index [i], [n] iterations to go:
    [threadMap_[i]->start(); curThreadNum_++; idleThreadNum_++]. *)
Fixpoint launch_threads (n : nat) (i : Z) (s : Process) : Process + Z :=
  match n with
  | O => inl s
  | S n' =>
      match threadMap_ (pool s) !! i with
      | None => inr i
      | Some t =>
          let s1 := Thread_start t s in
          let p := pool s1 in
          launch_threads n' (i + 1)
            (set_pool (set_counts (wrap_int (curThreadNum_ p + 1))
                                  (wrap_int (idleThreadNum_ p + 1)) p) s1)
      end
  end.

Definition start (s : Process) : start_result :=
  let p := set_running true (pool s) in
  let n := Z.to_nat (initThreadSize_ p) in
  match register_threads n (generateId_ s) (threadMap_ p) with
  | None => IdOverflow
  | Some (g, m) =>
      match launch_threads n 0
              (set_generateId_ g (set_pool (set_threadMap_ m p) s)) with
      | inl s' => StartDone s'
      | inr i => NullThreadHandle i
      end
  end.

(** ** [ThreadPool::submitTask] *)

(** The growth test of line 114. *)
Definition wants_thread (p : ThreadPool) : bool :=
  is_cached (poolMode_ p)
  && (curThreadNum_ p <? threadSizeThreshHold_ p)
  && (idleThreadNum_ p <? taskNum_ p).

(** The room test of the [wait_for] predicate: [size_t] against [int]. *)
Definition has_room (p : ThreadPool) : bool :=
  Z.of_nat (length (taskQue_ p)) <? to_size_t (taskQueMaxThreshHold_ p).

(** [submitTask(sp)] from the last evaluation of the [wait_for] predicate
    to the return, all under the lock: the predicate holds, or it fails and
    the second has elapsed.  Gives the new state and the address of the
    [Result] returned; [None] is the overflow of [generateId_]. *)
Definition submitTask (sp : nat) (s : Process) : option (Process * nat) :=
  let p := pool s in
  if has_room p then
    let p1 := set_queue (taskQue_ p ++ [sp]) (wrap_int (taskNum_ p + 1)) p in
    let s1 := log_accepted sp (set_pool p1 s) in
    if wants_thread p1 then
      '(ptr, g) ← Thread_new (generateId_ s1);
      let threadId := threadId_ ptr in
      let m := emplace threadId ptr (threadMap_ p1) in
      t ← m !! threadId;
      let s2 := Thread_start t (set_generateId_ g (set_pool (set_threadMap_ m p1) s1)) in
      let p2 := pool s2 in
      Some (construct_Result sp true
              (set_pool (set_counts (wrap_int (curThreadNum_ p2 + 1))
                                    (wrap_int (idleThreadNum_ p2 + 1)) p2) s2))
    else Some (construct_Result sp true s1)
  else Some (construct_Result sp false s).

(** ** [ThreadPool::threadFunc] *)

(** From the test of [while (taskQue_.size() == 0)] to the next point where
    the lock is released. *)
Definition loop_head (n : nat) (w : worker nat) (s : Process) : Process :=
  let p := pool s in
  match taskQue_ p with
  | [] =>
      if isPoolRunning_ p then set_worker n (goto InWait w) s
      else
        set_worker n (goto ReturnedShutdown w)
          (set_pool (set_threadMap_ (delete (threadid w) (threadMap_ p)) p) s)
  | task :: rest =>
      set_worker n (goto (HasTask task) w)
        (set_pool
           (set_queue rest (wrap_int (taskNum_ p - 1))
              (set_counts (curThreadNum_ p) (wrap_int (idleThreadNum_ p - 1)) p))
           s)
  end.

(** The test of line 197, after [wait_for] reported a timeout. *)
Definition idle_too_long (w : worker nat) (now : Z) (p : ThreadPool) : bool :=
  (THREAD_MAX_IDLE_TIME <=? seconds_between (lastTime w) now)
  && (initThreadSize_ p <? curThreadNum_ p).

Definition retire (n : nat) (w : worker nat) (s : Process) : Process :=
  let p := pool s in
  set_worker n (goto ReturnedIdle w)
    (set_pool
       (set_counts (wrap_int (curThreadNum_ p - 1))
                   (wrap_int (idleThreadNum_ p - 1))
          (set_threadMap_ (delete (threadid w) (threadMap_ p)) p))
       s).

(** One move of OS thread [n]. [None]: the thread cannot move this way (it
    has returned; a plain [wait] has no timeout) or the move is undefined. *)
Definition threadFunc (n : nat) (now : Z) (timed_out : bool) (s : Process)
  : option Process :=
  w ← threads s !! n;
  match at_pc w with
  | Entry => Some (set_worker n (Build_worker (threadid w) AtLock now) s)
  | AtLock => Some (loop_head n w s)
  | InWait =>
      if is_cached (poolMode_ (pool s)) then
        if timed_out && idle_too_long w now (pool s)
        then Some (retire n w s)
        else Some (loop_head n w s)
      else if timed_out then None
      else Some (loop_head n w s)
  | HasTask task =>
      match Task_exec task s with
      | None => None
      | Some (Raise e) => Some (set_terminated e s)
      | Some (Value s') =>
          Some (set_worker n (goto Ran w)
                  (match result_ s !! task with
                   | Some _ => log_completed task s'
                   | None => s'
                   end))
      end
  | Ran =>
      let p := pool s in
      Some (set_worker n (Build_worker (threadid w) AtLock now)
              (set_pool (set_counts (curThreadNum_ p)
                                    (wrap_int (idleThreadNum_ p + 1)) p) s))
  | ReturnedShutdown | ReturnedIdle => None
  end.

(** ** [ThreadPool::~ThreadPool] *)

(** Up to the [wait]: the flag is cleared, the waiters are notified. *)
Definition destructor_enter (s : Process) : Process :=
  set_owner (InDestructor (was_started (owner s)))
    (set_pool (set_running false (pool s)) s).

(** The predicate of [exitCond_.wait]. *)
Definition destructor_may_return (p : ThreadPool) : bool :=
  bool_decide (size (threadMap_ p) = 0%nat).

(** ** The transition system *)

(** Nothing moves after [std::terminate], and the pool object is not
    touched after its destructor has returned. *)
Definition alive (s : Process) : bool :=
  match terminated s, owner s with
  | Some _, _ => false
  | None, Destroyed _ => false
  | None, _ => true
  end.

(** The callers keep to the interface: [start()] is called at most once,
    before the destructor, and nothing is submitted before it. *)
Definition step (ev : event nat) (s : Process) : option Process :=
  if alive s then
    match ev with
    | Start =>
        match owner s, start s with
        | Constructed, StartDone s' => Some (set_owner Started s')
        | _, _ => None
        end
    | Submit sp =>
        if was_started (owner s) then fst <$> submitTask sp s else None
    | Worker n now timed_out => threadFunc n now timed_out s
    | Destroy =>
        match owner s with
        | Constructed | Started => Some (destructor_enter s)
        | _ => None
        end
    | DestroyReturn =>
        match owner s with
        | InDestructor b =>
            if destructor_may_return (pool s)
            then Some (set_owner (Destroyed b) s)
            else None
        | _ => None
        end
    | OtherThread =>
        '(_, g) ← Thread_new (generateId_ s);
        Some (set_generateId_ g s)
    end
  else None.

Fixpoint steps (evs : list (event nat)) (s : Process) : option Process :=
  match evs with
  | [] => Some s
  | ev :: evs' => s' ← step ev s; steps evs' s'
  end.

(** The states a pool built with the given arguments can be in; [g] is the
    value of [generateId_] when it is built. *)
Definition reachable (initThreadSize threadthreshhold taskthreshhold : Z)
    (mode : PoolMode) (indeterminate : bool) (g : Z) (s : Process) : Prop :=
  ∃ evs,
    steps evs (boot (ThreadPool_ctor initThreadSize threadthreshhold
                       taskthreshhold mode indeterminate) g) = Some s.

(** ** What holds in every reachable state *)

(** The construction arguments, which nothing changes afterwards. *)
Definition config (p : ThreadPool) : Z * Z * Z * PoolMode :=
  (initThreadSize_ p, threadSizeThreshHold_ p, taskQueMaxThreshHold_ p,
   poolMode_ p).

Record consistent (s : Process) : Prop := {
  (* the queue is the tail of what was accepted; what left it has been run
     or is in the hands of a thread *)
  fifo : ∃ taken, accepted s = taken ++ taskQue_ (pool s)
                  ∧ taken ≡ₚ completed s ++ in_flight (threads s);
  (* a task in the queue or in hand points to a live Result *)
  posted_to : ∀ t, t ∈ in_flight (threads s) ++ taskQue_ (pool s) →
                   is_Some (result_ s !! t);
  result_alloc : ∀ t a, result_ s !! t = Some a → (a < length (results s))%nat;
  taskNum_queue :
    taskNum_ (pool s) = wrap_int (Z.of_nat (length (taskQue_ (pool s))));
  ids_used : Z.of_nat (length (threads s)) <= generateId_ s <= INT_MAX;
  idle_threads : idleThreadNum_ (pool s) = total idle_share (threads s);
  cur_threads : curThreadNum_ (pool s) = total cur_share (threads s);
  cur_floor : was_started (owner s) = true →
              initThreadSize_ (pool s) <= curThreadNum_ (pool s);
  before_start : was_started (owner s) = false →
                 threads s = [] ∧ taskQue_ (pool s) = [] ∧ accepted s = [];
  running_threads : isPoolRunning_ (pool s) = true →
                    Forall (fun w => at_pc w ≠ ReturnedShutdown) (threads s);
  int_fields : in_int (initThreadSize_ (pool s))
}.

(** The configurations that the interface allows: [int] arguments with
    [0 < initThreadSize <= threadthreshhold] and [0 < taskthreshhold]. *)
Definition valid_config (p : ThreadPool) : Prop :=
  in_int (initThreadSize_ p) ∧ in_int (threadSizeThreshHold_ p)
  ∧ in_int (taskQueMaxThreshHold_ p)
  ∧ 0 < initThreadSize_ p <= threadSizeThreshHold_ p
  ∧ 0 < taskQueMaxThreshHold_ p.

(** What a valid configuration adds. *)
Record bounded (s : Process) : Prop := {
  cur_ceiling : curThreadNum_ (pool s) <= threadSizeThreshHold_ (pool s);
  queue_ceiling :
    Z.of_nat (length (taskQue_ (pool s))) <= taskQueMaxThreshHold_ (pool s)
}.

(** The registry holds each thread object under its own identity, and the
    identities were all drawn from the counter. *)
Definition registry_ok (s : Process) : Prop :=
  ∀ k t, threadMap_ (pool s) !! k = Some t →
         threadId_ t = k ∧ k < generateId_ s.

(** Once a thread has left through the shutdown branch, the first [k]
    accepted tasks are no longer in the queue. *)
Definition drained (k : nat) (s : Process) : Prop :=
  (k <= length (accepted s))%nat
  ∧ (Exists (fun w => at_pc w = ReturnedShutdown) (threads s) →
     (k + length (taskQue_ (pool s)) <= length (accepted s))%nat).

(** With at most one thread, the tasks complete in the order of
    acceptance. *)
Definition in_order (s : Process) : Prop :=
  (length (threads s) <= 1)%nat →
  accepted s = completed s ++ in_flight (threads s) ++ taskQue_ (pool s).

(** A fixed pool has the threads that [start()] made. *)
Definition fixed_size (s : Process) : Prop :=
  poolMode_ (pool s) = MODE_FIXED →
  length (threads s) =
    if was_started (owner s) then Z.to_nat (initThreadSize_ (pool s))
    else 0%nat.

(** A submission has made the pool grow by the thread object [t]. *)
Definition grown_by (t : Thread) (s s' : Process) : Prop :=
  threads s' = threads s ++ [Build_worker (threadId_ t) Entry 0]
  ∧ threadMap_ (pool s') = <[threadId_ t := t]> (threadMap_ (pool s))
  ∧ threadMap_ (pool s) !! threadId_ t = None
  ∧ curThreadNum_ (pool s') = curThreadNum_ (pool s) + 1
  ∧ idleThreadNum_ (pool s') = idleThreadNum_ (pool s) + 1.

Definition same_size (s s' : Process) : Prop :=
  threads s' = threads s
  ∧ threadMap_ (pool s') = threadMap_ (pool s)
  ∧ curThreadNum_ (pool s') = curThreadNum_ (pool s)
  ∧ idleThreadNum_ (pool s') = idleThreadNum_ (pool s).

(** OS thread [n] leaves [threadFunc] in the move from [s] to [s']. *)
Definition returns_at (n : nat) (p : pc nat) (s s' : Process) : Prop :=
  ∃ w w', threads s !! n = Some w ∧ threads s' !! n = Some w'
          ∧ at_pc w ≠ p ∧ at_pc w' = p.

(** The registry and the threads: each thread still in [threadFunc] has
    its entry, and each entry has its thread. *)
Definition enrolled (s : Process) : Prop :=
  enrolled_in (threadMap_ (pool s)) (generateId_ s) (threads s).

Definition attended (s : Process) : Prop :=
  attended_by (threadMap_ (pool s)) (threads s).

(** The destructor has returned only on its predicate. *)
Definition destroyed_on_predicate (s : Process) : Prop :=
  ∀ b, owner s = Destroyed b → destructor_may_return (pool s) = true.

(** The [result_] of a task points to a [Result] made for that task. *)
Definition result_back (s : Process) : Prop :=
  ∀ t a, result_ s !! t = Some a →
         ∃ r, results s !! a = Some r ∧ task_ r = t.



(** ** [Task::exec] step by step, and the lifetime of a [Result]

    [threadFunc] calls [task->exec()] outside the lock, and [exec] is
    [result_->setVal(run())]: the pointer [result_] is read, [run()] is
    called, and the value is posted through the pointer that was read.
    In between, another thread may construct a [Result] for the same task
    object, which redirects its [result_]; and the caller of [submitTask],
    who owns the [Result] objects, may destroy one, which leaves the
    [result_] of its task as it is.  A [Heap] holds the objects concerned;
    [heap_step] has the four moves, to be taken in any interleaving.  An
    address stands for one object: it is not handed out again. *)
Record Heap := {
  task_result_ : gmap nat nat;     (* Task::result_ of each task object; absent: nullptr *)
  objects : gmap nat Result;       (* the Result objects that exist, by address *)
  next_address : nat;              (* the addresses below it have been handed out *)
  in_exec : gmap nat (nat * nat)   (* thread |-> (task, address read): inside exec, run() not yet returned *)
}.

Definition new_heap : Heap :=
  {| task_result_ := ∅; objects := ∅; next_address := 0%nat; in_exec := ∅ |}.

Inductive heap_event :=
| NewResult (task : nat) (isValid : bool)   (* Result::Result(task, isValid) *)
| DeleteResult (a : nat)                    (* Result::~Result, by the owner of the handle *)
| ExecBegin (n : nat) (task : nat)          (* thread n enters task->exec() and reads result_ *)
| ExecEnd (n : nat).                        (* run() returns in thread n; setVal through the pointer read *)

Inductive heap_outcome :=
| Next (h : Heap)
| Thrown (e : Fault) (h : Heap)   (* the exception of run() leaves exec *)
| Undefined                       (* a write through a dangling pointer, or the semaphore count overflows *)
| Disabled.                       (* no such move in this state *)

Definition set_objects (m : gmap nat Result) (h : Heap) : Heap :=
  {| task_result_ := task_result_ h; objects := m;
     next_address := next_address h; in_exec := in_exec h |}.

Definition set_in_exec (m : gmap nat (nat * nat)) (h : Heap) : Heap :=
  {| task_result_ := task_result_ h; objects := objects h;
     next_address := next_address h; in_exec := m |}.

(** [Result::Result]: the member initialisers, then
    [task_->setResult(this)]. *)
Definition heap_new_Result (task : nat) (isValid : bool) (h : Heap) : Heap :=
  let this := next_address h in
  {| task_result_ := <[task := this]> (task_result_ h);
     objects := <[this := Result_init task isValid]> (objects h);
     next_address := S this;
     in_exec := in_exec h |}.

Definition heap_step (ev : heap_event) (h : Heap) : heap_outcome :=
  match ev with
  | NewResult task isValid => Next (heap_new_Result task isValid h)
  | DeleteResult a =>
      match objects h !! a with
      | None => Disabled
      | Some _ => Next (set_objects (delete a (objects h)) h)
      end
  | ExecBegin n task =>
      match in_exec h !! n with
      | Some _ => Disabled
      | None =>
          match task_result_ h !! task with
          | None => Next h      (* result_ == nullptr: run() is not called *)
          | Some a => Next (set_in_exec (<[n := (task, a)]> (in_exec h)) h)
          end
      end
  | ExecEnd n =>
      match in_exec h !! n with
      | None => Disabled
      | Some (task, a) =>
          let h0 := set_in_exec (delete n (in_exec h)) h in
          match run task with
          | Raise e => Thrown e h0
          | Value any =>
              match objects h !! a with
              | None => Undefined
              | Some r =>
                  match Result_setVal any r with
                  | None => Undefined
                  | Some r' => Next (set_objects (<[a := r']> (objects h)) h0)
                  end
              end
          end
      end
  end.

(** A run of defined moves; an exception that leaves [exec] ends it (it
    leaves the thread function too). *)
Fixpoint heap_steps (evs : list heap_event) (h : Heap) : option Heap :=
  match evs with
  | [] => Some h
  | ev :: evs' =>
      match heap_step ev h with
      | Next h' => heap_steps evs' h'
      | _ => None
      end
  end.

(** Pointers lead to objects made for the task they belong to, when these
    still exist, and only to addresses that were handed out. *)
Definition heap_ok (h : Heap) : Prop :=
  (∀ t a, task_result_ h !! t = Some a →
          (a < next_address h)%nat
          ∧ ∀ r, objects h !! a = Some r → task_ r = t)
  ∧ (∀ n t a, in_exec h !! n = Some (t, a) →
              (a < next_address h)%nat
              ∧ ∀ r, objects h !! a = Some r → task_ r = t)
  ∧ (∀ a r, objects h !! a = Some r → (a < next_address h)%nat).

(** No [Result] has been destroyed: every address handed out has its
    object. *)
Definition all_kept (h : Heap) : Prop :=
  ∀ a, (a < next_address h)%nat → is_Some (objects h !! a).

(** Nothing leads to the object at [a] any more: no task points to it and
    no thread inside [exec] has read its address. *)
Definition orphaned (a : nat) (h : Heap) : Prop :=
  (∀ t, task_result_ h !! t ≠ Some a)
  ∧ (∀ n t, in_exec h !! n ≠ Some (t, a))
  ∧ (a < next_address h)%nat.

End Model.
End Pool1.

(** * ThreaadPool2.0 *)

Module Pool2.

Section Model.

(** The return type of the submitted callables, its value-initialised
    element [RType()], and the exceptions of user code. *)
Context {RType Fault : Type}.
Variable RType_default : RType.

(** ** [std::packaged_task] and [std::future] *)

(** What can leave [packaged_task::operator()]: never the exception of the
    callable, which goes to the shared state, only the [std::future_error]
    of a second call. *)
Inductive future_error := promise_already_satisfied.

(** A [packaged_task<RType()>] with the shared state its [future] reads:
    empty, or holding a value or an exception. *)
Record packaged_task := {
  callable : unit -> outcome Fault RType;
  shared_state : option (outcome Fault RType)
}.

Definition make_packaged_task (f : unit -> outcome Fault RType) : packaged_task :=
  {| callable := f; shared_state := None |}.

(** [packaged_task::operator()] *)
Definition packaged_task_call (t : packaged_task) : outcome future_error packaged_task :=
  match shared_state t with
  | Some _ => Raise promise_already_satisfied
  | None => Value {| callable := callable t; shared_state := Some (callable t tt) |}
  end.

(** [future::get]: suspended until the shared state is ready, then the
    value, or the stored exception thrown again. *)
Definition future_get (t : packaged_task) : blocking (outcome Fault RType) :=
  match shared_state t with
  | None => Blocks
  | Some o => Returns o
  end.

(** ** Pool state *)

(** A queued [Task] is the closure that calls the packaged task it
    captures: the address of that packaged task. *)
Record ThreadPool := {
  threadMap_ : gmap Z Thread;
  initThreadSize_ : Z;
  maxThreadSize_ : Z;
  currentThreadNum_ : Z;
  idleThreadNum_ : Z;
  taskQue_ : list nat;
  taskSize_ : Z;
  taskMaxSize_ : Z;
  poolmode_ : PoolMode;
  isRunning_ : bool
}.

(** [ThreadPool::ThreadPool] *)
Definition ThreadPool_ctor (poolmode : PoolMode)
    (initthreadsize maxthreadsize taskmaxsize : Z) : ThreadPool :=
  {| threadMap_ := ∅;
     initThreadSize_ := initthreadsize;
     maxThreadSize_ := maxthreadsize;
     currentThreadNum_ := 0;
     idleThreadNum_ := 0;
     taskQue_ := [];
     taskSize_ := 0;
     taskMaxSize_ := taskmaxsize;
     poolmode_ := poolmode;
     isRunning_ := false |}.

Definition set_threadMap_ (m : gmap Z Thread) (p : ThreadPool) : ThreadPool :=
  {| threadMap_ := m; initThreadSize_ := initThreadSize_ p;
     maxThreadSize_ := maxThreadSize_ p;
     currentThreadNum_ := currentThreadNum_ p;
     idleThreadNum_ := idleThreadNum_ p;
     taskQue_ := taskQue_ p; taskSize_ := taskSize_ p;
     taskMaxSize_ := taskMaxSize_ p;
     poolmode_ := poolmode_ p; isRunning_ := isRunning_ p |}.

Definition set_counts (cur idle : Z) (p : ThreadPool) : ThreadPool :=
  {| threadMap_ := threadMap_ p; initThreadSize_ := initThreadSize_ p;
     maxThreadSize_ := maxThreadSize_ p;
     currentThreadNum_ := cur; idleThreadNum_ := idle;
     taskQue_ := taskQue_ p; taskSize_ := taskSize_ p;
     taskMaxSize_ := taskMaxSize_ p;
     poolmode_ := poolmode_ p; isRunning_ := isRunning_ p |}.

Definition set_queue (q : list nat) (num : Z) (p : ThreadPool) : ThreadPool :=
  {| threadMap_ := threadMap_ p; initThreadSize_ := initThreadSize_ p;
     maxThreadSize_ := maxThreadSize_ p;
     currentThreadNum_ := currentThreadNum_ p;
     idleThreadNum_ := idleThreadNum_ p;
     taskQue_ := q; taskSize_ := num;
     taskMaxSize_ := taskMaxSize_ p;
     poolmode_ := poolmode_ p; isRunning_ := isRunning_ p |}.

Definition set_running (b : bool) (p : ThreadPool) : ThreadPool :=
  {| threadMap_ := threadMap_ p; initThreadSize_ := initThreadSize_ p;
     maxThreadSize_ := maxThreadSize_ p;
     currentThreadNum_ := currentThreadNum_ p;
     idleThreadNum_ := idleThreadNum_ p;
     taskQue_ := taskQue_ p; taskSize_ := taskSize_ p;
     taskMaxSize_ := taskMaxSize_ p;
     poolmode_ := poolmode_ p; isRunning_ := b |}.

(** ** The process around one pool *)

(** [tasks] holds the packaged tasks by address; a [future] is the address
    of the task whose shared state it reads.  [terminated] is set when an
    exception leaves a thread function.  [accepted] and [completed] are
    history: the tasks put in the queue, and the tasks whose call returned,
    in order. *)
Record Process := {
  pool : ThreadPool;
  generateId_ : Z;
  threads : list (worker nat);
  tasks : list packaged_task;
  owner : owner_pc;
  terminated : option future_error;
  accepted : list nat;
  completed : list nat
}.

Definition boot (p : ThreadPool) (g : Z) : Process :=
  {| pool := p; generateId_ := g; threads := []; tasks := [];
     owner := Constructed; terminated := None;
     accepted := []; completed := [] |}.

Definition set_pool (p : ThreadPool) (s : Process) : Process :=
  {| pool := p; generateId_ := generateId_ s; threads := threads s;
     tasks := tasks s; owner := owner s; terminated := terminated s;
     accepted := accepted s; completed := completed s |}.

Definition set_generateId_ (g : Z) (s : Process) : Process :=
  {| pool := pool s; generateId_ := g; threads := threads s;
     tasks := tasks s; owner := owner s; terminated := terminated s;
     accepted := accepted s; completed := completed s |}.

Definition set_threads (ws : list (worker nat)) (s : Process) : Process :=
  {| pool := pool s; generateId_ := generateId_ s; threads := ws;
     tasks := tasks s; owner := owner s; terminated := terminated s;
     accepted := accepted s; completed := completed s |}.

Definition set_tasks (ts : list packaged_task) (s : Process) : Process :=
  {| pool := pool s; generateId_ := generateId_ s; threads := threads s;
     tasks := ts; owner := owner s; terminated := terminated s;
     accepted := accepted s; completed := completed s |}.

Definition set_owner (o : owner_pc) (s : Process) : Process :=
  {| pool := pool s; generateId_ := generateId_ s; threads := threads s;
     tasks := tasks s; owner := o; terminated := terminated s;
     accepted := accepted s; completed := completed s |}.

Definition set_terminated (e : future_error) (s : Process) : Process :=
  {| pool := pool s; generateId_ := generateId_ s; threads := threads s;
     tasks := tasks s; owner := owner s; terminated := Some e;
     accepted := accepted s; completed := completed s |}.

Definition log_accepted (t : nat) (s : Process) : Process :=
  {| pool := pool s; generateId_ := generateId_ s; threads := threads s;
     tasks := tasks s; owner := owner s; terminated := terminated s;
     accepted := accepted s ++ [t]; completed := completed s |}.

Definition log_completed (t : nat) (s : Process) : Process :=
  {| pool := pool s; generateId_ := generateId_ s; threads := threads s;
     tasks := tasks s; owner := owner s; terminated := terminated s;
     accepted := accepted s; completed := completed s ++ [t] |}.

Definition set_worker (n : nat) (w : worker nat) (s : Process) : Process :=
  set_threads (<[n := w]> (threads s)) s.

(** [Thread::start]: a detached OS thread running [func_(threadId_)]. *)
Definition Thread_start (t : Thread) (s : Process) : Process :=
  set_threads (threads s ++ [Build_worker (threadId_ t) Entry 0]) s.

(** [std::make_shared<std::packaged_task<RType()>>(f)]: the new object and
    its address. *)
Definition make_shared (f : unit -> outcome Fault RType) (s : Process)
  : Process * nat :=
  (set_tasks (tasks s ++ [make_packaged_task f]) s, length (tasks s)).

(** ** [ThreadPool::start] *)

Inductive start_result :=
| StartDone (s : Process)
| NullThreadHandle (i : Z)   (* threadMap_[i] had no entry: a null unique_ptr is dereferenced *)
| IdOverflow.                (* generateId_++ at INT_MAX *)

(** The second loop, from index [i], [n] iterations to go:
    [threadMap_[i]->start(); idleThreadNum_++]. *)
Fixpoint launch_threads (n : nat) (i : Z) (s : Process) : Process + Z :=
  match n with
  | O => inl s
  | S n' =>
      match threadMap_ (pool s) !! i with
      | None => inr i
      | Some t =>
          let s1 := Thread_start t s in
          let p := pool s1 in
          launch_threads n' (i + 1)
            (set_pool (set_counts (currentThreadNum_ p)
                                  (wrap_int (idleThreadNum_ p + 1)) p) s1)
      end
  end.

Definition start (s : Process) : start_result :=
  let p := set_running true (pool s) in
  let p := set_counts (initThreadSize_ p) (idleThreadNum_ p) p in
  let n := Z.to_nat (initThreadSize_ p) in
  match register_threads n (generateId_ s) (threadMap_ p) with
  | None => IdOverflow
  | Some (g, m) =>
      match launch_threads n 0
              (set_generateId_ g (set_pool (set_threadMap_ m p) s)) with
      | inl s' => StartDone s'
      | inr i => NullThreadHandle i
      end
  end.

(** ** [ThreadPool::submitTask] *)

(** The growth test of line 120; the queue size is a [size_t], so the idle
    count is converted. *)
Definition wants_thread (p : ThreadPool) : bool :=
  is_cached (poolmode_ p)
  && (to_size_t (idleThreadNum_ p) <? Z.of_nat (length (taskQue_ p)))
  && (currentThreadNum_ p <? maxThreadSize_ p).

(** The room test of the [wait_for] predicate: [size_t] against [int]. *)
Definition has_room (p : ThreadPool) : bool :=
  Z.of_nat (length (taskQue_ p)) <? to_size_t (taskMaxSize_ p).

(** [submitTask(func, args...)], with [bound] for
    [std::bind(func, args...)]: the packaging, then the stretch from the
    last evaluation of the [wait_for] predicate to the return.  Gives the
    new state and the future returned; [None] is the overflow of
    [generateId_]. *)
Definition submitTask (bound : unit -> outcome Fault RType) (s : Process)
  : option (Process * nat) :=
  let '(s0, task) := make_shared bound s in
  let result := task in
  let p := pool s0 in
  if has_room p then
    let p1 := set_queue (taskQue_ p ++ [task]) (wrap_int (taskSize_ p + 1)) p in
    let s1 := log_accepted task (set_pool p1 s0) in
    if wants_thread p1 then
      '(ptr, g) ← Thread_new (generateId_ s1);
      let threadId := threadId_ ptr in
      let m := emplace threadId ptr (threadMap_ p1) in
      t ← m !! threadId;
      let s2 := Thread_start t (set_generateId_ g (set_pool (set_threadMap_ m p1) s1)) in
      let p2 := pool s2 in
      Some (set_pool (set_counts (wrap_int (currentThreadNum_ p2 + 1))
                                 (wrap_int (idleThreadNum_ p2 + 1)) p2) s2,
            result)
    else Some (s1, result)
  else
    let '(s1, task') := make_shared (fun _ => Value RType_default) s0 in
    t ← tasks s1 !! task';
    match packaged_task_call t with
    | Raise _ => None
    | Value t' => Some (set_tasks (<[task' := t']> (tasks s1)) s1, task')
    end.

(** [submitTask] applied to a function and its argument. *)
Definition submit {A : Type} (func : A -> outcome Fault RType) (arg : A)
    (s : Process) : option (Process * nat) :=
  submitTask (fun _ => func arg) s.

(** ** [ThreadPool::threadFunc] *)

(** From the test of [while (taskQue_.size() == 0)] to the next point where
    the lock is released. *)
Definition loop_head (n : nat) (w : worker nat) (s : Process) : Process :=
  let p := pool s in
  match taskQue_ p with
  | [] =>
      if isRunning_ p then set_worker n (goto InWait w) s
      else
        set_worker n (goto ReturnedShutdown w)
          (set_pool (set_threadMap_ (delete (threadid w) (threadMap_ p)) p) s)
  | task :: rest =>
      set_worker n (goto (HasTask task) w)
        (set_pool
           (set_queue rest (wrap_int (taskSize_ p - 1))
              (set_counts (currentThreadNum_ p)
                          (wrap_int (idleThreadNum_ p - 1)) p))
           s)
  end.

(** The test of line 205, after [wait_for] reported a timeout. *)
Definition idle_too_long (w : worker nat) (now : Z) (p : ThreadPool) : bool :=
  (THREAD_MAX_IDLE_TIME <=? seconds_between (lastTime w) now)
  && (initThreadSize_ p <? currentThreadNum_ p).

Definition retire (n : nat) (w : worker nat) (s : Process) : Process :=
  let p := pool s in
  set_worker n (goto ReturnedIdle w)
    (set_pool
       (set_counts (wrap_int (currentThreadNum_ p - 1))
                   (wrap_int (idleThreadNum_ p - 1))
          (set_threadMap_ (delete (threadid w) (threadMap_ p)) p))
       s).

(** [task()] on a dequeued closure: the packaged task it captures is
    called.  [None]: no such object. *)
Definition Task_call (task : nat) (s : Process)
  : option (outcome future_error Process) :=
  t ← tasks s !! task;
  match packaged_task_call t with
  | Raise e => Some (Raise e)
  | Value t' => Some (Value (set_tasks (<[task := t']> (tasks s)) s))
  end.

(** One move of OS thread [n]. [None]: the thread cannot move this way (it
    has returned; a plain [wait] has no timeout) or the move is undefined. *)
Definition threadFunc (n : nat) (now : Z) (timed_out : bool) (s : Process)
  : option Process :=
  w ← threads s !! n;
  match at_pc w with
  | Entry => Some (set_worker n (Build_worker (threadid w) AtLock now) s)
  | AtLock => Some (loop_head n w s)
  | InWait =>
      if is_cached (poolmode_ (pool s)) then
        if timed_out && idle_too_long w now (pool s)
        then Some (retire n w s)
        else Some (loop_head n w s)
      else if timed_out then None
      else Some (loop_head n w s)
  | HasTask task =>
      match Task_call task s with
      | None => None
      | Some (Raise e) => Some (set_terminated e s)
      | Some (Value s') =>
          Some (set_worker n (goto Ran w) (log_completed task s'))
      end
  | Ran =>
      let p := pool s in
      Some (set_worker n (Build_worker (threadid w) AtLock now)
              (set_pool (set_counts (currentThreadNum_ p)
                                    (wrap_int (idleThreadNum_ p + 1)) p) s))
  | ReturnedShutdown | ReturnedIdle => None
  end.

(** ** [ThreadPool::~ThreadPool] *)

(** Up to the [wait]: the flag is cleared, the waiters are notified. *)
Definition destructor_enter (s : Process) : Process :=
  set_owner (InDestructor (was_started (owner s)))
    (set_pool (set_running false (pool s)) s).

(** The predicate of [exitCond_.wait]. *)
Definition destructor_may_return (p : ThreadPool) : bool :=
  bool_decide (length (taskQue_ p) = 0%nat).

(** ** The transition system *)

(** Nothing moves after [std::terminate], and the pool object is not
    touched after its destructor has returned. *)
Definition alive (s : Process) : bool :=
  match terminated s, owner s with
  | Some _, _ => false
  | None, Destroyed _ => false
  | None, _ => true
  end.

(** The callers keep to the interface: [start()] is called at most once,
    before the destructor, and nothing is submitted before it. *)
Definition step (ev : event (unit -> outcome Fault RType)) (s : Process)
  : option Process :=
  if alive s then
    match ev with
    | Start =>
        match owner s, start s with
        | Constructed, StartDone s' => Some (set_owner Started s')
        | _, _ => None
        end
    | Submit bound =>
        if was_started (owner s) then fst <$> submitTask bound s else None
    | Worker n now timed_out => threadFunc n now timed_out s
    | Destroy =>
        match owner s with
        | Constructed | Started => Some (destructor_enter s)
        | _ => None
        end
    | DestroyReturn =>
        match owner s with
        | InDestructor b =>
            if destructor_may_return (pool s)
            then Some (set_owner (Destroyed b) s)
            else None
        | _ => None
        end
    | OtherThread =>
        '(_, g) ← Thread_new (generateId_ s);
        Some (set_generateId_ g s)
    end
  else None.

Fixpoint steps (evs : list (event (unit -> outcome Fault RType))) (s : Process)
  : option Process :=
  match evs with
  | [] => Some s
  | ev :: evs' => s' ← step ev s; steps evs' s'
  end.

(** The states a pool built with the given arguments can be in; [g] is the
    value of [generateId_] when it is built. *)
Definition reachable (poolmode : PoolMode)
    (initthreadsize maxthreadsize taskmaxsize : Z) (g : Z) (s : Process)
  : Prop :=
  ∃ evs,
    steps evs (boot (ThreadPool_ctor poolmode initthreadsize maxthreadsize
                       taskmaxsize) g) = Some s.

(** ** What holds in every reachable state *)

(** The construction arguments, which nothing changes afterwards. *)
Definition config (p : ThreadPool) : PoolMode * Z * Z * Z :=
  (poolmode_ p, initThreadSize_ p, maxThreadSize_ p, taskMaxSize_ p).

Record consistent (s : Process) : Prop := {
  (* the queue is the tail of what was accepted; what left it has been run
     or is in the hands of a thread *)
  fifo : ∃ taken, accepted s = taken ++ taskQue_ (pool s)
                  ∧ taken ≡ₚ completed s ++ in_flight (threads s);
  (* a task in the queue or in hand has not been called yet *)
  fresh : ∀ t, t ∈ in_flight (threads s) ++ taskQue_ (pool s) →
               ∃ pt, tasks s !! t = Some pt ∧ shared_state pt = None;
  (* and is there once *)
  nodup : NoDup (in_flight (threads s) ++ taskQue_ (pool s));
  taskSize_queue :
    taskSize_ (pool s) = wrap_int (Z.of_nat (length (taskQue_ (pool s))));
  ids_used : Z.of_nat (length (threads s)) <= generateId_ s <= INT_MAX;
  idle_threads : idleThreadNum_ (pool s) = total idle_share (threads s);
  cur_threads : 0 <= initThreadSize_ (pool s) →
                currentThreadNum_ (pool s) = total cur_share (threads s);
  cur_int : in_int (currentThreadNum_ (pool s));
  cur_floor : was_started (owner s) = true →
              initThreadSize_ (pool s) <= currentThreadNum_ (pool s);
  before_start : was_started (owner s) = false →
                 threads s = [] ∧ taskQue_ (pool s) = [] ∧ accepted s = [];
  running_threads : isRunning_ (pool s) = true →
                    Forall (fun w => at_pc w ≠ ReturnedShutdown) (threads s);
  int_fields : in_int (initThreadSize_ (pool s))
               ∧ in_int (maxThreadSize_ (pool s))
}.

(** A shared state that is ready holds what the callable gave. *)
Definition results_kept (s : Process) : Prop :=
  ∀ t pt o, tasks s !! t = Some pt → shared_state pt = Some o →
            o = callable pt tt.

(** The configurations that the interface allows: [int] arguments with
    [0 < initthreadsize <= maxthreadsize] and [0 < taskmaxsize]. *)
Definition valid_config (p : ThreadPool) : Prop :=
  in_int (initThreadSize_ p) ∧ in_int (maxThreadSize_ p)
  ∧ in_int (taskMaxSize_ p)
  ∧ 0 < initThreadSize_ p <= maxThreadSize_ p
  ∧ 0 < taskMaxSize_ p.

(** What a valid configuration adds. *)
Record bounded (s : Process) : Prop := {
  cur_ceiling : currentThreadNum_ (pool s) <= maxThreadSize_ (pool s);
  queue_ceiling :
    Z.of_nat (length (taskQue_ (pool s))) <= taskMaxSize_ (pool s)
}.

(** The registry holds each thread object under its own identity, and the
    identities were all drawn from the counter. *)
Definition registry_ok (s : Process) : Prop :=
  ∀ k t, threadMap_ (pool s) !! k = Some t →
         threadId_ t = k ∧ k < generateId_ s.

(** Once a thread has left through the shutdown branch, the first [k]
    accepted tasks are no longer in the queue. *)
Definition drained (k : nat) (s : Process) : Prop :=
  (k <= length (accepted s))%nat
  ∧ (Exists (fun w => at_pc w = ReturnedShutdown) (threads s) →
     (k + length (taskQue_ (pool s)) <= length (accepted s))%nat).

(** With at most one thread, the tasks complete in the order of
    acceptance. *)
Definition in_order (s : Process) : Prop :=
  (length (threads s) <= 1)%nat →
  accepted s = completed s ++ in_flight (threads s) ++ taskQue_ (pool s).

(** A fixed pool has the threads that [start()] made. *)
Definition fixed_size (s : Process) : Prop :=
  poolmode_ (pool s) = MODE_FIXED →
  length (threads s) =
    if was_started (owner s) then Z.to_nat (initThreadSize_ (pool s))
    else 0%nat.

(** A submission has made the pool grow by the thread object [t]. *)
Definition grown_by (t : Thread) (s s' : Process) : Prop :=
  threads s' = threads s ++ [Build_worker (threadId_ t) Entry 0]
  ∧ threadMap_ (pool s') = <[threadId_ t := t]> (threadMap_ (pool s))
  ∧ threadMap_ (pool s) !! threadId_ t = None
  ∧ currentThreadNum_ (pool s') = currentThreadNum_ (pool s) + 1
  ∧ idleThreadNum_ (pool s') = idleThreadNum_ (pool s) + 1.

Definition same_size (s s' : Process) : Prop :=
  threads s' = threads s
  ∧ threadMap_ (pool s') = threadMap_ (pool s)
  ∧ currentThreadNum_ (pool s') = currentThreadNum_ (pool s)
  ∧ idleThreadNum_ (pool s') = idleThreadNum_ (pool s).

(** OS thread [n] leaves [threadFunc] in the move from [s] to [s']. *)
Definition returns_at (n : nat) (p : pc nat) (s s' : Process) : Prop :=
  ∃ w w', threads s !! n = Some w ∧ threads s' !! n = Some w'
          ∧ at_pc w ≠ p ∧ at_pc w' = p.

(** The registry and the threads: each thread still in [threadFunc] has
    its entry, and each entry has its thread. *)
Definition enrolled (s : Process) : Prop :=
  enrolled_in (threadMap_ (pool s)) (generateId_ s) (threads s).

Definition attended (s : Process) : Prop :=
  attended_by (threadMap_ (pool s)) (threads s).

(** The destructor has returned only on its predicate. *)
Definition destroyed_on_predicate (s : Process) : Prop :=
  ∀ b, owner s = Destroyed b → destructor_may_return (pool s) = true.

(** The shared state of a completed task is ready. *)
Definition completed_ready (s : Process) : Prop :=
  ∀ t, t ∈ completed s →
       ∃ pt o, tasks s !! t = Some pt ∧ shared_state pt = Some o.

(** From [s] to [s'], every packaged task stays where it is with its
    callable, and a shared state that was ready is unchanged. *)
Definition futures_kept (s s' : Process) : Prop :=
  ∀ h pt, tasks s !! h = Some pt →
          ∃ pt', tasks s' !! h = Some pt'
                 ∧ callable pt' = callable pt
                 ∧ (∀ o, shared_state pt = Some o → shared_state pt' = Some o).

End Model.
End Pool2.

(** * Concrete pools *)

Module Examples.

(** Payloads of [Any]: a C string or an [int]. *)
Inductive Derive :=
| Derive_cstr (s : list Z)
| Derive_int (z : Z).

(** The payload made from the empty string literal. *)
Definition cstr_empty : Derive := Derive_cstr [].

(** Task objects of a 1.0 client: the one at address 0 returns 42, the one
    at address 1 throws, the others return their address. *)
Definition run (t : nat) : outcome unit (option Derive) :=
  match t with
  | 0%nat => Value (Some (Derive_int 42))
  | 1%nat => Raise tt
  | _ => Value (Some (Derive_int (Z.of_nat t)))
  end.

(** A fixed 1.0 pool with one thread and room for four tasks, built when
    the identity counter is [g]. *)
Definition fixed1 (g : Z) : @Pool1.Process Derive unit :=
  Pool1.boot (Pool1.ThreadPool_ctor 1 1024 4 MODE_FIXED false) g.

(** A cached 1.0 pool: one initial thread, at most two, room for four. *)
Definition cached1 : @Pool1.Process Derive unit :=
  Pool1.boot (Pool1.ThreadPool_ctor 1 2 4 MODE_CACHED false) 0.

(** Callables of a 2.0 client, all returning [int]: [square x], and one
    that throws. *)
Definition square (x : Z) : outcome unit Z := Value (x * x).
Definition thrower (x : Z) : outcome unit Z := Raise tt.

Definition fixed2 (g : Z) : @Pool2.Process Z unit :=
  Pool2.boot (Pool2.ThreadPool_ctor MODE_FIXED 1 1024 2) g.

Definition cached2 : @Pool2.Process Z unit :=
  Pool2.boot (Pool2.ThreadPool_ctor MODE_CACHED 1 2 4) 0.

(** One second on the clock. *)
Definition second : Z := ticks_per_second.

(** The moves that take a new thread to its first wait on an empty queue,
    and an idle thread through a task. *)
Definition settle {A} (n : nat) (now : Z) : list (event A) :=
  [Worker n now false; Worker n now false].
Definition serve {A} (n : nat) (now : Z) : list (event A) :=
  [Worker n now false; Worker n now false; Worker n now false].

(** A cached pool grows to two threads under two submissions, both tasks
    are served, and both threads are back in [wait_for]. *)
Definition grow_and_settle {A} (t1 t2 : A) : list (event A) :=
  [Start; Submit t1] ++ settle 0 0 ++ [Submit t2]
  ++ serve 1 0 ++ [Worker 0 0 false] ++ settle 0 0 ++ settle 1 0.

(** The instances of [Any] of a 1.0 client: [int], and [const char*] for
    string literals. *)
Inductive Ty := T_int | T_cstr.

#[global] Instance Ty_eq_dec : EqDecision Ty :=
  fun x y =>
    match x, y with
    | T_int, T_int => left eq_refl
    | T_cstr, T_cstr => left eq_refl
    | T_int, T_cstr =>
        right (fun e : T_int = T_cstr =>
                 match e in _ = z
                       return match z with T_int => True | T_cstr => False end
                 with eq_refl => I end)
    | T_cstr, T_int =>
        right (fun e : T_cstr = T_int =>
                 match e in _ = z
                       return match z with T_cstr => True | T_int => False end
                 with eq_refl => I end)
    end.

Definition El (T : Ty) : Type :=
  match T with T_int => Z | T_cstr => list Z end.

(** The empty string literal as a payload. *)
Definition empty_literal : Any_Base El := existT T_cstr ([] : El T_cstr).

(** Task objects returning [Any(int)]: the one at address [t] returns
    [t + 1]. *)
Definition run_int (t : nat) : outcome unit (option (Any_Base El)) :=
  Value (Any_of El T_int (Z.of_nat t + 1)).

(** One task through a pool with one thread, then the destructor: the
    thread leaves through the shutdown branch and the destructor returns. *)
Definition serve_one {A} (t : A) : list (event A) :=
  [Start; Submit t] ++ serve 0 0.
Definition shut_down {A} : list (event A) :=
  [Destroy; Worker 0 0 false; Worker 0 0 false; DestroyReturn].

End Examples.

(** * Facts *)

#[local] Set Warnings "-clear-no-such-hyp".

(** ** Integers *)

Lemma wrap_int_small z : in_int z → wrap_int z = z.
Proof.
  unfold in_int, wrap_int, INT_MIN, INT_MAX. intros Hz.
  rewrite Z.mod_small; lia.
Qed.

Lemma bump_small n z :
  INT_MIN <= z → z + Z.of_nat n <= INT_MAX → bump n z = z + Z.of_nat n.
Proof.
  unfold bump. induction n as [|n IH]; intros Hlo Hhi; simpl.
  - lia.
  - rewrite IH by lia. rewrite wrap_int_small; [lia|].
    unfold in_int. lia.
Qed.

Lemma bump_succ_r n z : bump (S n) z = bump n (wrap_int (z + 1)).
Proof. unfold bump. by rewrite Nat.iter_succ_r. Qed.

Lemma wrap_int_wrap_add x y : wrap_int (wrap_int x + y) = wrap_int (x + y).
Proof.
  unfold wrap_int. f_equal.
  replace ((x + 2 ^ 31) mod 2 ^ 32 - 2 ^ 31 + y + 2 ^ 31)
    with ((x + 2 ^ 31) mod 2 ^ 32 + y) by lia.
  rewrite Zplus_mod_idemp_l. f_equal. lia.
Qed.

Lemma wrap_int_wrap_sub x y : wrap_int (wrap_int x - y) = wrap_int (x - y).
Proof. apply (wrap_int_wrap_add x (- y)). Qed.

Lemma wrap_int_in_int z : in_int (wrap_int z).
Proof.
  unfold in_int, wrap_int, INT_MIN, INT_MAX.
  pose proof (Z.mod_pos_bound (z + 2 ^ 31) (2 ^ 32)). lia.
Qed.

Lemma to_size_t_small z : 0 <= z <= INT_MAX → to_size_t z = z.
Proof.
  unfold to_size_t, INT_MAX. intros Hz. apply Z.mod_small. lia.
Qed.

(** ** Thread lists *)

Section Workers.
Context {T : Type}.
Implicit Types (w : worker T) (ws : list (worker T)).

Lemma total_nil share : total share (@nil (worker T)) = 0.
Proof. done. Qed.

Lemma total_cons share w ws : total share (w :: ws) = share w + total share ws.
Proof. done. Qed.

Lemma total_app share ws1 ws2 :
  total share (ws1 ++ ws2) = total share ws1 + total share ws2.
Proof. unfold total. induction ws1 as [|w ws1 IH]; simpl; lia. Qed.

Lemma total_insert share ws n w w' :
  ws !! n = Some w →
  total share (<[n := w']> ws) = total share ws - share w + share w'.
Proof.
  unfold total. revert n.
  induction ws as [|v ws IH]; intros [|n] Hn; simplify_eq/=; [lia|].
  rewrite (IH n) by done. lia.
Qed.

Lemma total_bounds share ws :
  (∀ w, 0 <= share w <= 1) → 0 <= total share ws <= Z.of_nat (length ws).
Proof.
  intros Hs. unfold total.
  induction ws as [|w ws IH]; simpl; [lia|]. specialize (Hs w). lia.
Qed.

Lemma idle_share_bounds w : 0 <= idle_share w <= 1.
Proof. unfold idle_share. destruct (at_pc w); lia. Qed.

Lemma cur_share_bounds w : 0 <= cur_share w <= 1.
Proof. unfold cur_share. destruct (at_pc w); lia. Qed.

Lemma idle_share_at w :
  idle_share w = match at_pc w with
                 | HasTask _ | Ran | ReturnedIdle => 0
                 | _ => 1
                 end.
Proof. done. Qed.

Lemma cur_share_at w :
  cur_share w = match at_pc w with ReturnedIdle => 0 | _ => 1 end.
Proof. done. Qed.

Lemma total_all_zero share ws :
  Forall (fun w => share w = 0) ws → total share ws = 0.
Proof. unfold total. induction 1 as [|w ws Hw _ IH]; simpl; lia. Qed.

Lemma total_idle_entry ws :
  Forall (fun w => at_pc w = Entry) ws →
  total idle_share ws = Z.of_nat (length ws).
Proof.
  unfold total, idle_share.
  induction 1 as [|w ws Hw _ IH]; simpl; [done|]. rewrite Hw. lia.
Qed.

Lemma total_cur_entry ws :
  Forall (fun w => at_pc w = Entry) ws →
  total cur_share ws = Z.of_nat (length ws).
Proof.
  unfold total, cur_share.
  induction 1 as [|w ws Hw _ IH]; simpl; [done|]. rewrite Hw. lia.
Qed.

Lemma in_flight_app ws1 ws2 :
  in_flight (ws1 ++ ws2) = in_flight ws1 ++ in_flight ws2.
Proof. unfold in_flight. by rewrite map_app, concat_app. Qed.

(** Replacing the state of one thread moves what it holds. *)
Lemma in_flight_insert ws n w w' :
  ws !! n = Some w →
  holds w ++ in_flight (<[n := w']> ws) ≡ₚ holds w' ++ in_flight ws.
Proof.
  unfold in_flight. revert n.
  induction ws as [|v ws IH]; intros [|n] Hn; simplify_eq/=.
  - by rewrite !app_assoc, (Permutation_app_comm (holds w)).
  - rewrite !app_assoc, (Permutation_app_comm (holds w)),
      (Permutation_app_comm (holds w')), <- !app_assoc.
    by rewrite (IH n Hn).
Qed.

Lemma in_flight_nil ws :
  Forall (fun w => holds w = []) ws → in_flight ws = [].
Proof.
  unfold in_flight. induction 1 as [|w ws Hw _ IH]; simpl; [done|].
  by rewrite Hw, IH.
Qed.

Lemma in_flight_entry ws :
  Forall (fun w => at_pc w = Entry) ws → in_flight ws = [].
Proof.
  intros Hws. apply in_flight_nil. eapply Forall_impl; [done|].
  intros w Hw. unfold holds. by rewrite Hw.
Qed.

Lemma in_flight_elem ws n w t :
  ws !! n = Some w → at_pc w = HasTask t → t ∈ in_flight ws.
Proof.
  intros Hn Hpc. unfold in_flight.
  apply list_elem_of_lookup_2 in Hn. apply list_elem_of_In.
  apply in_concat. exists (holds w). split.
  - apply in_map. by apply list_elem_of_In.
  - unfold holds. rewrite Hpc. by left.
Qed.

Lemma has_returned_holds w : has_returned w = true → holds w = [].
Proof. unfold has_returned, holds. by destruct (at_pc w). Qed.

Lemma in_flight_returned ws :
  Forall (fun w => has_returned w = true) ws → in_flight ws = [].
Proof.
  intros Hws. apply in_flight_nil. eapply Forall_impl; [done|].
  apply has_returned_holds.
Qed.

(** Among threads that have all returned, a positive [cur_share] total
    means that one of them left through the shutdown branch. *)
Lemma returned_shutdown_exists ws :
  Forall (fun w => has_returned w = true) ws →
  0 < total cur_share ws →
  Exists (fun w => at_pc w = ReturnedShutdown) ws.
Proof.
  induction 1 as [|w ws Hw _ IH]; rewrite ?total_nil, ?total_cons; [lia|].
  unfold has_returned in Hw. rewrite cur_share_at.
  destruct (at_pc w) eqn:Hpc; try done.
  - intros _. by apply Exists_cons_hd.
  - intros Hpos. apply Exists_cons_tl, IH. lia.
Qed.

(** A prefix of [taken ++ rest] that is no longer than [taken] is within
    [taken]. *)
Lemma prefix_within {A} (l taken rest : list A) :
  l `prefix_of` taken ++ rest → (length l <= length taken)%nat →
  l ⊆+ taken.
Proof.
  intros Hl Hlen.
  destruct (prefix_weak_total l taken (taken ++ rest)) as [Hp|Hp];
    [done|by apply prefix_app_r| |].
  - destruct Hp as [k ->]. by apply submseteq_inserts_r.
  - apply prefix_length_eq in Hp as ->; done.
Qed.

End Workers.

(** ** Thread registration *)

Lemma Thread_new_Some g t g' :
  Thread_new g = Some (t, g') →
  t = {| threadId_ := g |} ∧ g' = g + 1 ∧ g < INT_MAX.
Proof.
  unfold Thread_new. case_match eqn:Hlt; [|done]. intros [= <- <-].
  apply Z.ltb_lt in Hlt. done.
Qed.

Lemma register_threads_counter n g m g' m' :
  register_threads n g m = Some (g', m') →
  g' = g + Z.of_nat n ∧ (g <= INT_MAX → g' <= INT_MAX).
Proof.
  revert g m. induction n as [|n IH]; intros g m; simpl.
  - intros [= <- <-]. lia.
  - destruct (Thread_new g) as [[t g1]|] eqn:Hnew; [|done].
    apply Thread_new_Some in Hnew as (-> & -> & Hlt).
    intros Hreg. apply IH in Hreg as [-> Hle]. lia.
Qed.

(** After the first loop of [start()], the registry has the identities
    from the counter onwards, and what it had before elsewhere. *)
Lemma register_threads_lookup n g m g' m' k :
  register_threads n g m = Some (g', m') →
  m' !! k =
    match m !! k with
    | Some t => Some t
    | None => if decide (g <= k < g + Z.of_nat n)
              then Some {| threadId_ := k |} else None
    end.
Proof.
  revert g m. induction n as [|n IH]; intros g m; simpl.
  - intros [= <- <-]. destruct (m !! k); [done|]. case_decide; [lia|done].
  - destruct (Thread_new g) as [[t g1]|] eqn:Hnew; [|done].
    apply Thread_new_Some in Hnew as (-> & -> & Hlt).
    intros Hreg. rewrite (IH _ _ Hreg). unfold emplace. simpl.
    destruct (decide (k = g)) as [->|Hne].
    + destruct (m !! g) eqn:Hg; rewrite ?Hg, ?lookup_insert_eq; [done|].
      case_decide; [done|lia].
    + destruct (m !! g) eqn:Hg; rewrite ?lookup_insert_ne by done;
        destruct (m !! k); try done; repeat case_decide; try done; lia.
Qed.

(** The counters against the thread list, after a thread has moved. *)
Ltac count_shares :=
  repeat match goal with
  | Hl : ?ws !! ?n = Some ?w |- context [total ?share (<[?n := ?w']> ?ws)] =>
      rewrite (total_insert share ws n w w' Hl)
  end;
  rewrite ?total_app;
  repeat match goal with
  | Hws : Forall (fun w => at_pc w = Entry) ?ws |- _ =>
      rewrite ?(total_idle_entry ws Hws), ?(total_cur_entry ws Hws)
  end;
  rewrite ?total_cons, ?total_nil, ?idle_share_at, ?cur_share_at; simpl;
  repeat match goal with
  | Hpc : at_pc ?w = _ |- _ => rewrite !Hpc
  end.

Lemma total_le {T} (f g : worker T → Z) ws :
  (∀ w, f w <= g w) → total f ws <= total g ws.
Proof.
  intros Hfg. unfold total. induction ws as [|w ws IH]; simpl; [lia|].
  specialize (Hfg w). lia.
Qed.

Lemma idle_share_le_cur {T} (w : worker T) : idle_share w <= cur_share w.
Proof. unfold idle_share, cur_share. destruct (at_pc w); lia. Qed.

(** ** Registry and threads *)

Section Registry.
Context {T : Type}.
Implicit Types (w : worker T) (ws : list (worker T)) (m : gmap Z Thread).

Lemma enrolled_in_insert m m' g ws n w w' :
  ws !! n = Some w → threadid w' = threadid w →
  (has_returned w' = false →
   has_returned w = false ∧ m' !! threadid w = m !! threadid w) →
  (∀ k, k ≠ threadid w → m' !! k = m !! k) →
  enrolled_in m g ws → enrolled_in m' g (<[n := w']> ws).
Proof.
  intros Hn Hid Hlive Hother He i w0 Hi.
  assert (∀ j w1, <[n := w']> ws !! j = Some w1 →
                  ∃ w2, ws !! j = Some w2 ∧ threadid w2 = threadid w1) as Hback.
  { intros j w1 Hj. destruct (decide (n = j)) as [->|Hne].
    - rewrite list_lookup_insert_eq in Hj by (by eapply lookup_lt_Some).
      injection Hj as <-. eauto.
    - rewrite list_lookup_insert_ne in Hj by done. eauto. }
  destruct (decide (n = i)) as [->|Hne].
  - rewrite list_lookup_insert_eq in Hi by (by eapply lookup_lt_Some).
    injection Hi as <-. destruct (He i w Hn) as (Hlt & Hreg & Hdis).
    rewrite Hid. split_and!; [done| |].
    + intros Hl. destruct (Hlive Hl) as [Hl' ->]. by apply Hreg.
    + intros j w1 Hj Hw1. destruct (Hback j w1 Hj) as (w2 & Hj2 & Hw2).
      apply (Hdis j w2 Hj2). congruence.
  - rewrite list_lookup_insert_ne in Hi by done.
    destruct (He i w0 Hi) as (Hlt & Hreg & Hdis). split_and!; [done| |].
    + intros Hl. rewrite Hother; [by apply Hreg|].
      intros Heq. destruct (He n w Hn) as (_ & _ & Hdis').
      apply Hne. symmetry. by apply (Hdis' i w0 Hi).
    + intros j w1 Hj Hw1. destruct (Hback j w1 Hj) as (w2 & Hj2 & Hw2).
      apply (Hdis j w2 Hj2). congruence.
Qed.

Lemma attended_by_insert m m' ws n w w' :
  ws !! n = Some w → threadid w' = threadid w →
  (has_returned w' = true → m' !! threadid w = None) →
  (∀ k, is_Some (m' !! k) → is_Some (m !! k)) →
  attended_by m ws → attended_by m' (<[n := w']> ws).
Proof.
  intros Hn Hid Hgone Hsub Ha k Hk.
  destruct (Ha k (Hsub k Hk)) as (i & w0 & Hi & Hw0 & Hl0).
  destruct (decide (n = i)) as [->|Hne].
  - assert (w0 = w) as -> by congruence.
    exists i, w'. rewrite list_lookup_insert_eq by (by eapply lookup_lt_Some).
    split_and!; [done|congruence|].
    destruct (has_returned w') eqn:Hr; [|done].
    rewrite <- Hw0, Hgone in Hk by done. by destruct Hk.
  - exists i, w0. by rewrite list_lookup_insert_ne by done.
Qed.

Lemma enrolled_in_grow m g ws t :
  enrolled_in m g ws →
  enrolled_in (<[g := t]> m) (g + 1) (ws ++ [Build_worker g Entry 0]).
Proof.
  intros He i w Hi.
  assert (∀ j w1, (ws ++ [Build_worker (T:=T) g Entry 0]) !! j = Some w1 →
                  (ws !! j = Some w1 ∧ threadid w1 < g)
                  ∨ (j = length ws ∧ threadid w1 = g)) as Hcase.
  { intros j w1 Hj. apply lookup_app_Some in Hj as [Hj|[Hlen Hj]].
    - left. split; [done|]. by destruct (He j w1 Hj).
    - right. apply list_lookup_singleton_Some in Hj as [Hj <-].
      split; [lia|done]. }
  destruct (Hcase i w Hi) as [[Hi' Hlt]|[-> Hg]].
  - destruct (He i w Hi') as (_ & Hreg & Hdis). split_and!; [lia| |].
    + intros Hl. rewrite lookup_insert_is_Some. right.
      split; [lia|by apply Hreg].
    + intros j w1 Hj Hw1. destruct (Hcase j w1 Hj) as [[Hj' _]|[-> Hg']].
      * by apply (Hdis j w1).
      * lia.
  - split_and!; [lia| |].
    + intros _. rewrite Hg. rewrite lookup_insert_is_Some. by left.
    + intros j w1 Hj Hw1. destruct (Hcase j w1 Hj) as [[_ Hlt]|[-> _]];
        [lia|done].
Qed.

Lemma attended_by_grow m g ws t :
  attended_by m ws →
  attended_by (<[g := t]> m) (ws ++ [Build_worker g Entry 0]).
Proof.
  intros Ha k Hk. apply lookup_insert_is_Some in Hk as [<-|[Hne Hk]].
  - exists (length ws), (Build_worker g Entry 0).
    split_and!; [|done|done].
    by rewrite lookup_app_r, Nat.sub_diag by lia.
  - destruct (Ha k Hk) as (i & w & Hi & Hw & Hl). exists i, w.
    split_and!; [|done|done]. by apply lookup_app_l_Some.
Qed.

Lemma enrolled_in_mono m g g' ws :
  g <= g' → enrolled_in m g ws → enrolled_in m g' ws.
Proof.
  intros Hg He i w Hi. destruct (He i w Hi) as (Hlt & Hreg & Hdis).
  split_and!; [lia|done|done].
Qed.

Lemma launched_lookup i n j w :
  launched (T:=T) i n !! j = Some w →
  w = Build_worker (i + Z.of_nat j) Entry 0 ∧ (j < n)%nat.
Proof.
  unfold launched. rewrite list_lookup_fmap.
  destruct (seqZ i (Z.of_nat n) !! j) as [k|] eqn:Hk; [|done].
  apply lookup_seqZ in Hk as [-> Hlt]. intros [= <-]. split; [done|lia].
Qed.

Lemma enrolled_in_launched m g n :
  (∀ k, 0 <= k < Z.of_nat n → is_Some (m !! k)) → Z.of_nat n <= g →
  enrolled_in m g (launched (T:=T) 0 n).
Proof.
  intros Hm Hg i w Hi. apply launched_lookup in Hi as [-> Hlt]. simpl.
  split_and!; [lia| |].
  - intros _. apply Hm. lia.
  - intros j w' Hj Hw'. apply launched_lookup in Hj as [-> _].
    simpl in Hw'. lia.
Qed.

Lemma attended_by_launched m n :
  (∀ k, is_Some (m !! k) → 0 <= k < Z.of_nat n) →
  attended_by m (launched (T:=T) 0 n).
Proof.
  intros Hm k Hk. apply Hm in Hk.
  exists (Z.to_nat k), (Build_worker k Entry 0). split_and!; [|done|done].
  unfold launched. rewrite list_lookup_fmap.
  rewrite (proj2 (lookup_seqZ 0 (Z.of_nat n) (Z.to_nat k) k)); [done|].
  lia.
Qed.

Lemma enrolled_in_returned m g ws :
  enrolled_in m g ws → m = ∅ → Forall (fun w => has_returned w = true) ws.
Proof.
  intros He -> . apply Forall_lookup. intros i w Hi.
  destruct (He i w Hi) as (_ & Hreg & _).
  destruct (has_returned w); [done|].
  destruct Hreg as [t Ht]; [done|]. by rewrite lookup_empty in Ht.
Qed.

Lemma attended_by_empty m ws :
  attended_by m ws → Forall (fun w => has_returned w = true) ws → m = ∅.
Proof.
  intros Ha Hall. apply map_empty. intros k.
  destruct (m !! k) as [t|] eqn:Hk; [|done].
  destruct (Ha k) as (i & w & Hi & _ & Hl); [by eexists|].
  rewrite Forall_lookup in Hall. specialize (Hall i w Hi). congruence.
Qed.

End Registry.

Lemma total_cur_no_idle {T} (ws : list (worker T)) :
  Forall (fun w => at_pc w ≠ ReturnedIdle) ws →
  total cur_share ws = Z.of_nat (length ws).
Proof.
  unfold total, cur_share.
  induction 1 as [|w ws Hw _ IH]; simpl; [done|].
  destruct (at_pc w); try done; lia.
Qed.


(** ** ThreadPool1.0: the transition system *)

Section Pool1_start.
Import Pool1.
Context {Dyn Fault : Type}.
Implicit Types (s : @Process Dyn Fault).

Lemma pool1_launch_threads_spec n i s s' :
  launch_threads n i s = inl s' →
  ∃ ws, length ws = n ∧ Forall (fun w => at_pc w = Entry) ws ∧
    s' = set_pool (set_counts (bump n (curThreadNum_ (pool s)))
                              (bump n (idleThreadNum_ (pool s))) (pool s))
           (set_threads (threads s ++ ws) s).
Proof.
  revert i s. induction n as [|n IH]; intros i s Hl; cbn [launch_threads] in Hl.
  - injection Hl as <-. exists []. split_and!; [done|done|].
    destruct s as [[] ? ? ? ? ? ? ? ?]; simpl. by rewrite app_nil_r.
  - destruct (threadMap_ (pool s) !! i) as [t|]; [|done].
    destruct (IH _ _ Hl) as (ws & Hlen & Hws & Heq).
    clear IH Hl. subst s'.
    exists (Build_worker (threadId_ t) Entry 0 :: ws).
    split_and!; [simpl; lia|by constructor|].
    rewrite !bump_succ_r.
    destruct s as [[] ? ? ? ? ? ? ? ?]; simpl.
    by rewrite <- app_assoc.
Qed.

Lemma pool1_start_spec s s' :
  start s = StartDone s' →
  ∃ g' m' ws,
    let n := Z.to_nat (initThreadSize_ (pool s)) in
    register_threads n (generateId_ s) (threadMap_ (pool s)) = Some (g', m')
    ∧ length ws = n
    ∧ Forall (fun w => at_pc w = Entry) ws
    ∧ s' = set_pool
             (set_counts (bump n (curThreadNum_ (pool s)))
                         (bump n (idleThreadNum_ (pool s)))
                (set_threadMap_ m' (set_running true (pool s))))
             (set_threads (threads s ++ ws) (set_generateId_ g' s)).
Proof.
  unfold start. simpl.
  destruct (register_threads _ _ _) as [[g' m']|] eqn:Hreg; [|done].
  destruct (launch_threads _ _ _) as [s1|] eqn:Hl; [|done].
  intros [= <-]. apply pool1_launch_threads_spec in Hl as (ws & Hlen & Hws & ->).
  exists g', m', ws. split_and!; try done.
Qed.

Lemma pool1_alive_true s :
  alive s = true → terminated s = None ∧ ∀ b, owner s ≠ Destroyed b.
Proof. unfold alive. by destruct (terminated s), (owner s). Qed.

End Pool1_start.

(** Case analysis of one transition. *)
Ltac pool1_step_cases H :=
  unfold Pool1.step in H;
  destruct (Pool1.alive _) eqn:Halive in H; [|done];
  apply pool1_alive_true in Halive as [Hterminated Halive];
  match type of H with
  | match ?ev with _ => _ end = _ =>
      destruct ev as [|sp|n now timed_out| | |]
  end;
  [ destruct (Pool1.owner _) eqn:Howner in H; try done;
    destruct (Pool1.start _) eqn:Hstart in H; try done;
    apply pool1_start_spec in Hstart as (g' & m' & ws & Hreg & Hlen & Hws & ->)
  | destruct (was_started (Pool1.owner _)) eqn:Howner in H; try done;
    unfold Pool1.submitTask, Pool1.construct_Result in H
  | unfold Pool1.threadFunc, Pool1.Task_exec, Pool1.loop_head, Pool1.retire,
      Pool1.Result_setVal in H
  | destruct (Pool1.owner _) eqn:Howner in H; try done;
    unfold Pool1.destructor_enter in H
  | destruct (Pool1.owner _) eqn:Howner in H; try done
  | ];
  repeat (simplify_option_eq || case_match);
  unfold goto in *.

(** What the threads hold after one of them has moved. *)
Ltac flight :=
  repeat match goal with
  | Hl : ?ws !! ?n = Some ?w |- context [in_flight (<[?n := ?w']> ?ws)] =>
      lazymatch goal with
      | _ : holds w ++ in_flight (<[n := w']> ws) ≡ₚ _ |- _ => fail
      | _ => pose proof (in_flight_insert ws n w w' Hl)
      end
  end;
  repeat match goal with
  | Hfl : holds ?w ++ _ ≡ₚ _, Hpc : at_pc ?w = _ |- _ =>
      progress (unfold holds, goto in Hfl; simpl in Hfl; rewrite ?Hpc in Hfl;
                simpl in Hfl)
  end.

Ltac perm_flight Hperm :=
  lazymatch goal with
  | Hfl : in_flight _ ≡ₚ _ |- _ => rewrite Hfl
  | Hfl : _ :: in_flight _ ≡ₚ in_flight _ |- _ => rewrite Hperm, <- Hfl
  | _ => idtac
  end;
  rewrite ?Hperm; solve_Permutation.

(** A task in hand has its [result_] set. *)
Ltac pool1_result_set :=
  exfalso;
  match goal with
  | Hn : Pool1.result_ ?a !! ?t = None,
    Hp : ∀ t, t ∈ _ → is_Some (Pool1.result_ ?a !! t),
    Hl : Pool1.threads ?a !! _ = Some ?w,
    Hpc : at_pc ?w = HasTask ?t |- _ =>
      destruct (Hp t) as [? ?];
      [apply elem_of_app; left; by eapply in_flight_elem | congruence]
  end.

(** Which thread a lookup after the move refers to. *)
Ltac thread_moved Hw Hw' :=
  first
  [ rewrite lookup_app_l in Hw' by (by eapply lookup_lt_Some)
  | match type of Hw' with
    | <[?m := _]> _ !! ?n = _ =>
        destruct (decide (m = n)) as [->|?];
        [ rewrite list_lookup_insert_eq in Hw' by (by eapply lookup_lt_Some)
        | rewrite list_lookup_insert_ne in Hw' by done ]
    end
  | idtac ];
  simplify_eq/=.

Section Pool1_facts.
Import Pool1.
Context {Dyn Fault : Type}.
Variable run : nat -> outcome Fault (option Dyn).
Implicit Types (s : @Process Dyn Fault) (p : ThreadPool).
Local Abbreviation step := (Pool1.step run).
Local Abbreviation steps := (Pool1.steps run).

Lemma pool1_step_config ev s s' :
  step ev s = Some s' → config (pool s') = config (pool s).
Proof.
  intros H. pool1_step_cases H; done.
Qed.

Lemma pool1_consistent_boot initThreadSize threadthreshhold taskthreshhold
    mode indeterminate g :
  in_int initThreadSize → 0 <= g <= INT_MAX →
  consistent
    (boot (Dyn:=Dyn) (Fault:=Fault)
       (ThreadPool_ctor initThreadSize threadthreshhold
          taskthreshhold mode indeterminate) g).
Proof.
  intros Hi Hg. split; simpl; try done.
  - by exists [].
  - intros t Ht. by apply elem_of_nil in Ht.
Qed.

Lemma pool1_step_fifo ev s s' :
  consistent s → step ev s = Some s' →
  ∃ taken, accepted s' = taken ++ taskQue_ (pool s')
           ∧ taken ≡ₚ completed s' ++ in_flight (threads s').
Proof.
  intros [] H. destruct fifo0 as (taken & Hacc & Hperm).
  pool1_step_cases H; simpl; flight; try pool1_result_set.
  all: rewrite ?in_flight_app, ?(in_flight_entry ws) by done; simpl.
  all: try match goal with Hq : taskQue_ _ = [] |- _ => rewrite Hq end.
  all: try (exists taken; split;
            [by rewrite ?Hacc, ?app_assoc | perm_flight Hperm]).
  all: match goal with
       | Hq : taskQue_ _ = ?t :: ?rest |- _ =>
           exists (taken ++ [t]); split;
           [by rewrite Hacc, <- app_assoc | perm_flight Hperm]
       end.
Qed.

Lemma pool1_step_posted_to ev s s' :
  consistent s → step ev s = Some s' →
  ∀ t, t ∈ in_flight (threads s') ++ taskQue_ (pool s') →
       is_Some (result_ s' !! t).
Proof.
  intros [] H. pool1_step_cases H; simpl; flight; try pool1_result_set.
  all: rewrite ?in_flight_app, ?(in_flight_entry ws) by done; simpl.
  all: rewrite ?(in_flight_entry [_]) by (by repeat constructor).
  all: try match goal with
       | Hq : taskQue_ _ = _ |- _ => rewrite ?Hq
       end.
  all: intros t0 Ht0.
  all: try match goal with
       | Hfl : in_flight _ ≡ₚ _ |- _ => rewrite Hfl in Ht0
       end.
  all: rewrite ?lookup_insert_is_Some.
  all: try (destruct (decide (sp = t0)); [by left | right; split; [done|]]).
  all: apply posted_to0.
  all: try match goal with
       | Hfl : _ :: in_flight _ ≡ₚ in_flight _ |- _ => rewrite <- Hfl
       end.
  all: rewrite ?elem_of_app, ?elem_of_cons, ?elem_of_nil in *.
  all: intuition congruence.
Qed.

Lemma pool1_step_result_alloc ev s s' :
  consistent s → step ev s = Some s' →
  ∀ t a, result_ s' !! t = Some a → (a < length (results s'))%nat.
Proof.
  intros [] H. pool1_step_cases H; simpl; try pool1_result_set.
  all: intros tx ax; rewrite ?lookup_insert_Some, ?length_app, ?length_insert.
  all: simpl; try (by apply result_alloc0).
  all: intros [[_ <-]|[_ Htx]]; [lia|].
  all: apply result_alloc0 in Htx; lia.
Qed.

Lemma pool1_step_taskNum_queue ev s s' :
  consistent s → step ev s = Some s' →
  taskNum_ (pool s') = wrap_int (Z.of_nat (length (taskQue_ (pool s')))).
Proof.
  intros [] H. pool1_step_cases H; simpl; try pool1_result_set.
  all: try match goal with
       | Hq : taskQue_ _ = _ |- _ => rewrite ?Hq
       end.
  all: try done.
  all: rewrite taskNum_queue0, ?wrap_int_wrap_add, ?wrap_int_wrap_sub,
         ?length_app; simpl.
  all: f_equal; lia.
Qed.

Lemma pool1_step_ids_used ev s s' :
  consistent s → step ev s = Some s' →
  Z.of_nat (length (threads s')) <= generateId_ s' <= INT_MAX.
Proof.
  intros [] H. pool1_step_cases H; simpl; try pool1_result_set.
  all: rewrite ?length_app, ?length_insert; simpl; try done.
  all: repeat match goal with
       | Hn : Thread_new _ = Some _ |- _ => apply Thread_new_Some in Hn
       | Hr : register_threads _ _ _ = Some _ |- _ =>
           apply register_threads_counter in Hr
       end.
  all: lia.
Qed.

Lemma pool1_step_counters ev s s' :
  consistent s → step ev s = Some s' →
  idleThreadNum_ (pool s') = total idle_share (threads s')
  ∧ curThreadNum_ (pool s') = total cur_share (threads s').
Proof.
  intros Hc H. pose proof (pool1_step_ids_used _ _ _ Hc H) as Hids.
  destruct Hc.
  pose proof (total_bounds idle_share (threads s') idle_share_bounds) as Hi.
  pose proof (total_bounds cur_share (threads s') cur_share_bounds) as Hn.
  pose proof (total_bounds cur_share (threads s) cur_share_bounds) as Hn0.
  pose proof (total_bounds idle_share (threads s) idle_share_bounds) as Hi0.
  pool1_step_cases H; simpl in *; try pool1_result_set; try done.
  all: rewrite ?length_app, ?length_insert in *; simpl in *.
  all: revert Hi Hn; count_shares; intros Hi Hn.
  all: rewrite ?idle_threads0, ?cur_threads0.
  all: rewrite ?bump_small, ?wrap_int_small;
         unfold in_int, INT_MIN, INT_MAX in *; lia.
Qed.

Lemma pool1_step_cur_floor ev s s' :
  consistent s → step ev s = Some s' →
  was_started (owner s') = true →
  initThreadSize_ (pool s') <= curThreadNum_ (pool s').
Proof.
  intros Hc H. pose proof (pool1_step_ids_used _ _ _ Hc H) as Hids.
  destruct (pool1_step_counters _ _ _ Hc H) as [_ Hcur]. revert Hcur.
  destruct Hc.
  pose proof (total_bounds cur_share (threads s') cur_share_bounds) as Hn.
  pose proof (total_bounds cur_share (threads s) cur_share_bounds) as Hn0.
  pool1_step_cases H; simpl in *; try pool1_result_set.
  all: rewrite ?length_app, ?length_insert in *; simpl in *.
  all: intros Hcur Ho.
  all: try (by apply cur_floor0).
  all: try (destruct (owner s); simplify_eq/=; by apply cur_floor0).
  - (* start *)
    rewrite Howner in before_start0.
    destruct before_start0 as (Hth & _); [done|]. rewrite Hth in *.
    rewrite cur_threads0. simpl in *.
    rewrite bump_small; unfold in_int, INT_MIN, INT_MAX in *; lia.
  - (* a submission adds a thread *)
    specialize (cur_floor0 Howner). rewrite Hcur. count_shares. lia.
  - (* a thread retires *)
    rewrite Hcur. count_shares. rewrite <- cur_threads0.
    unfold idle_too_long in *.
    repeat match goal with
    | Hb : _ && _ = true |- _ => apply andb_true_iff in Hb as [? ?]
    end. lia.
Qed.

Lemma pool1_step_before_start ev s s' :
  consistent s → step ev s = Some s' →
  was_started (owner s') = false →
  threads s' = [] ∧ taskQue_ (pool s') = [] ∧ accepted s' = [].
Proof.
  intros [] H. pool1_step_cases H; simpl in *; try pool1_result_set;
    try done.
  all: intros Ho.
  all: try (destruct (owner s); simplify_eq/=).
  all: try (destruct before_start0 as (Hth & ?); [done|]; rewrite Hth in *;
            done).
Qed.

Lemma pool1_step_running_threads ev s s' :
  consistent s → step ev s = Some s' →
  isPoolRunning_ (pool s') = true →
  Forall (fun w => at_pc w ≠ ReturnedShutdown) (threads s').
Proof.
  intros [] H. pool1_step_cases H; simpl in *; try pool1_result_set;
    try done.
  all: intros Hr; try congruence.
  all: try (assert (Forall (fun w => at_pc w ≠ ReturnedShutdown) (threads s))
              as Hall by (apply running_threads0; congruence)).
  all: try (apply Forall_insert; [done|by simpl]).
  all: try (apply Forall_app; split; [done|by repeat constructor]).
  all: try done.
  (* start *)
  rewrite Howner in before_start0.
  destruct before_start0 as (-> & _); [done|]. simpl.
  eapply Forall_impl; [done|]. by intros w ->.
Qed.

Lemma pool1_consistent_step ev s s' :
  consistent s → step ev s = Some s' → consistent s'.
Proof.
  intros Hc H.
  pose proof (pool1_step_config _ _ _ H) as Hcfg.
  destruct (pool1_step_counters _ _ _ Hc H).
  split; eauto using pool1_step_fifo, pool1_step_posted_to,
    pool1_step_result_alloc, pool1_step_taskNum_queue, pool1_step_ids_used,
    pool1_step_cur_floor, pool1_step_before_start,
    pool1_step_running_threads.
  unfold config in Hcfg. injection Hcfg as -> _ _ _. by destruct Hc.
Qed.

Lemma pool1_consistent_steps evs s s' :
  consistent s → steps evs s = Some s' → consistent s'.
Proof.
  revert s. induction evs as [|ev evs IH]; intros s Hc; simpl.
  - by intros [= <-].
  - destruct (step ev s) as [s1|] eqn:Hstep; [|done]. simpl.
    eauto using pool1_consistent_step.
Qed.

Lemma pool1_steps_config evs s s' :
  steps evs s = Some s' → config (pool s') = config (pool s).
Proof.
  revert s. induction evs as [|ev evs IH]; intros s; simpl.
  - by intros [= <-].
  - destruct (step ev s) as [s1|] eqn:Hstep; [|done]. simpl.
    intros Hs. rewrite (IH _ Hs). eauto using pool1_step_config.
Qed.


Lemma pool1_reachable_consistent initThreadSize threadthreshhold
    taskthreshhold mode indeterminate g s :
  in_int initThreadSize → 0 <= g <= INT_MAX →
  reachable run initThreadSize threadthreshhold taskthreshhold mode
    indeterminate g s →
  consistent s.
Proof.
  intros Hi Hg [evs Hs].
  eapply pool1_consistent_steps; [|done].
  by apply pool1_consistent_boot.
Qed.

Lemma pool1_step_valid_config ev s s' :
  step ev s = Some s' → valid_config (pool s) → valid_config (pool s').
Proof.
  intros H. apply pool1_step_config in H. unfold config in H.
  injection H as H1 H2 H3 H4. unfold valid_config. by rewrite H1, H2, H3.
Qed.

Lemma pool1_registry_step ev s s' :
  registry_ok s → step ev s = Some s' → registry_ok s'.
Proof.
  unfold registry_ok. intros Hok H.
  pool1_step_cases H; simpl in *.
  all: repeat match goal with
       | Hn : Thread_new _ = Some _ |- _ =>
           apply Thread_new_Some in Hn as (-> & -> & ?)
       end.
  all: unfold emplace in *; simpl in *.
  all: intros k th.
  all: try (by apply Hok).
  - (* start *)
    rewrite (register_threads_lookup _ _ _ _ _ k Hreg).
    apply register_threads_counter in Hreg as [-> _].
    destruct (threadMap_ (pool s) !! k) as [t|] eqn:Hk.
    + intros [= <-]. apply Hok in Hk. lia.
    + case_decide; [|done]. intros [= <-]. simpl. lia.
  - (* a submission adds a thread *)
    destruct (threadMap_ (pool s) !! generateId_ s) as [t|] eqn:Hg.
    + intros Hk. apply Hok in Hk. lia.
    + rewrite lookup_insert_Some. intros [[<- <-]|[_ Hk]]; simpl; [lia|].
      apply Hok in Hk. lia.
  - rewrite lookup_delete_Some. intros [_ Hk]. by apply Hok.
  - rewrite lookup_delete_Some. intros [_ Hk]. by apply Hok.
  - rewrite lookup_delete_Some. intros [_ Hk]. by apply Hok.
  - rewrite lookup_delete_Some. intros [_ Hk]. by apply Hok.
  - intros Hk. apply Hok in Hk. lia.
Qed.

Lemma pool1_registry_steps evs s s' :
  registry_ok s → steps evs s = Some s' → registry_ok s'.
Proof.
  revert s. induction evs as [|ev evs IH]; intros s Hc; simpl.
  - by intros [= <-].
  - destruct (step ev s) as [s1|] eqn:Hstep; [|done]. simpl.
    eauto using pool1_registry_step.
Qed.

Lemma pool1_bounded_step ev s s' :
  valid_config (pool s) → consistent s → bounded s →
  step ev s = Some s' → bounded s'.
Proof.
  intros (Hi & Ht & Hq & Hit & Hq0) Hc [Hcur Hque] H.
  pose proof (pool1_step_ids_used _ _ _ Hc H) as Hids.
  destruct (pool1_step_counters _ _ _ Hc H) as [_ Hcur']. revert Hcur'.
  pose proof (total_bounds cur_share (threads s') cur_share_bounds) as Hn.
  destruct Hc.
  pool1_step_cases H; simpl in *; try pool1_result_set.
  all: intros Hcur'; split; simpl.
  all: try match goal with
       | Hq : taskQue_ _ = _ |- _ => rewrite ?Hq
       end.
  all: rewrite ?length_app, ?length_insert in *; simpl in *.
  all: try done.
  all: unfold has_room, wants_thread, idle_too_long in *; simpl in *.
  all: repeat match goal with
       | Hb : _ && _ = true |- _ => apply andb_true_iff in Hb as [? ?]
       end.
  all: rewrite ?to_size_t_small in *
         by (unfold in_int, INT_MIN, INT_MAX in *; lia).
  all: try lia.
  - (* start *)
    rewrite Howner in before_start0.
    destruct before_start0 as (Hth & _); [done|]. rewrite Hth in *.
    rewrite cur_threads0. simpl in *.
    rewrite bump_small; unfold in_int, INT_MIN, INT_MAX in *; lia.
  - (* a submission adds a thread *)
    rewrite Hcur'. count_shares. lia.
  - (* a thread retires *)
    rewrite Hcur'. count_shares. rewrite <- cur_threads0. lia.
Qed.

Lemma pool1_bounded_steps evs s s' :
  valid_config (pool s) → consistent s → bounded s →
  steps evs s = Some s' → bounded s'.
Proof.
  revert s. induction evs as [|ev evs IH]; intros s Hv Hc Hb; simpl.
  - by intros [= <-].
  - destruct (step ev s) as [s1|] eqn:Hstep; [|done]. simpl.
    apply IH; eauto using pool1_step_valid_config, pool1_consistent_step,
      pool1_bounded_step.
Qed.

Lemma Exists_insert_inv {A} (P : A → Prop) (l : list A) i x :
  Exists P (<[i := x]> l) → P x ∨ Exists P l.
Proof.
  revert i. induction l as [|y l IH]; intros [|i]; simpl.
  - intros H. by right.
  - intros H. by right.
  - intros H. apply Exists_cons in H as [H|H]; [by left|].
    right. by apply Exists_cons_tl.
  - intros H. apply Exists_cons in H as [H|H].
    + right. by apply Exists_cons_hd.
    + apply IH in H as [H|H]; [by left|]. right. by apply Exists_cons_tl.
Qed.








(** A thread takes the shutdown return only with the queue empty and the
    running flag cleared, and then erases its registry entry. *)
Lemma pool1_returns_shutdown ev i s s' :
  step ev s = Some s' → returns_at i ReturnedShutdown s s' →
  taskQue_ (pool s) = [] ∧ isPoolRunning_ (pool s) = false
  ∧ ∃ w, threads s !! i = Some w
         ∧ threadMap_ (pool s') = delete (threadid w) (threadMap_ (pool s)).
Proof.
  intros H (w & w' & Hw & Hw' & Hne & Hpc).
  pool1_step_cases H; simpl in *; thread_moved Hw Hw'; try done.
  all: eauto.
Qed.

(** A thread takes the idle return only from a timed-out [wait_for] of a
    cached pool, with its idle time at the threshold and more threads than
    the initial number; it erases its entry and decrements both counters. *)
Lemma pool1_returns_idle ev i s s' :
  consistent s → step ev s = Some s' → returns_at i ReturnedIdle s s' →
  ∃ now w,
    ev = Worker i now true
    ∧ threads s !! i = Some w ∧ at_pc w = InWait
    ∧ poolMode_ (pool s) = MODE_CACHED
    ∧ THREAD_MAX_IDLE_TIME <= seconds_between (lastTime w) now
    ∧ initThreadSize_ (pool s) < curThreadNum_ (pool s)
    ∧ threadMap_ (pool s') = delete (threadid w) (threadMap_ (pool s))
    ∧ curThreadNum_ (pool s') = curThreadNum_ (pool s) - 1
    ∧ idleThreadNum_ (pool s') = idleThreadNum_ (pool s) - 1.
Proof.
  intros Hc H (w & w' & Hw & Hw' & Hne & Hpc).
  destruct (pool1_step_counters _ _ _ Hc H) as [Hidle Hcur].
  revert Hidle Hcur. destruct Hc.
  pool1_step_cases H; simpl in *; thread_moved Hw Hw'; try done.
  pose proof (total_bounds idle_share (threads s) idle_share_bounds) as Hi0.
  pose proof (total_bounds cur_share (threads s) cur_share_bounds) as Hn0.
  count_shares. intros Hidle Hcur.
  match goal with
  | Hb : _ && _ = true |- _ => apply andb_true_iff in Hb as [-> Hlong]
  end.
  unfold idle_too_long in Hlong. apply andb_true_iff in Hlong as [Hdur Hmore].
  match goal with
  | Hm : is_cached ?m = true |- _ => destruct m eqn:Hmode; [done|]
  end.
  eexists _, _. split_and!; try done; lia.
Qed.

(** The growth decision of a submission, in terms of the queue length
    after the task went in. *)
Lemma pool1_submit_growth task s s' :
  valid_config (pool s) → consistent s → bounded s → registry_ok s →
  ∀ ev, ev = Submit task → step ev s = Some s' →
  let grow :=
    poolMode_ (pool s) = MODE_CACHED ∧ has_room (pool s) = true
    ∧ idleThreadNum_ (pool s) < Z.of_nat (length (taskQue_ (pool s')))
    ∧ curThreadNum_ (pool s) < threadSizeThreshHold_ (pool s) in
  (grow → ∃ t, grown_by t s s') ∧ (¬ grow → same_size s s').
Proof.
  intros (Hi & Ht & Hq & Hit & Hq0) Hc [Hcur Hque] Hok ev Hev H.
  pose proof (pool1_step_ids_used _ _ _ Hc H) as Hids.
  destruct (pool1_step_counters _ _ _ Hc H) as [Hidle' Hcur'].
  revert Hidle' Hcur'.
  pose proof (total_bounds cur_share (threads s) cur_share_bounds) as Hn0.
  pose proof (total_bounds idle_share (threads s) idle_share_bounds) as Hi0.
  destruct Hc.
  pool1_step_cases H; try done; simplify_eq/=.
  all: unfold has_room, wants_thread, grown_by, same_size in *; simpl in *.
  all: rewrite ?length_app, ?length_insert in *; simpl in *.
  all: rewrite ?to_size_t_small in *
         by (unfold in_int, INT_MIN, INT_MAX in *; lia).
  all: rewrite ?taskNum_queue0, ?wrap_int_wrap_add in *.
  all: intros Hidle' Hcur'.
  - (* a thread is added *)
    apply Thread_new_Some in Heqo0 as (-> & -> & Hg). simpl in *.
    assert (threadMap_ (pool s) !! generateId_ s = None) as Hfresh.
    { destruct (threadMap_ (pool s) !! generateId_ s) eqn:Hk; [|done].
      apply Hok in Hk. lia. }
    unfold emplace in *. rewrite Hfresh in *.
    rewrite lookup_insert_eq in Heqo1. simplify_eq/=.
    split; [|intros Hno; destruct Hno].
    + intros _. exists {| threadId_ := generateId_ s |}. simpl.
      revert Hidle' Hcur'. count_shares. intros Hidle' Hcur'.
      split_and!; try done; lia.
    + repeat match goal with
      | Hb : _ && _ = true |- _ => apply andb_true_iff in Hb as [? ?]
      end.
      destruct (poolMode_ (pool s)); [done|].
      rewrite wrap_int_small in *
        by (unfold in_int, INT_MIN, INT_MAX in *; lia).
      split_and!; try done; lia.
  - (* accepted, no thread added *)
    split; [|done]. intros (Hm & _ & Hlen & Hlt). exfalso.
    rewrite Hm in *. simpl in *.
    rewrite wrap_int_small in *
      by (unfold in_int, INT_MIN, INT_MAX in *; lia).
    lia.
  - (* rejected *)
    split; [|done]. by intros (_ & ? & _).
Qed.

Lemma pool1_fixed_size_step ev s s' :
  consistent s → fixed_size s → step ev s = Some s' → fixed_size s'.
Proof.
  unfold fixed_size. intros [] Hf H.
  pool1_step_cases H; simpl in *; try pool1_result_set.
  all: rewrite ?length_app, ?length_insert; simpl.
  all: intros Hm; specialize (Hf Hm).
  all: try rewrite Howner in *; simpl in *; try done.
  all: try (destruct (owner s); simplify_eq/=; done).
  - (* start *) lia.
  - (* no growth in a fixed pool *)
    unfold wants_thread in *. simpl in *. rewrite Hm in *. done.
Qed.

Lemma pool1_in_order_step ev s s' :
  consistent s → in_order s → step ev s = Some s' → in_order s'.
Proof.
  unfold in_order. intros [] Ho H.
  pool1_step_cases H; simpl in *; try pool1_result_set.
  all: rewrite ?length_app, ?length_insert; simpl.
  all: intros Hone.
  all: try (rewrite Ho by lia).
  all: rewrite ?in_flight_app, ?(in_flight_entry ws) by done.
  all: rewrite ?(in_flight_entry [_]) by (by repeat constructor).
  all: rewrite ?app_nil_r, <- ?app_assoc; try done.
  all: destruct (threads s) as [|w0 [|w1 ws1]] eqn:Hth; simpl in *;
         try lia; try done.
  all: match goal with
       | Hl : [_] !! ?n = Some _ |- _ => destruct n; simplify_eq/=
       end.
  all: unfold in_flight, holds in *; simpl in *.
  all: repeat match goal with
       | Hpc : at_pc ?w = _ |- _ => rewrite !Hpc in *
       end; simpl in *.
  all: try done.
  all: match goal with
       | Hq : taskQue_ _ = [] |- _ => by rewrite Hq
       end.
Qed.

Lemma pool1_in_order_steps evs s s' :
  consistent s → in_order s → steps evs s = Some s' → in_order s'.
Proof.
  revert s. induction evs as [|ev evs IH]; intros s Hc Ho; simpl.
  - by intros [= <-].
  - destruct (step ev s) as [s1|] eqn:Hstep; [|done]. simpl.
    eauto using pool1_in_order_step, pool1_consistent_step.
Qed.

Lemma pool1_fixed_size_steps evs s s' :
  consistent s → fixed_size s → steps evs s = Some s' → fixed_size s'.
Proof.
  revert s. induction evs as [|ev evs IH]; intros s Hc Ho; simpl.
  - by intros [= <-].
  - destruct (step ev s) as [s1|] eqn:Hstep; [|done]. simpl.
    eauto using pool1_fixed_size_step, pool1_consistent_step.
Qed.

(** *** [start()] and the identity counter *)

Lemma launched_succ {T} i n :
  launched (T:=T) i (S n) = Build_worker i Entry 0 :: launched (i + 1) n.
Proof.
  unfold launched. rewrite seqZ_cons by lia. simpl.
  do 3 f_equal; lia.
Qed.

Lemma pool1_launch_threads_ok n i s :
  (∀ k, i <= k < i + Z.of_nat n →
        threadMap_ (pool s) !! k = Some {| threadId_ := k |}) →
  launch_threads n i s =
    inl (set_pool (set_counts (bump n (curThreadNum_ (pool s)))
                              (bump n (idleThreadNum_ (pool s))) (pool s))
           (set_threads (threads s ++ launched i n) s)).
Proof.
  revert i s. induction n as [|n IH]; intros i s Hreg.
  - simpl. unfold launched. simpl. rewrite app_nil_r.
    by destruct s as [[] ? ? ? ? ? ? ? ?].
  - cbn [launch_threads]. rewrite Hreg by lia.
    rewrite IH.
    + rewrite launched_succ, !bump_succ_r.
      destruct s as [[] ? ? ? ? ? ? ? ?]; simpl. by rewrite <- app_assoc.
    + intros k Hk. simpl. apply Hreg. lia.
Qed.

Lemma pool1_launch_threads_missing n i s :
  threadMap_ (pool s) !! i = None → (0 < n)%nat →
  launch_threads n i s = inr i.
Proof. intros Hi Hn. destruct n; [lia|]. simpl. by rewrite Hi. Qed.

Lemma register_threads_Some n g m :
  g + Z.of_nat n <= INT_MAX → is_Some (register_threads n g m).
Proof.
  revert g m. induction n as [|n IH]; intros g m Hg; simpl; [done|].
  unfold Thread_new. destruct (g <? INT_MAX) eqn:Hlt.
  - apply IH. lia.
  - apply Z.ltb_ge in Hlt. lia.
Qed.

(** On a pool whose registry is empty, [start()] goes through exactly when
    the identity counter is 0; with any other counter value its first
    lookup, [threadMap_[0]], finds nothing. *)
Lemma pool1_start_counter s :
  threadMap_ (pool s) = ∅ →
  0 < initThreadSize_ (pool s) →
  0 <= generateId_ s →
  generateId_ s + initThreadSize_ (pool s) <= INT_MAX →
  let n := Z.to_nat (initThreadSize_ (pool s)) in
  (generateId_ s = 0 →
   ∃ m',
     register_threads n 0 ∅ = Some (initThreadSize_ (pool s), m')
     ∧ (∀ k, m' !! k = if decide (0 <= k < initThreadSize_ (pool s))
                       then Some {| threadId_ := k |} else None)
     ∧ start s =
         StartDone
           (set_pool
              (set_counts (bump n (curThreadNum_ (pool s)))
                          (bump n (idleThreadNum_ (pool s)))
                 (set_threadMap_ m' (set_running true (pool s))))
              (set_threads (threads s ++ launched 0 n)
                 (set_generateId_ (initThreadSize_ (pool s)) s))))
  ∧ (generateId_ s ≠ 0 → start s = NullThreadHandle 0).
Proof.
  intros Hempty Hpos Hg Hmax n.
  destruct (register_threads_Some n (generateId_ s) ∅) as [[g' m'] Hreg];
    [lia|].
  pose proof (register_threads_counter _ _ _ _ _ Hreg) as [Hg' _].
  assert (∀ k, m' !! k = if decide (generateId_ s <= k < generateId_ s + Z.of_nat n)
                         then Some {| threadId_ := k |} else None) as Hm'.
  { intros k. rewrite (register_threads_lookup _ _ _ _ _ k Hreg).
    by rewrite lookup_empty. }
  split.
  - intros H0. rewrite H0 in *. exists m'.
    replace g' with (initThreadSize_ (pool s)) in * by lia.
    split_and!; [done| |].
    + intros k. rewrite Hm'. repeat case_decide; try done; lia.
    + unfold start. simpl. rewrite Hempty, H0. fold n. rewrite Hreg.
      rewrite pool1_launch_threads_ok; [done|].
      intros k Hk. simpl. rewrite Hm'. case_decide; [done|lia].
  - intros Hne. unfold start. simpl. rewrite Hempty. fold n. rewrite Hreg.
    rewrite pool1_launch_threads_missing; [done| |lia].
    simpl. rewrite Hm'. case_decide; [lia|done].
Qed.

(** *** Everything at once, for a pool built with valid arguments *)

Lemma pool1_steps_valid_config evs s s' :
  steps evs s = Some s' → valid_config (pool s) → valid_config (pool s').
Proof.
  intros H. apply pool1_steps_config in H. unfold config in H.
  injection H as H1 H2 H3 H4. unfold valid_config. by rewrite H1, H2, H3.
Qed.

Lemma pool1_reachable_facts initThreadSize threadthreshhold taskthreshhold
    mode indeterminate g evs s :
  let p := ThreadPool_ctor initThreadSize threadthreshhold taskthreshhold
             mode indeterminate in
  valid_config p → 0 <= g <= INT_MAX →
  steps evs (boot p g) = Some s →
  consistent s ∧ bounded s ∧ registry_ok s ∧ in_order s ∧ fixed_size s
  ∧ valid_config (pool s)
  ∧ config (pool s)
    = (initThreadSize, threadthreshhold, taskthreshhold, mode).
Proof.
  intros p Hv Hg Hs.
  assert (consistent (boot (Dyn:=Dyn) (Fault:=Fault) p g)) as Hc.
  { apply pool1_consistent_boot; [|done]. by destruct Hv. }
  destruct Hv as (Hi & Ht & Hq & Hit & Hq0). simpl in *.
  split_and!.
  - by eapply pool1_consistent_steps.
  - eapply pool1_bounded_steps; [| |split|done]; simpl; try done; try lia.
  - eapply pool1_registry_steps; [|done]. intros k t. simpl.
    by rewrite lookup_empty.
  - eapply pool1_in_order_steps; [| |done]; done.
  - eapply pool1_fixed_size_steps; [| |done]; done.
  - eapply pool1_steps_valid_config; done.
  - by rewrite (pool1_steps_config _ _ _ Hs).
Qed.

End Pool1_facts.

(** ** ThreaadPool2.0: the transition system *)

Section Pool2_start.
Import Pool2.
Context {RType Fault : Type}.
Implicit Types (s : @Process RType Fault).

Lemma pool2_launch_threads_spec n i s s' :
  launch_threads n i s = inl s' →
  ∃ ws, length ws = n ∧ Forall (fun w => at_pc w = Entry) ws ∧
    s' = set_pool (set_counts (currentThreadNum_ (pool s))
                              (bump n (idleThreadNum_ (pool s))) (pool s))
           (set_threads (threads s ++ ws) s).
Proof.
  revert i s. induction n as [|n IH]; intros i s Hl; cbn [launch_threads] in Hl.
  - injection Hl as <-. exists []. split_and!; [done|done|].
    destruct s as [[] ? ? ? ? ? ? ?]; simpl. by rewrite app_nil_r.
  - destruct (threadMap_ (pool s) !! i) as [t|]; [|done].
    destruct (IH _ _ Hl) as (ws & Hlen & Hws & Heq).
    clear IH Hl. subst s'.
    exists (Build_worker (threadId_ t) Entry 0 :: ws).
    split_and!; [simpl; lia|by constructor|].
    rewrite !bump_succ_r.
    destruct s as [[] ? ? ? ? ? ? ?]; simpl.
    by rewrite <- app_assoc.
Qed.

Lemma pool2_start_spec s s' :
  start s = StartDone s' →
  ∃ g' m' ws,
    let n := Z.to_nat (initThreadSize_ (pool s)) in
    register_threads n (generateId_ s) (threadMap_ (pool s)) = Some (g', m')
    ∧ length ws = n
    ∧ Forall (fun w => at_pc w = Entry) ws
    ∧ s' = set_pool
             (set_counts (initThreadSize_ (pool s))
                         (bump n (idleThreadNum_ (pool s)))
                (set_threadMap_ m' (set_running true (pool s))))
             (set_threads (threads s ++ ws) (set_generateId_ g' s)).
Proof.
  unfold start. simpl.
  destruct (register_threads _ _ _) as [[g' m']|] eqn:Hreg; [|done].
  destruct (launch_threads _ _ _) as [s1|] eqn:Hl; [|done].
  intros [= <-]. apply pool2_launch_threads_spec in Hl as (ws & Hlen & Hws & ->).
  exists g', m', ws. split_and!; try done.
Qed.

Lemma pool2_alive_true s :
  alive s = true → terminated s = None ∧ ∀ b, owner s ≠ Destroyed b.
Proof. unfold alive. by destruct (terminated s), (owner s). Qed.

End Pool2_start.

(** Case analysis of one transition. *)
Ltac pool2_step_cases H :=
  unfold Pool2.step in H;
  destruct (Pool2.alive _) eqn:Halive in H; [|done];
  apply pool2_alive_true in Halive as [Hterminated Halive];
  match type of H with
  | match ?ev with _ => _ end = _ =>
      destruct ev as [|bound|n now timed_out| | |]
  end;
  [ destruct (Pool2.owner _) eqn:Howner in H; try done;
    destruct (Pool2.start _) eqn:Hstart in H; try done;
    apply pool2_start_spec in Hstart as (g' & m' & ws & Hreg & Hlen & Hws & ->)
  | destruct (was_started (Pool2.owner _)) eqn:Howner in H; try done;
    unfold Pool2.submitTask, Pool2.make_shared, Pool2.packaged_task_call,
      Pool2.make_packaged_task in H
  | unfold Pool2.threadFunc, Pool2.Task_call, Pool2.loop_head, Pool2.retire,
      Pool2.packaged_task_call in H
  | destruct (Pool2.owner _) eqn:Howner in H; try done;
    unfold Pool2.destructor_enter in H
  | destruct (Pool2.owner _) eqn:Howner in H; try done
  | ];
  repeat (simplify_option_eq || case_match);
  unfold goto in *.

Section Pool2_facts.
Import Pool2.
Context {RType Fault : Type}.
Variable RType_default : RType.
Implicit Types (s : @Process RType Fault) (p : ThreadPool).
Local Abbreviation step := (Pool2.step RType_default).
Local Abbreviation steps := (Pool2.steps RType_default).

Lemma pool2_step_config ev s s' :
  step ev s = Some s' → config (pool s') = config (pool s).
Proof.
  intros H. pool2_step_cases H; done.
Qed.

Lemma pool2_consistent_boot poolmode initthreadsize maxthreadsize taskmaxsize g :
  in_int initthreadsize → in_int maxthreadsize → 0 <= g <= INT_MAX →
  consistent
    (boot (RType:=RType) (Fault:=Fault)
       (ThreadPool_ctor poolmode initthreadsize maxthreadsize taskmaxsize) g).
Proof.
  intros Hi Hm Hg. split; simpl; try done.
  - by exists [].
  - intros t Ht. by apply elem_of_nil in Ht.
  - constructor.
Qed.

Lemma pool2_step_fifo ev s s' :
  consistent s → step ev s = Some s' →
  ∃ taken, accepted s' = taken ++ taskQue_ (pool s')
           ∧ taken ≡ₚ completed s' ++ in_flight (threads s').
Proof.
  intros [] H. destruct fifo0 as (taken & Hacc & Hperm).
  pool2_step_cases H; simpl; flight.
  all: rewrite ?in_flight_app, ?(in_flight_entry ws) by done; simpl.
  all: try match goal with Hq : taskQue_ _ = [] |- _ => rewrite Hq end.
  all: try (exists taken; split;
            [by rewrite ?Hacc, ?app_assoc | perm_flight Hperm]).
  all: match goal with
       | Hq : taskQue_ _ = ?t :: ?rest |- _ =>
           exists (taken ++ [t]); split;
           [by rewrite Hacc, <- app_assoc | perm_flight Hperm]
       end.
Qed.

Lemma pool2_step_fresh ev s s' :
  consistent s → step ev s = Some s' →
  ∀ t, t ∈ in_flight (threads s') ++ taskQue_ (pool s') →
       ∃ pt, tasks s' !! t = Some pt ∧ shared_state pt = None.
Proof.
  intros [] H. pool2_step_cases H; simpl; flight.
  all: rewrite ?in_flight_app, ?(in_flight_entry ws) by done; simpl.
  all: rewrite ?(in_flight_entry [_]) by (by repeat constructor).
  all: try match goal with
       | Hq : taskQue_ _ = _ |- _ => rewrite ?Hq
       end.
  all: intros t0 Ht0.
  all: try match goal with
       | Hfl : in_flight _ ≡ₚ _ |- _ => rewrite Hfl in Ht0
       end.
  all: try (apply fresh0;
            rewrite ?elem_of_app, ?elem_of_cons, ?elem_of_nil in *;
            intuition congruence).
  - (* accepted, a thread is added *)
    rewrite app_assoc in Ht0. apply elem_of_app in Ht0 as [Ht0|Ht0].
    + destruct (fresh0 t0) as (pt & Hpt & Hnone).
      { rewrite ?elem_of_app, ?elem_of_nil in *. tauto. }
      exists pt. split; [|done]. by apply lookup_app_l_Some.
    + apply list_elem_of_singleton in Ht0 as ->.
      eexists. split; [by rewrite lookup_app_r, Nat.sub_diag by lia|done].
  - (* accepted *)
    rewrite app_assoc in Ht0. apply elem_of_app in Ht0 as [Ht0|Ht0].
    + destruct (fresh0 t0 Ht0) as (pt & Hpt & Hnone).
      exists pt. split; [|done]. by apply lookup_app_l_Some.
    + apply list_elem_of_singleton in Ht0 as ->.
      eexists. split; [by rewrite lookup_app_r, Nat.sub_diag by lia|done].
  - (* rejected *)
    destruct (fresh0 t0 Ht0) as (pt & Hpt & Hnone).
    exists pt. split; [|done].
    pose proof (lookup_lt_Some _ _ _ Hpt) as Hlt.
    rewrite list_lookup_insert_ne by (rewrite length_app; simpl; lia).
    rewrite <- app_assoc. by apply lookup_app_l_Some.
  - (* a task is called *)
    match goal with
    | Hfl : ?t :: in_flight _ ≡ₚ in_flight _ |- _ =>
        assert (t0 ≠ t) as Hne;
        [ rewrite <- Hfl in nodup0; simpl in nodup0;
          apply NoDup_cons in nodup0 as [Hnotin _]; congruence
        | destruct (fresh0 t0) as (pt & Hpt & Hnone);
          [ rewrite <- Hfl; rewrite ?elem_of_app, ?elem_of_cons in *; tauto
          | exists pt; split; [|done];
            by rewrite list_lookup_insert_ne by done ] ]
    end.
Qed.

Lemma pool2_step_nodup ev s s' :
  consistent s → step ev s = Some s' →
  NoDup (in_flight (threads s') ++ taskQue_ (pool s')).
Proof.
  intros [] H. pool2_step_cases H; simpl; flight.
  all: rewrite ?in_flight_app, ?(in_flight_entry ws) by done; simpl.
  all: rewrite ?(in_flight_entry [_]) by (by repeat constructor).
  all: rewrite ?app_nil_r.
  all: try match goal with
       | Hq : taskQue_ _ = _ |- _ => rewrite ?Hq
       end.
  all: try match goal with
       | Hfl : in_flight _ ≡ₚ _ |- _ => rewrite Hfl
       end.
  all: try done.
  all: try (rewrite app_assoc; apply NoDup_app; split_and!;
            [done| |apply NoDup_singleton];
            intros x Hx ->%list_elem_of_singleton;
            destruct (fresh0 _ Hx) as (pt & Hpt%lookup_lt_Some & _); lia).
  all: try (simpl; rewrite Permutation_middle; done).
  match goal with
  | Hfl : ?t :: in_flight _ ≡ₚ in_flight _ |- _ =>
      rewrite <- Hfl in nodup0; simpl in nodup0;
      by apply NoDup_cons in nodup0 as [_ ?]
  end.
Qed.

Lemma pool2_step_taskSize_queue ev s s' :
  consistent s → step ev s = Some s' →
  taskSize_ (pool s') = wrap_int (Z.of_nat (length (taskQue_ (pool s')))).
Proof.
  intros [] H. pool2_step_cases H; simpl.
  all: try match goal with
       | Hq : taskQue_ _ = _ |- _ => rewrite ?Hq
       end.
  all: try done.
  all: rewrite taskSize_queue0, ?wrap_int_wrap_add, ?wrap_int_wrap_sub,
         ?length_app; simpl.
  all: f_equal; lia.
Qed.

Lemma pool2_step_ids_used ev s s' :
  consistent s → step ev s = Some s' →
  Z.of_nat (length (threads s')) <= generateId_ s' <= INT_MAX.
Proof.
  intros [] H. pool2_step_cases H; simpl.
  all: rewrite ?length_app, ?length_insert; simpl; try done.
  all: repeat match goal with
       | Hn : Thread_new _ = Some _ |- _ => apply Thread_new_Some in Hn
       | Hr : register_threads _ _ _ = Some _ |- _ =>
           apply register_threads_counter in Hr
       end.
  all: lia.
Qed.

Lemma pool2_step_cur_int ev s s' :
  consistent s → step ev s = Some s' → in_int (currentThreadNum_ (pool s')).
Proof.
  intros [] H. pool2_step_cases H; simpl; try done.
  all: try apply wrap_int_in_int.
  by destruct int_fields0.
Qed.

Lemma pool2_step_counters ev s s' :
  consistent s → step ev s = Some s' →
  idleThreadNum_ (pool s') = total idle_share (threads s')
  ∧ (0 <= initThreadSize_ (pool s') →
     currentThreadNum_ (pool s') = total cur_share (threads s')).
Proof.
  intros Hc H. pose proof (pool2_step_ids_used _ _ _ Hc H) as Hids.
  destruct Hc.
  pose proof (total_bounds idle_share (threads s') idle_share_bounds) as Hi.
  pose proof (total_bounds cur_share (threads s') cur_share_bounds) as Hn.
  pose proof (total_bounds cur_share (threads s) cur_share_bounds) as Hn0.
  pose proof (total_bounds idle_share (threads s) idle_share_bounds) as Hi0.
  pool2_step_cases H; simpl in *; try done.
  all: rewrite ?length_app, ?length_insert in *; simpl in *.
  all: revert Hi Hn; count_shares; intros Hi Hn.
  all: rewrite ?idle_threads0.
  all: split; [|intros Hpos; try rewrite (cur_threads0 Hpos)].
  all: rewrite ?bump_small, ?wrap_int_small;
         unfold in_int, INT_MIN, INT_MAX in *; try lia.
  (* start *)
  rewrite Howner in before_start0.
  destruct before_start0 as (Hth & _); [done|]. rewrite Hth in *.
  rewrite total_nil. lia.
Qed.

Lemma pool2_step_cur_floor ev s s' :
  consistent s → step ev s = Some s' →
  was_started (owner s') = true →
  initThreadSize_ (pool s') <= currentThreadNum_ (pool s').
Proof.
  intros Hc H. destruct Hc. destruct int_fields0 as [Hi Hm].
  pool2_step_cases H; simpl in *.
  all: intros Ho.
  all: try (by apply cur_floor0).
  all: try (destruct (owner s); simplify_eq/=; by apply cur_floor0).
  all: unfold wants_thread, idle_too_long in *; simpl in *.
  all: repeat match goal with
       | Hb : _ && _ = true |- _ => apply andb_true_iff in Hb as [? ?]
       end.
  all: try specialize (cur_floor0 Howner).
  all: rewrite ?wrap_int_small; unfold in_int, INT_MIN, INT_MAX in *; lia.
Qed.

Lemma pool2_step_before_start ev s s' :
  consistent s → step ev s = Some s' →
  was_started (owner s') = false →
  threads s' = [] ∧ taskQue_ (pool s') = [] ∧ accepted s' = [].
Proof.
  intros [] H. pool2_step_cases H; simpl in *; try done.
  all: intros Ho.
  all: try (destruct (owner s); simplify_eq/=).
  all: try (destruct before_start0 as (Hth & ?); [done|]; rewrite Hth in *;
            done).
Qed.

Lemma pool2_step_running_threads ev s s' :
  consistent s → step ev s = Some s' →
  isRunning_ (pool s') = true →
  Forall (fun w => at_pc w ≠ ReturnedShutdown) (threads s').
Proof.
  intros [] H. pool2_step_cases H; simpl in *; try done.
  all: intros Hr; try congruence.
  all: try (assert (Forall (fun w => at_pc w ≠ ReturnedShutdown) (threads s))
              as Hall by (apply running_threads0; congruence)).
  all: try (apply Forall_insert; [done|by simpl]).
  all: try (apply Forall_app; split; [done|by repeat constructor]).
  all: try done.
  (* start *)
  rewrite Howner in before_start0.
  destruct before_start0 as (-> & _); [done|]. simpl.
  eapply Forall_impl; [done|]. by intros w ->.
Qed.

Lemma pool2_consistent_step ev s s' :
  consistent s → step ev s = Some s' → consistent s'.
Proof.
  intros Hc H.
  pose proof (pool2_step_config _ _ _ H) as Hcfg.
  destruct (pool2_step_counters _ _ _ Hc H).
  split; eauto using pool2_step_fifo, pool2_step_fresh, pool2_step_nodup,
    pool2_step_taskSize_queue, pool2_step_ids_used, pool2_step_cur_int,
    pool2_step_cur_floor, pool2_step_before_start,
    pool2_step_running_threads.
  unfold config in Hcfg. injection Hcfg as _ -> -> _. by destruct Hc.
Qed.

Lemma pool2_consistent_steps evs s s' :
  consistent s → steps evs s = Some s' → consistent s'.
Proof.
  revert s. induction evs as [|ev evs IH]; intros s Hc; simpl.
  - by intros [= <-].
  - destruct (step ev s) as [s1|] eqn:Hstep; [|done]. simpl.
    eauto using pool2_consistent_step.
Qed.

Lemma pool2_steps_config evs s s' :
  steps evs s = Some s' → config (pool s') = config (pool s).
Proof.
  revert s. induction evs as [|ev evs IH]; intros s; simpl.
  - by intros [= <-].
  - destruct (step ev s) as [s1|] eqn:Hstep; [|done]. simpl.
    intros Hs. rewrite (IH _ Hs). eauto using pool2_step_config.
Qed.

Lemma pool2_reachable_consistent poolmode initthreadsize maxthreadsize
    taskmaxsize g s :
  in_int initthreadsize → in_int maxthreadsize → 0 <= g <= INT_MAX →
  reachable RType_default poolmode initthreadsize maxthreadsize taskmaxsize
    g s →
  consistent s.
Proof.
  intros Hi Hm Hg [evs Hs].
  eapply pool2_consistent_steps; [|done].
  by apply pool2_consistent_boot.
Qed.

Lemma pool2_step_valid_config ev s s' :
  step ev s = Some s' → valid_config (pool s) → valid_config (pool s').
Proof.
  intros H. apply pool2_step_config in H. unfold config in H.
  injection H as H1 H2 H3 H4. unfold valid_config. by rewrite H2, H3, H4.
Qed.

Lemma pool2_registry_step ev s s' :
  registry_ok s → step ev s = Some s' → registry_ok s'.
Proof.
  unfold registry_ok. intros Hok H.
  pool2_step_cases H; simpl in *.
  all: repeat match goal with
       | Hn : Thread_new _ = Some _ |- _ =>
           apply Thread_new_Some in Hn as (-> & -> & ?)
       end.
  all: unfold emplace in *; simpl in *.
  all: intros k th.
  all: try (by apply Hok).
  - (* start *)
    rewrite (register_threads_lookup _ _ _ _ _ k Hreg).
    apply register_threads_counter in Hreg as [-> _].
    destruct (threadMap_ (pool s) !! k) as [t|] eqn:Hk.
    + intros [= <-]. apply Hok in Hk. lia.
    + case_decide; [|done]. intros [= <-]. simpl. lia.
  - (* a submission adds a thread *)
    destruct (threadMap_ (pool s) !! generateId_ s) as [t|] eqn:Hg.
    + intros Hk. apply Hok in Hk. lia.
    + rewrite lookup_insert_Some. intros [[<- <-]|[_ Hk]]; simpl; [lia|].
      apply Hok in Hk. lia.
  - rewrite lookup_delete_Some. intros [_ Hk]. by apply Hok.
  - rewrite lookup_delete_Some. intros [_ Hk]. by apply Hok.
  - rewrite lookup_delete_Some. intros [_ Hk]. by apply Hok.
  - rewrite lookup_delete_Some. intros [_ Hk]. by apply Hok.
  - intros Hk. apply Hok in Hk. lia.
Qed.

Lemma pool2_registry_steps evs s s' :
  registry_ok s → steps evs s = Some s' → registry_ok s'.
Proof.
  revert s. induction evs as [|ev evs IH]; intros s Hc; simpl.
  - by intros [= <-].
  - destruct (step ev s) as [s1|] eqn:Hstep; [|done]. simpl.
    eauto using pool2_registry_step.
Qed.

Lemma pool2_bounded_step ev s s' :
  valid_config (pool s) → consistent s → bounded s →
  step ev s = Some s' → bounded s'.
Proof.
  intros (Hi & Ht & Hq & Hit & Hq0) Hc [Hcur Hque] H.
  destruct Hc.
  pool2_step_cases H; simpl in *.
  all: split; simpl.
  all: try match goal with
       | Hq : taskQue_ _ = _ |- _ => rewrite ?Hq
       end.
  all: rewrite ?length_app, ?length_insert in *; simpl in *.
  all: try done.
  all: unfold has_room, wants_thread, idle_too_long in *; simpl in *.
  all: repeat match goal with
       | Hb : _ && _ = true |- _ => apply andb_true_iff in Hb as [? ?]
       end.
  all: rewrite ?(to_size_t_small (taskMaxSize_ _)) in *
         by (unfold in_int, INT_MIN, INT_MAX in *; lia).
  all: try lia.
  all: rewrite ?wrap_int_small; unfold in_int, INT_MIN, INT_MAX in *; lia.
Qed.

Lemma pool2_bounded_steps evs s s' :
  valid_config (pool s) → consistent s → bounded s →
  steps evs s = Some s' → bounded s'.
Proof.
  revert s. induction evs as [|ev evs IH]; intros s Hv Hc Hb; simpl.
  - by intros [= <-].
  - destruct (step ev s) as [s1|] eqn:Hstep; [|done]. simpl.
    apply IH; eauto using pool2_step_valid_config, pool2_consistent_step,
      pool2_bounded_step.
Qed.

Lemma pool2_drained_step k ev s s' :
  drained k s → step ev s = Some s' → drained k s'.
Proof.
  unfold drained. intros [Hk Hd] H.
  pool2_step_cases H; simpl in *.
  all: try match goal with
       | Hq : taskQue_ _ = _ |- _ => rewrite ?Hq in *
       end.
  all: rewrite ?length_app in *; simpl in *.
  all: split; [lia|].
  all: try done.
  all: intros Hex.
  all: try (apply Exists_insert_inv in Hex as [Hex|Hex]; simpl in Hex;
            [try done|]).
  all: try (apply Exists_app in Hex as [Hex|Hex]).
  all: try (specialize (Hd Hex)).
  all: try lia.
  all: exfalso; apply Exists_exists in Hex as (w & Hin & Hpc).
  - rewrite Forall_forall in Hws. apply Hws in Hin. congruence.
  - apply list_elem_of_singleton in Hin as ->. done.
Qed.

Lemma pool2_drained_steps k evs s s' :
  drained k s → steps evs s = Some s' → drained k s'.
Proof.
  revert s. induction evs as [|ev evs IH]; intros s Hd; simpl.
  - by intros [= <-].
  - destruct (step ev s) as [s1|] eqn:Hstep; [|done]. simpl.
    eauto using pool2_drained_step.
Qed.

Lemma pool2_step_accepted ev s s' :
  step ev s = Some s' → accepted s `prefix_of` accepted s'.
Proof.
  intros H. pool2_step_cases H; simpl; try done.
  all: by apply prefix_app_r.
Qed.

Lemma pool2_steps_accepted evs s s' :
  steps evs s = Some s' → accepted s `prefix_of` accepted s'.
Proof.
  revert s. induction evs as [|ev evs IH]; intros s; simpl.
  - by intros [= <-].
  - destruct (step ev s) as [s1|] eqn:Hstep; [|done]. simpl.
    intros Hs. etrans; [by eapply pool2_step_accepted|by apply IH].
Qed.

Lemma pool2_step_was_started ev s s' :
  step ev s = Some s' → was_started (owner s) = true →
  was_started (owner s') = true.
Proof.
  intros H. pool2_step_cases H; simpl; try done.
  all: rewrite ?Howner; simpl; try done.
  all: intros Ho; rewrite Howner in Ho; done.
Qed.

Lemma pool2_steps_was_started evs s s' :
  steps evs s = Some s' → was_started (owner s) = true →
  was_started (owner s') = true.
Proof.
  revert s. induction evs as [|ev evs IH]; intros s; simpl.
  - by intros [= <-].
  - destruct (step ev s) as [s1|] eqn:Hstep; [|done]. simpl.
    eauto using pool2_step_was_started.
Qed.

(** Every task accepted while the pool was running has completed by the
    time all threads have returned. *)
Lemma pool2_no_task_lost evs s s' :
  consistent s → valid_config (pool s) → isRunning_ (pool s) = true →
  steps evs s = Some s' →
  Forall (fun w => has_returned w = true) (threads s') →
  accepted s ⊆+ completed s'.
Proof.
  intros Hc Hv Hrun Hsteps Hret.
  destruct (accepted s) as [|t0 acc0] eqn:Hacc; [apply submseteq_nil_l|].
  rewrite <- Hacc.
  assert (was_started (owner s) = true) as Hst.
  { destruct (was_started (owner s)) eqn:Ho; [done|].
    destruct (before_start s Hc Ho) as (_ & _ & Hnil). congruence. }
  assert (drained (length (accepted s)) s) as Hd.
  { split; [done|]. intros Hex. exfalso.
    pose proof (running_threads s Hc Hrun) as Hall.
    apply Exists_exists in Hex as (w & Hin & Hpc).
    rewrite Forall_forall in Hall. by apply Hall in Hin. }
  pose proof (pool2_consistent_steps _ _ _ Hc Hsteps) as Hc'.
  pose proof (pool2_drained_steps _ _ _ _ Hd Hsteps) as [_ Hd'].
  pose proof (pool2_steps_accepted _ _ _ Hsteps) as Hpre.
  pose proof (pool2_steps_was_started _ _ _ Hsteps Hst) as Hst'.
  pose proof (pool2_steps_config _ _ _ Hsteps) as Hcfg.
  unfold config in Hcfg. injection Hcfg as _ Hi _ _.
  destruct Hv as (_ & _ & _ & [Hpos _] & _).
  pose proof (cur_floor s' Hc' Hst') as Hfloor.
  rewrite (cur_threads s' Hc' ltac:(lia)), Hi in Hfloor.
  specialize (Hd' (returned_shutdown_exists _ Hret ltac:(lia))).
  destruct (fifo s' Hc') as (taken & Htaken & Hperm).
  rewrite (in_flight_returned _ Hret), app_nil_r in Hperm.
  rewrite <- Hperm. apply (prefix_within _ _ (taskQue_ (pool s'))).
  - by rewrite <- Htaken.
  - rewrite Htaken, length_app in Hd'. lia.
Qed.

(** A thread takes the shutdown return only with the queue empty and the
    running flag cleared, and then erases its registry entry. *)
Lemma pool2_returns_shutdown ev i s s' :
  step ev s = Some s' → returns_at i ReturnedShutdown s s' →
  taskQue_ (pool s) = [] ∧ isRunning_ (pool s) = false
  ∧ ∃ w, threads s !! i = Some w
         ∧ threadMap_ (pool s') = delete (threadid w) (threadMap_ (pool s)).
Proof.
  intros H (w & w' & Hw & Hw' & Hne & Hpc).
  pool2_step_cases H; simpl in *; thread_moved Hw Hw'; try done.
  all: eauto.
Qed.

(** A thread takes the idle return only from a timed-out [wait_for] of a
    cached pool, with its idle time at the threshold and more threads than
    the initial number; it erases its entry and decrements both counters. *)
Lemma pool2_returns_idle ev i s s' :
  consistent s → step ev s = Some s' → returns_at i ReturnedIdle s s' →
  ∃ now w,
    ev = Worker i now true
    ∧ threads s !! i = Some w ∧ at_pc w = InWait
    ∧ poolmode_ (pool s) = MODE_CACHED
    ∧ THREAD_MAX_IDLE_TIME <= seconds_between (lastTime w) now
    ∧ initThreadSize_ (pool s) < currentThreadNum_ (pool s)
    ∧ threadMap_ (pool s') = delete (threadid w) (threadMap_ (pool s))
    ∧ currentThreadNum_ (pool s') = currentThreadNum_ (pool s) - 1
    ∧ idleThreadNum_ (pool s') = idleThreadNum_ (pool s) - 1.
Proof.
  intros Hc H (w & w' & Hw & Hw' & Hne & Hpc).
  destruct (pool2_step_counters _ _ _ Hc H) as [Hidle Hcur].
  revert Hidle Hcur. destruct Hc.
  pool2_step_cases H; simpl in *; thread_moved Hw Hw'; try done.
  pose proof (total_bounds idle_share (threads s) idle_share_bounds) as Hi0.
  pose proof (total_bounds cur_share (threads s) cur_share_bounds) as Hn0.
  count_shares. intros Hidle Hcur.
  match goal with
  | Hb : _ && _ = true |- _ => apply andb_true_iff in Hb as [-> Hlong]
  end.
  unfold idle_too_long in Hlong. apply andb_true_iff in Hlong as [Hdur Hmore].
  match goal with
  | Hm : is_cached ?m = true |- _ => destruct m eqn:Hmode; [done|]
  end.
  destruct int_fields0 as [Hi Hm].
  eexists _, _. split_and!; try done; try lia.
  rewrite wrap_int_small; unfold in_int, INT_MIN, INT_MAX in *; lia.
Qed.

(** The growth decision of a submission, in terms of the queue length
    after the task went in. *)
Lemma pool2_submit_growth task s s' :
  valid_config (pool s) → consistent s → bounded s → registry_ok s →
  ∀ ev, ev = Submit task → step ev s = Some s' →
  let grow :=
    poolmode_ (pool s) = MODE_CACHED ∧ has_room (pool s) = true
    ∧ idleThreadNum_ (pool s) < Z.of_nat (length (taskQue_ (pool s')))
    ∧ currentThreadNum_ (pool s) < maxThreadSize_ (pool s) in
  (grow → ∃ t, grown_by t s s') ∧ (¬ grow → same_size s s').
Proof.
  intros (Hi & Ht & Hq & Hit & Hq0) Hc [Hcur Hque] Hok ev Hev H.
  pose proof (pool2_step_ids_used _ _ _ Hc H) as Hids.
  destruct (pool2_step_counters _ _ _ Hc H) as [Hidle' _].
  revert Hidle'.
  pose proof (total_bounds idle_share (threads s) idle_share_bounds) as Hi0.
  pose proof (ids_used s Hc) as Hids0.
  destruct Hc.
  pool2_step_cases H; try done; simplify_eq/=.
  all: unfold has_room, wants_thread, grown_by, same_size in *; simpl in *.
  all: rewrite ?length_app, ?length_insert in *; simpl in *.
  all: rewrite ?to_size_t_small in *
         by (unfold in_int, INT_MIN, INT_MAX in *; lia).
  all: intros Hidle'.
  - (* a thread is added *)
    apply Thread_new_Some in Heqo0 as (-> & -> & Hg). simpl in *.
    assert (threadMap_ (pool s) !! generateId_ s = None) as Hfresh.
    { destruct (threadMap_ (pool s) !! generateId_ s) eqn:Hk; [|done].
      apply Hok in Hk. lia. }
    unfold emplace in *. rewrite Hfresh in *.
    rewrite lookup_insert_eq in Heqo1. simplify_eq/=.
    split; [|intros Hno; destruct Hno].
    + intros _. exists {| threadId_ := generateId_ s |}. simpl.
      revert Hidle'. count_shares. intros Hidle'.
      split_and!; try done; [|lia].
      repeat match goal with
      | Hb : _ && _ = true |- _ => apply andb_true_iff in Hb as [? ?]
      end.
      rewrite wrap_int_small; unfold in_int, INT_MIN, INT_MAX in *; lia.
    + repeat match goal with
      | Hb : _ && _ = true |- _ => apply andb_true_iff in Hb as [? ?]
      end.
      destruct (poolmode_ (pool s)); [done|].
      repeat match goal with
      | Hb : (_ <? _) = true |- _ => apply Z.ltb_lt in Hb
      end.
      split_and!; try done; lia.
  - (* accepted, no thread added *)
    split; [|done]. intros (Hm & _ & Hlen & Hlt). exfalso.
    rewrite Hm in *. simpl in *.
    match goal with
    | Hb : _ && _ = false |- _ =>
        apply andb_false_iff in Hb as [Hb|Hb]; apply Z.ltb_ge in Hb; lia
    end.
  - (* rejected *)
    split; [|done]. by intros (_ & ? & _).
Qed.

Lemma pool2_fixed_size_step ev s s' :
  consistent s → fixed_size s → step ev s = Some s' → fixed_size s'.
Proof.
  unfold fixed_size. intros [] Hf H.
  pool2_step_cases H; simpl in *.
  all: rewrite ?length_app, ?length_insert; simpl.
  all: intros Hm; specialize (Hf Hm).
  all: try rewrite Howner in *; simpl in *; try done.
  all: try (destruct (owner s); simplify_eq/=; done).
  - (* start *) lia.
  - (* no growth in a fixed pool *)
    unfold wants_thread in *. simpl in *. rewrite Hm in *. done.
Qed.

Lemma pool2_in_order_step ev s s' :
  consistent s → in_order s → step ev s = Some s' → in_order s'.
Proof.
  unfold in_order. intros [] Ho H.
  pool2_step_cases H; simpl in *.
  all: rewrite ?length_app, ?length_insert; simpl.
  all: intros Hone.
  all: try (rewrite Ho by lia).
  all: rewrite ?in_flight_app, ?(in_flight_entry ws) by done.
  all: rewrite ?(in_flight_entry [_]) by (by repeat constructor).
  all: rewrite ?app_nil_r, <- ?app_assoc; try done.
  all: destruct (threads s) as [|w0 [|w1 ws1]] eqn:Hth; simpl in *;
         try lia; try done.
  all: match goal with
       | Hl : [_] !! ?n = Some _ |- _ => destruct n; simplify_eq/=
       end.
  all: unfold in_flight, holds in *; simpl in *.
  all: repeat match goal with
       | Hpc : at_pc ?w = _ |- _ => rewrite !Hpc in *
       end; simpl in *.
  all: try done.
  all: match goal with
       | Hq : taskQue_ _ = [] |- _ => by rewrite Hq
       end.
Qed.

Lemma pool2_in_order_steps evs s s' :
  consistent s → in_order s → steps evs s = Some s' → in_order s'.
Proof.
  revert s. induction evs as [|ev evs IH]; intros s Hc Ho; simpl.
  - by intros [= <-].
  - destruct (step ev s) as [s1|] eqn:Hstep; [|done]. simpl.
    eauto using pool2_in_order_step, pool2_consistent_step.
Qed.

Lemma pool2_fixed_size_steps evs s s' :
  consistent s → fixed_size s → steps evs s = Some s' → fixed_size s'.
Proof.
  revert s. induction evs as [|ev evs IH]; intros s Hc Ho; simpl.
  - by intros [= <-].
  - destruct (step ev s) as [s1|] eqn:Hstep; [|done]. simpl.
    eauto using pool2_fixed_size_step, pool2_consistent_step.
Qed.

Lemma pool2_results_kept_step ev s s' :
  results_kept s → step ev s = Some s' → results_kept s'.
Proof.
  unfold results_kept. intros Hk H.
  pool2_step_cases H; simpl in *; try done.
  all: intros tx ptx ox Htx Hox.
  all: repeat match goal with
       | Hl : <[?i := _]> _ !! ?j = Some _ |- _ =>
           apply list_lookup_insert_Some in Hl as [(? & ? & ?)|[? Hl]];
           simplify_eq/=
       | Hl : (_ ++ [_]) !! _ = Some _ |- _ =>
           apply lookup_app_Some in Hl as [Hl|[? Hl]];
           [|apply list_lookup_singleton_Some in Hl as [? <-]; simplify_eq/=]
       end.
  all: try done.
  all: try (by eapply Hk).
  all: exfalso;
    repeat match goal with
    | Hl : _ !! _ = Some _ |- _ => apply lookup_lt_Some in Hl
    end;
    rewrite ?length_app in *; simpl in *; lia.
Qed.

Lemma pool2_results_kept_steps evs s s' :
  results_kept s → steps evs s = Some s' → results_kept s'.
Proof.
  revert s. induction evs as [|ev evs IH]; intros s Hk; simpl.
  - by intros [= <-].
  - destruct (step ev s) as [s1|] eqn:Hstep; [|done]. simpl.
    eauto using pool2_results_kept_step.
Qed.

(** A thread that holds a task whose callable throws stores the exception
    in the shared state and goes on. *)
Lemma pool2_fault_contained i now timed_out s w task pt e :
  consistent s → alive s = true →
  threads s !! i = Some w → at_pc w = HasTask task →
  tasks s !! task = Some pt → callable pt tt = Raise e →
  ∃ s' pt',
    step (Worker i now timed_out) s = Some s'
    ∧ terminated s' = None
    ∧ threads s' !! i = Some (goto Ran w)
    ∧ tasks s' !! task = Some pt'
    ∧ future_get pt' = Returns (Raise e).
Proof.
  intros Hc Halive Hw Hpc Hpt He.
  destruct (fresh s Hc task) as (pt0 & Hpt0 & Hnone).
  { apply elem_of_app. left. by eapply in_flight_elem. }
  simplify_eq.
  pose proof (pool2_alive_true _ Halive) as [Hterm _].
  unfold Pool2.step, threadFunc, Task_call, packaged_task_call.
  rewrite Halive, Hw. simpl. rewrite Hpc, Hpt. simpl. rewrite Hnone.
  eexists _, _. split; [done|]. simpl. split_and!.
  - done.
  - apply list_lookup_insert_eq. by eapply lookup_lt_Some.
  - apply list_lookup_insert_eq. by eapply lookup_lt_Some.
  - unfold future_get. simpl. by rewrite He.
Qed.

(** The same for a callable that returns: the value is what the future
    reads. *)
Lemma pool2_value_delivered i now timed_out s w task pt :
  consistent s → alive s = true →
  threads s !! i = Some w → at_pc w = HasTask task →
  tasks s !! task = Some pt →
  ∃ s' pt',
    step (Worker i now timed_out) s = Some s'
    ∧ terminated s' = None
    ∧ completed s' = completed s ++ [task]
    ∧ tasks s' !! task = Some pt'
    ∧ future_get pt' = Returns (callable pt tt).
Proof.
  intros Hc Halive Hw Hpc Hpt.
  destruct (fresh s Hc task) as (pt0 & Hpt0 & Hnone).
  { apply elem_of_app. left. by eapply in_flight_elem. }
  simplify_eq.
  pose proof (pool2_alive_true _ Halive) as [Hterm _].
  unfold Pool2.step, threadFunc, Task_call, packaged_task_call.
  rewrite Halive, Hw. simpl. rewrite Hpc, Hpt. simpl. rewrite Hnone.
  eexists _, _. split; [done|]. simpl. split_and!.
  - done.
  - done.
  - apply list_lookup_insert_eq. by eapply lookup_lt_Some.
  - done.
Qed.

(** *** [start()] and the identity counter *)

Lemma pool2_launch_threads_ok n i s :
  (∀ k, i <= k < i + Z.of_nat n →
        threadMap_ (pool s) !! k = Some {| threadId_ := k |}) →
  launch_threads n i s =
    inl (set_pool (set_counts (currentThreadNum_ (pool s))
                              (bump n (idleThreadNum_ (pool s))) (pool s))
           (set_threads (threads s ++ launched i n) s)).
Proof.
  revert i s. induction n as [|n IH]; intros i s Hreg.
  - simpl. unfold launched. simpl. rewrite app_nil_r.
    by destruct s as [[] ? ? ? ? ? ? ?].
  - cbn [launch_threads]. rewrite Hreg by lia.
    rewrite IH.
    + rewrite launched_succ, !bump_succ_r.
      destruct s as [[] ? ? ? ? ? ? ?]; simpl. by rewrite <- app_assoc.
    + intros k Hk. simpl. apply Hreg. lia.
Qed.

Lemma pool2_launch_threads_missing n i s :
  threadMap_ (pool s) !! i = None → (0 < n)%nat →
  launch_threads n i s = inr i.
Proof. intros Hi Hn. destruct n; [lia|]. simpl. by rewrite Hi. Qed.

(** On a pool whose registry is empty, [start()] goes through exactly when
    the identity counter is 0; with any other counter value its first
    lookup, [threadMap_[0]], finds nothing. *)
Lemma pool2_start_counter s :
  threadMap_ (pool s) = ∅ →
  0 < initThreadSize_ (pool s) →
  0 <= generateId_ s →
  generateId_ s + initThreadSize_ (pool s) <= INT_MAX →
  let n := Z.to_nat (initThreadSize_ (pool s)) in
  (generateId_ s = 0 →
   ∃ m',
     register_threads n 0 ∅ = Some (initThreadSize_ (pool s), m')
     ∧ (∀ k, m' !! k = if decide (0 <= k < initThreadSize_ (pool s))
                       then Some {| threadId_ := k |} else None)
     ∧ start s =
         StartDone
           (set_pool
              (set_counts (initThreadSize_ (pool s))
                          (bump n (idleThreadNum_ (pool s)))
                 (set_threadMap_ m' (set_running true (pool s))))
              (set_threads (threads s ++ launched 0 n)
                 (set_generateId_ (initThreadSize_ (pool s)) s))))
  ∧ (generateId_ s ≠ 0 → start s = NullThreadHandle 0).
Proof.
  intros Hempty Hpos Hg Hmax n.
  destruct (register_threads_Some n (generateId_ s) ∅) as [[g' m'] Hreg];
    [lia|].
  pose proof (register_threads_counter _ _ _ _ _ Hreg) as [Hg' _].
  assert (∀ k, m' !! k = if decide (generateId_ s <= k < generateId_ s + Z.of_nat n)
                         then Some {| threadId_ := k |} else None) as Hm'.
  { intros k. rewrite (register_threads_lookup _ _ _ _ _ k Hreg).
    by rewrite lookup_empty. }
  split.
  - intros H0. rewrite H0 in *. exists m'.
    replace g' with (initThreadSize_ (pool s)) in * by lia.
    split_and!; [done| |].
    + intros k. rewrite Hm'. repeat case_decide; try done; lia.
    + unfold start. simpl. rewrite Hempty, H0. fold n. rewrite Hreg.
      rewrite pool2_launch_threads_ok; [done|].
      intros k Hk. simpl. rewrite Hm'. case_decide; [done|lia].
  - intros Hne. unfold start. simpl. rewrite Hempty. fold n. rewrite Hreg.
    rewrite pool2_launch_threads_missing; [done| |lia].
    simpl. rewrite Hm'. case_decide; [lia|done].
Qed.

(** *** Everything at once, for a pool built with valid arguments *)

Lemma pool2_steps_valid_config evs s s' :
  steps evs s = Some s' → valid_config (pool s) → valid_config (pool s').
Proof.
  intros H. apply pool2_steps_config in H. unfold config in H.
  injection H as H1 H2 H3 H4. unfold valid_config. by rewrite H2, H3, H4.
Qed.

Lemma pool2_reachable_facts poolmode initthreadsize maxthreadsize taskmaxsize
    g evs s :
  let p := ThreadPool_ctor poolmode initthreadsize maxthreadsize taskmaxsize in
  valid_config p → 0 <= g <= INT_MAX →
  steps evs (boot p g) = Some s →
  consistent s ∧ bounded s ∧ registry_ok s ∧ in_order s ∧ fixed_size s
  ∧ results_kept s ∧ valid_config (pool s)
  ∧ config (pool s) = (poolmode, initthreadsize, maxthreadsize, taskmaxsize).
Proof.
  intros p Hv Hg Hs.
  assert (consistent (boot (RType:=RType) (Fault:=Fault) p g)) as Hc.
  { apply pool2_consistent_boot; [| |done]; by destruct Hv as (? & ? & _). }
  destruct Hv as (Hi & Ht & Hq & Hit & Hq0). simpl in *.
  split_and!.
  - by eapply pool2_consistent_steps.
  - eapply pool2_bounded_steps; [| |split|done]; simpl; try done; try lia.
  - eapply pool2_registry_steps; [|done]. intros k t. simpl.
    by rewrite lookup_empty.
  - eapply pool2_in_order_steps; [| |done]; done.
  - eapply pool2_fixed_size_steps; [| |done]; done.
  - eapply pool2_results_kept_steps; [|done]. by intros t pt o.
  - eapply pool2_steps_valid_config; done.
  - by rewrite (pool2_steps_config _ _ _ Hs).
Qed.

End Pool2_facts.

(** ** ThreadPool1.0: registry, shutdown, results *)

Lemma event_is_start {A} (ev : event A) : ev = Start ∨ ev ≠ Start.
Proof. destruct ev; (by left) || (by right). Qed.

Section Pool1_extra.
Import Pool1.
Context {Dyn Fault : Type}.
Variable run : nat -> outcome Fault (option Dyn).
Implicit Types (s : @Process Dyn Fault) (p : ThreadPool).
Local Abbreviation step := (Pool1.step run).
Local Abbreviation steps := (Pool1.steps run).

Lemma pool1_launch_threads_ids n i s s' :
  launch_threads n i s = inl s' →
  (∀ k t, threadMap_ (pool s) !! k = Some t → threadId_ t = k) →
  threads s' = threads s ++ launched i n
  ∧ ∀ k, i <= k < i + Z.of_nat n → is_Some (threadMap_ (pool s) !! k).
Proof.
  revert i s. induction n as [|n IH]; intros i s Hl Hid;
    cbn [launch_threads] in Hl.
  - injection Hl as <-. unfold launched. simpl. rewrite app_nil_r.
    split; [done|]. intros k Hk. lia.
  - destruct (threadMap_ (pool s) !! i) as [t|] eqn:Hi; [|done].
    apply IH in Hl as [Hth Hreg]; [|done]. simpl in *.
    rewrite Hth, launched_succ, <- app_assoc. simpl.
    rewrite (Hid i t Hi). split; [done|].
    intros k Hk. destruct (decide (k = i)) as [->|Hne]; [by eexists|].
    apply Hreg. lia.
Qed.

Lemma pool1_start_threads s s' :
  start s = StartDone s' → registry_ok s →
  let n := Z.to_nat (initThreadSize_ (pool s)) in
  ∃ m',
    register_threads n (generateId_ s) (threadMap_ (pool s))
    = Some (generateId_ s', m')
    ∧ threadMap_ (pool s') = m'
    ∧ threads s' = threads s ++ launched 0 n
    ∧ owner s' = owner s
    ∧ ∀ k, 0 <= k < Z.of_nat n → is_Some (m' !! k).
Proof.
  intros Hst Hok n. pose proof Hst as Hspec.
  apply pool1_start_spec in Hspec as (g' & m' & ws & Hreg & _ & _ & ->).
  unfold start in Hst. simpl in Hst. fold n in Hst, Hreg. rewrite Hreg in Hst.
  destruct (launch_threads _ _ _) as [s1|] eqn:Hl; [|done].
  apply pool1_launch_threads_ids in Hl as [Hth Hkeys]; simpl in *.
  - injection Hst as Hst. rewrite Hst in Hth. simpl in Hth.
    exists m'. split_and!; try done.
  - intros k t. rewrite (register_threads_lookup _ _ _ _ _ k Hreg).
    destruct (threadMap_ (pool s) !! k) as [t0|] eqn:Hk.
    + intros [= <-]. by apply Hok in Hk as [? _].
    + case_decide; [|done]. by intros [= <-].
Qed.

Lemma pool1_enrolled_step ev s s' :
  consistent s → registry_ok s → enrolled s → step ev s = Some s' →
  enrolled s'.
Proof.
  unfold enrolled. intros Hc Hok He H.
  destruct (event_is_start ev) as [->|Hns].
  - unfold Pool1.step in H. destruct (alive s); [|done].
    destruct (owner s) eqn:Ho; try done.
    destruct (start s) as [s1| |] eqn:Hst; try done. injection H as <-.
    destruct (pool1_start_threads _ _ Hst Hok) as (m' & Hreg & Hm & Hth & _ & Hkeys).
    simpl. rewrite Hm, Hth.
    destruct (before_start s Hc) as (-> & _); [by rewrite Ho|]. simpl.
    apply enrolled_in_launched; [done|].
    apply register_threads_counter in Hreg as [-> _].
    pose proof (ids_used s Hc). lia.
  - pool1_step_cases H; simpl in *; try done.
    all: repeat match goal with
         | Hn : Thread_new _ = Some _ |- _ =>
             apply Thread_new_Some in Hn as (-> & -> & ?)
         end.
    all: unfold emplace in *; simpl in *.
    all: try (eapply enrolled_in_insert; [| | | |exact He];
              [ done | done
              | unfold has_returned; simpl;
                first [ done
                      | intros _; split; [|done];
                        match goal with
                        | Hpc : at_pc _ = _ |- _ => by rewrite Hpc
                        end ]
              | intros k Hk; try done; apply lookup_delete_ne; congruence ]).
    + destruct (threadMap_ (pool s) !! generateId_ s) as [t|] eqn:Hg.
      { apply Hok in Hg. lia. }
      rewrite lookup_insert_eq in *. simplify_eq/=.
      by apply enrolled_in_grow.
    + eapply enrolled_in_mono; [|done]. lia.
Qed.

Lemma pool1_attended_step ev s s' :
  consistent s → registry_ok s → attended s → step ev s = Some s' →
  attended s'.
Proof.
  unfold attended. intros Hc Hok Ha H.
  destruct (event_is_start ev) as [->|Hns].
  - unfold Pool1.step in H. destruct (alive s); [|done].
    destruct (owner s) eqn:Ho; try done.
    destruct (start s) as [s1| |] eqn:Hst; try done. injection H as <-.
    destruct (pool1_start_threads _ _ Hst Hok) as (m' & Hreg & Hm & Hth & _ & Hkeys).
    simpl. rewrite Hm, Hth.
    destruct (before_start s Hc) as (Hnil & _); [by rewrite Ho|].
    rewrite Hnil in *. simpl.
    assert (∀ k, threadMap_ (pool s) !! k = None) as Hempty.
    { intros k. destruct (threadMap_ (pool s) !! k) eqn:Hk; [|done].
      destruct (Ha k) as (i & w & Hi & _); [by eexists|]. done. }
    pose proof (ids_used s Hc) as Hids. rewrite Hnil in Hids. simpl in Hids.
    apply attended_by_launched. intros k Hk.
    rewrite (register_threads_lookup _ _ _ _ _ k Hreg), Hempty in Hk.
    case_decide as Hin; [|by destruct Hk].
    destruct (Hkeys 0) as [t0 Ht0]; [lia|].
    rewrite (register_threads_lookup _ _ _ _ _ 0 Hreg), Hempty in Ht0.
    case_decide; [lia|done].
  - pool1_step_cases H; simpl in *; try done.
    all: repeat match goal with
         | Hn : Thread_new _ = Some _ |- _ =>
             apply Thread_new_Some in Hn as (-> & -> & ?)
         end.
    all: unfold emplace in *; simpl in *.
    all: try (eapply attended_by_insert; [| | | |exact Ha];
              [ done | done
              | unfold has_returned; simpl;
                first [ done | intros _; by rewrite lookup_delete_eq ]
              | intros k; rewrite ?lookup_delete_is_Some; tauto ]).
    + destruct (threadMap_ (pool s) !! generateId_ s) as [t|] eqn:Hg.
      { apply Hok in Hg. lia. }
      rewrite lookup_insert_eq in *. simplify_eq/=.
      by apply attended_by_grow.
Qed.

Lemma pool1_destroyed_step ev s s' :
  step ev s = Some s' → destroyed_on_predicate s'.
Proof.
  unfold destroyed_on_predicate. intros H.
  pool1_step_cases H; simpl in *; try done.
  all: intros bx Hbx; try (by destruct (Halive bx)); try congruence.
  all: try (destruct (owner s); simplify_eq/=; done).
Qed.

Lemma pool1_enrolled_steps evs s s' :
  consistent s → registry_ok s → enrolled s ∧ attended s
  ∧ destroyed_on_predicate s →
  steps evs s = Some s' →
  enrolled s' ∧ attended s' ∧ destroyed_on_predicate s'.
Proof.
  revert s. induction evs as [|ev evs IH]; intros s Hc Hok (He & Ha & Hd); simpl.
  - by intros [= <-].
  - destruct (step ev s) as [s1|] eqn:Hstep; [|done]. simpl.
    apply IH; eauto using pool1_consistent_step, pool1_registry_step.
    split_and!; eauto using pool1_enrolled_step, pool1_attended_step,
      pool1_destroyed_step.
Qed.


(** *** A fixed pool keeps its threads *)

Lemma pool1_fixed_threads_step ev s s' :
  poolMode_ (pool s) = MODE_FIXED →
  Forall (fun w => at_pc w ≠ ReturnedIdle) (threads s) →
  step ev s = Some s' →
  Forall (fun w => at_pc w ≠ ReturnedIdle) (threads s').
Proof.
  intros Hm Hall H.
  pool1_step_cases H; simpl in *; try done.
  all: try rewrite Hm in *; simpl in *; try done.
  all: try (apply Forall_insert; [done|]; simpl; try done).
  all: try (apply Forall_app; split; [done|]).
  all: try (eapply Forall_impl; [exact Hws|]; simpl; intros ? ->; done).
  all: try (by repeat constructor).
Qed.

Lemma pool1_fixed_threads_steps evs s s' :
  poolMode_ (pool s) = MODE_FIXED →
  Forall (fun w => at_pc w ≠ ReturnedIdle) (threads s) →
  steps evs s = Some s' →
  Forall (fun w => at_pc w ≠ ReturnedIdle) (threads s').
Proof.
  revert s. induction evs as [|ev evs IH]; intros s Hm Hall; simpl.
  - by intros [= <-].
  - destruct (step ev s) as [s1|] eqn:Hstep; [|done]. simpl.
    apply IH; [|by eapply pool1_fixed_threads_step].
    pose proof (pool1_step_config run _ _ _ Hstep) as Hcfg.
    unfold config in Hcfg. injection Hcfg as _ _ _ ->. done.
Qed.

(** *** Results *)

Lemma pool1_result_back_step ev s s' :
  consistent s → result_back s → step ev s = Some s' → result_back s'.
Proof.
  unfold result_back. intros Hc Hb H.
  pool1_step_cases H; simpl in *; try done.
  all: intros tx ax Hx.
  all: try (apply lookup_insert_Some in Hx as [[<- <-]|[? Hx]];
            [ eexists; split;
              [by rewrite lookup_app_r, Nat.sub_diag by lia|done]
            | destruct (Hb _ _ Hx) as (rx & Hrx & Htx); exists rx;
              split; [by apply lookup_app_l_Some|done] ]).
  all: destruct (Hb _ _ Hx) as (rx & Hrx & Htx).
  all: match goal with
       | |- context [<[?a := ?r']> _ !! ?x] =>
           destruct (decide (a = x)) as [->|Hne];
           [ exists r';
             rewrite list_lookup_insert_eq by (by eapply lookup_lt_Some);
             split; [done|]; simpl; congruence
           | exists rx; by rewrite list_lookup_insert_ne by done ]
       end.
Qed.

Lemma pool1_result_back_steps evs s s' :
  consistent s → result_back s → steps evs s = Some s' → result_back s'.
Proof.
  revert s. induction evs as [|ev evs IH]; intros s Hc Hb; simpl.
  - by intros [= <-].
  - destruct (step ev s) as [s1|] eqn:Hstep; [|done]. simpl.
    apply IH; eauto using pool1_consistent_step, pool1_result_back_step.
Qed.




(** *** A fixed pool with no initial thread *)

Lemma pool1_no_threads_step ev s s' :
  poolMode_ (pool s) = MODE_FIXED → initThreadSize_ (pool s) <= 0 →
  threads s = [] → step ev s = Some s' →
  threads s' = [] ∧ completed s' = completed s.
Proof.
  intros Hm Hi Hnil H.
  pool1_step_cases H; simpl in *; try done.
  all: unfold wants_thread in *; simpl in *.
  all: try rewrite Hm in *; simpl in *; try done.
  all: try (rewrite Hnil in *; simplify_eq/=; done).
  all: try (destruct ws; [|simpl in *; lia]; by rewrite Hnil).
Qed.

Lemma pool1_no_threads_steps evs s s' :
  poolMode_ (pool s) = MODE_FIXED → initThreadSize_ (pool s) <= 0 →
  threads s = [] → steps evs s = Some s' →
  threads s' = [] ∧ completed s' = completed s.
Proof.
  revert s. induction evs as [|ev evs IH]; intros s Hm Hi Hnil; simpl.
  - by intros [= <-].
  - destruct (step ev s) as [s1|] eqn:Hstep; [|done]. simpl. intros Hs.
    destruct (pool1_no_threads_step _ _ _ Hm Hi Hnil Hstep) as [Hnil1 Hc1].
    pose proof (pool1_step_config run _ _ _ Hstep) as Hcfg.
    unfold config in Hcfg. injection Hcfg as Hi1 _ _ Hm1.
    rewrite <- Hc1. apply IH; [congruence|lia|done|done].
Qed.

(** *** Dequeuing *)

(** A thread that comes to hold a task has taken it from the front of the
    queue. *)
Lemma pool1_takes_front ev i s s' w w' t :
  step ev s = Some s' →
  threads s !! i = Some w → threads s' !! i = Some w' →
  at_pc w ≠ HasTask t → at_pc w' = HasTask t →
  taskQue_ (pool s) = t :: taskQue_ (pool s').
Proof.
  intros H Hw Hw' Hne Hpc.
  pool1_step_cases H; simpl in *; thread_moved Hw Hw'; try done.
  all: congruence.
Qed.

(** *** Capacity zero *)

Lemma pool1_zero_capacity_step ev s s' :
  taskQueMaxThreshHold_ (pool s) = 0 → step ev s = Some s' → accepted s' = accepted s.
Proof.
  intros Hcap H.
  pool1_step_cases H; simpl in *; try done.
  all: exfalso.
  all: match goal with
       | Hr : has_room _ = true |- _ =>
           unfold has_room, to_size_t in Hr; rewrite Hcap in Hr;
           apply Z.ltb_lt in Hr; rewrite Z.mod_0_l in Hr by lia; lia
       end.
Qed.

Lemma pool1_zero_capacity_steps evs s s' :
  taskQueMaxThreshHold_ (pool s) = 0 → steps evs s = Some s' → accepted s' = accepted s.
Proof.
  revert s. induction evs as [|ev evs IH]; intros s Hcap; simpl.
  - by intros [= <-].
  - destruct (step ev s) as [s1|] eqn:Hstep; [|done]. simpl. intros Hs.
    rewrite <- (pool1_zero_capacity_step _ _ _ Hcap Hstep).
    apply IH; [|done].
    pose proof (pool1_step_config run _ _ _ Hstep) as Hcfg.
    unfold config in Hcfg. injection Hcfg as _ _ Hq1 _. congruence.
Qed.

(** *** The shutdown branch *)

Lemma pool1_shutdown_exit ev i s s' :
  step ev s = Some s' → returns_at i ReturnedShutdown s s' →
  taskQue_ (pool s) = [] ∧ isPoolRunning_ (pool s) = false
  ∧ ∃ w, threads s !! i = Some w
         ∧ pool s' = set_threadMap_ (delete (threadid w) (threadMap_ (pool s)))
                       (pool s)
         ∧ threads s' = <[i := goto ReturnedShutdown w]> (threads s).
Proof.
  intros H (w & w' & Hw & Hw' & Hne & Hpc).
  pool1_step_cases H; simpl in *; thread_moved Hw Hw'; try done.
  all: eauto 10.
Qed.

(** *** Everything at once *)

Lemma pool1_reachable_more initThreadSize threadthreshhold taskthreshhold
    mode indeterminate g evs s :
  in_int initThreadSize → 0 <= g <= INT_MAX →
  steps evs
    (boot (ThreadPool_ctor initThreadSize threadthreshhold taskthreshhold
             mode indeterminate) g) = Some s →
  consistent s ∧ registry_ok s ∧ enrolled s ∧ attended s
  ∧ destroyed_on_predicate s ∧ result_back s
  ∧ config (pool s) = (initThreadSize, threadthreshhold, taskthreshhold, mode).
Proof.
  intros Hi Hg Hs.
  set (p := ThreadPool_ctor initThreadSize threadthreshhold taskthreshhold
              mode indeterminate) in *.
  assert (consistent (boot (Dyn:=Dyn) (Fault:=Fault) p g)) as Hc
    by (by apply pool1_consistent_boot).
  assert (registry_ok (boot (Dyn:=Dyn) (Fault:=Fault) p g)) as Hok.
  { intros k t. simpl. by rewrite lookup_empty. }
  destruct (pool1_enrolled_steps evs _ s Hc Hok) as (He & Ha & Hd); [|done|].
  { split_and!.
    - intros i w Hw. done.
    - intros k [t Hk]. simpl in Hk. by rewrite lookup_empty in Hk.
    - intros b Hb. done. }
  split_and!; try done.
  - by eapply pool1_consistent_steps.
  - by eapply pool1_registry_steps.
  - eapply pool1_result_back_steps; [exact Hc| |exact Hs].
    intros t a Ht. simpl in Ht. by rewrite lookup_empty in Ht.
  - by rewrite (pool1_steps_config _ _ _ _ Hs).
Qed.


End Pool1_extra.

(** ** ThreaadPool2.0: registry, shutdown, futures *)

Section Pool2_extra.
Import Pool2.
Context {RType Fault : Type}.
Variable RType_default : RType.
Implicit Types (s : @Process RType Fault) (p : ThreadPool).
Local Abbreviation step := (Pool2.step RType_default).
Local Abbreviation steps := (Pool2.steps RType_default).

Lemma pool2_launch_threads_ids n i s s' :
  launch_threads n i s = inl s' →
  (∀ k t, threadMap_ (pool s) !! k = Some t → threadId_ t = k) →
  threads s' = threads s ++ launched i n
  ∧ ∀ k, i <= k < i + Z.of_nat n → is_Some (threadMap_ (pool s) !! k).
Proof.
  revert i s. induction n as [|n IH]; intros i s Hl Hid;
    cbn [launch_threads] in Hl.
  - injection Hl as <-. unfold launched. simpl. rewrite app_nil_r.
    split; [done|]. intros k Hk. lia.
  - destruct (threadMap_ (pool s) !! i) as [t|] eqn:Hi; [|done].
    apply IH in Hl as [Hth Hreg]; [|done]. simpl in *.
    rewrite Hth, launched_succ, <- app_assoc. simpl.
    rewrite (Hid i t Hi). split; [done|].
    intros k Hk. destruct (decide (k = i)) as [->|Hne]; [by eexists|].
    apply Hreg. lia.
Qed.

Lemma pool2_start_threads s s' :
  start s = StartDone s' → registry_ok s →
  let n := Z.to_nat (initThreadSize_ (pool s)) in
  ∃ m',
    register_threads n (generateId_ s) (threadMap_ (pool s))
    = Some (generateId_ s', m')
    ∧ threadMap_ (pool s') = m'
    ∧ threads s' = threads s ++ launched 0 n
    ∧ owner s' = owner s
    ∧ ∀ k, 0 <= k < Z.of_nat n → is_Some (m' !! k).
Proof.
  intros Hst Hok n. pose proof Hst as Hspec.
  apply pool2_start_spec in Hspec as (g' & m' & ws & Hreg & _ & _ & ->).
  unfold start in Hst. simpl in Hst. fold n in Hst, Hreg. rewrite Hreg in Hst.
  destruct (launch_threads _ _ _) as [s1|] eqn:Hl; [|done].
  apply pool2_launch_threads_ids in Hl as [Hth Hkeys]; simpl in *.
  - injection Hst as Hst. rewrite Hst in Hth. simpl in Hth.
    exists m'. split_and!; try done.
  - intros k t. rewrite (register_threads_lookup _ _ _ _ _ k Hreg).
    destruct (threadMap_ (pool s) !! k) as [t0|] eqn:Hk.
    + intros [= <-]. by apply Hok in Hk as [? _].
    + case_decide; [|done]. by intros [= <-].
Qed.

Lemma pool2_enrolled_step ev s s' :
  consistent s → registry_ok s → enrolled s → step ev s = Some s' →
  enrolled s'.
Proof.
  unfold enrolled. intros Hc Hok He H.
  destruct (event_is_start ev) as [->|Hns].
  - unfold Pool2.step in H. destruct (alive s); [|done].
    destruct (owner s) eqn:Ho; try done.
    destruct (start s) as [s1| |] eqn:Hst; try done. injection H as <-.
    destruct (pool2_start_threads _ _ Hst Hok) as (m' & Hreg & Hm & Hth & _ & Hkeys).
    simpl. rewrite Hm, Hth.
    destruct (before_start s Hc) as (-> & _); [by rewrite Ho|]. simpl.
    apply enrolled_in_launched; [done|].
    apply register_threads_counter in Hreg as [-> _].
    pose proof (ids_used s Hc). lia.
  - pool2_step_cases H; simpl in *; try done.
    all: repeat match goal with
         | Hn : Thread_new _ = Some _ |- _ =>
             apply Thread_new_Some in Hn as (-> & -> & ?)
         end.
    all: unfold emplace in *; simpl in *.
    all: try (eapply enrolled_in_insert; [| | | |exact He];
              [ done | done
              | unfold has_returned; simpl;
                first [ done
                      | intros _; split; [|done];
                        match goal with
                        | Hpc : at_pc _ = _ |- _ => by rewrite Hpc
                        end ]
              | intros k Hk; try done; apply lookup_delete_ne; congruence ]).
    + destruct (threadMap_ (pool s) !! generateId_ s) as [t|] eqn:Hg.
      { apply Hok in Hg. lia. }
      rewrite lookup_insert_eq in *. simplify_eq/=.
      by apply enrolled_in_grow.
    + eapply enrolled_in_mono; [|done]. lia.
Qed.

Lemma pool2_attended_step ev s s' :
  consistent s → registry_ok s → attended s → step ev s = Some s' →
  attended s'.
Proof.
  unfold attended. intros Hc Hok Ha H.
  destruct (event_is_start ev) as [->|Hns].
  - unfold Pool2.step in H. destruct (alive s); [|done].
    destruct (owner s) eqn:Ho; try done.
    destruct (start s) as [s1| |] eqn:Hst; try done. injection H as <-.
    destruct (pool2_start_threads _ _ Hst Hok) as (m' & Hreg & Hm & Hth & _ & Hkeys).
    simpl. rewrite Hm, Hth.
    destruct (before_start s Hc) as (Hnil & _); [by rewrite Ho|].
    rewrite Hnil in *. simpl.
    assert (∀ k, threadMap_ (pool s) !! k = None) as Hempty.
    { intros k. destruct (threadMap_ (pool s) !! k) eqn:Hk; [|done].
      destruct (Ha k) as (i & w & Hi & _); [by eexists|]. done. }
    pose proof (ids_used s Hc) as Hids. rewrite Hnil in Hids. simpl in Hids.
    apply attended_by_launched. intros k Hk.
    rewrite (register_threads_lookup _ _ _ _ _ k Hreg), Hempty in Hk.
    case_decide as Hin; [|by destruct Hk].
    destruct (Hkeys 0) as [t0 Ht0]; [lia|].
    rewrite (register_threads_lookup _ _ _ _ _ 0 Hreg), Hempty in Ht0.
    case_decide; [lia|done].
  - pool2_step_cases H; simpl in *; try done.
    all: repeat match goal with
         | Hn : Thread_new _ = Some _ |- _ =>
             apply Thread_new_Some in Hn as (-> & -> & ?)
         end.
    all: unfold emplace in *; simpl in *.
    all: try (eapply attended_by_insert; [| | | |exact Ha];
              [ done | done
              | unfold has_returned; simpl;
                first [ done | intros _; by rewrite lookup_delete_eq ]
              | intros k; rewrite ?lookup_delete_is_Some; tauto ]).
    + destruct (threadMap_ (pool s) !! generateId_ s) as [t|] eqn:Hg.
      { apply Hok in Hg. lia. }
      rewrite lookup_insert_eq in *. simplify_eq/=.
      by apply attended_by_grow.
Qed.

Lemma pool2_destroyed_step ev s s' :
  step ev s = Some s' → destroyed_on_predicate s'.
Proof.
  unfold destroyed_on_predicate. intros H.
  pool2_step_cases H; simpl in *; try done.
  all: intros bx Hbx; try (by destruct (Halive bx)); try congruence.
  all: try (destruct (owner s); simplify_eq/=; done).
Qed.

Lemma pool2_enrolled_steps evs s s' :
  consistent s → registry_ok s → enrolled s ∧ attended s
  ∧ destroyed_on_predicate s →
  steps evs s = Some s' →
  enrolled s' ∧ attended s' ∧ destroyed_on_predicate s'.
Proof.
  revert s. induction evs as [|ev evs IH]; intros s Hc Hok (He & Ha & Hd); simpl.
  - by intros [= <-].
  - destruct (step ev s) as [s1|] eqn:Hstep; [|done]. simpl.
    apply IH; eauto using pool2_consistent_step, pool2_registry_step.
    split_and!; eauto using pool2_enrolled_step, pool2_attended_step,
      pool2_destroyed_step.
Qed.


(** *** A fixed pool keeps its threads *)

Lemma pool2_fixed_threads_step ev s s' :
  poolmode_ (pool s) = MODE_FIXED →
  Forall (fun w => at_pc w ≠ ReturnedIdle) (threads s) →
  step ev s = Some s' →
  Forall (fun w => at_pc w ≠ ReturnedIdle) (threads s').
Proof.
  intros Hm Hall H.
  pool2_step_cases H; simpl in *; try done.
  all: try rewrite Hm in *; simpl in *; try done.
  all: try (apply Forall_insert; [done|]; simpl; try done).
  all: try (apply Forall_app; split; [done|]).
  all: try (eapply Forall_impl; [exact Hws|]; simpl; intros ? ->; done).
  all: try (by repeat constructor).
Qed.

Lemma pool2_fixed_threads_steps evs s s' :
  poolmode_ (pool s) = MODE_FIXED →
  Forall (fun w => at_pc w ≠ ReturnedIdle) (threads s) →
  steps evs s = Some s' →
  Forall (fun w => at_pc w ≠ ReturnedIdle) (threads s').
Proof.
  revert s. induction evs as [|ev evs IH]; intros s Hm Hall; simpl.
  - by intros [= <-].
  - destruct (step ev s) as [s1|] eqn:Hstep; [|done]. simpl.
    apply IH; [|by eapply pool2_fixed_threads_step].
    pose proof (pool2_step_config RType_default _ _ _ Hstep) as Hcfg.
    unfold config in Hcfg. injection Hcfg as -> _ _ _. done.
Qed.


Lemma pool2_steps_app evs1 evs2 s :
  steps (evs1 ++ evs2) s = s1 ← steps evs1 s; steps evs2 s1.
Proof.
  revert s. induction evs1 as [|ev evs1 IH]; intros s; simpl; [done|].
  destruct (step ev s) as [s1|]; simpl; [apply IH|done].
Qed.

(** *** Futures *)

(** No [std::future_error] leaves a thread: a packaged task is not called
    a second time. *)
Lemma pool2_step_not_terminated ev s s' :
  consistent s → step ev s = Some s' → terminated s' = None.
Proof.
  intros Hc H. pool2_step_cases H; simpl in *; try done.
  exfalso.
  match goal with
  | Hl : threads _ !! _ = Some ?w, Hpc : at_pc ?w = HasTask ?t |- _ =>
      destruct (fresh _ Hc t) as (pt & Hpt & Hnone);
      [apply elem_of_app; left; by eapply in_flight_elem|]
  end.
  congruence.
Qed.

Lemma pool2_steps_not_terminated evs s s' :
  consistent s → terminated s = None → steps evs s = Some s' →
  terminated s' = None.
Proof.
  revert s. induction evs as [|ev evs IH]; intros s Hc Ht; simpl.
  - by intros [= <-].
  - destruct (step ev s) as [s1|] eqn:Hstep; [|done]. simpl.
    apply IH; eauto using pool2_consistent_step, pool2_step_not_terminated.
Qed.

Lemma pool2_futures_kept_refl s : futures_kept s s.
Proof. intros h pt Hpt. eauto. Qed.

Lemma pool2_futures_kept_trans s1 s2 s3 :
  futures_kept s1 s2 → futures_kept s2 s3 → futures_kept s1 s3.
Proof.
  intros H12 H23 h pt Hpt.
  destruct (H12 h pt Hpt) as (pt2 & Hpt2 & Hc2 & Hs2).
  destruct (H23 h pt2 Hpt2) as (pt3 & Hpt3 & Hc3 & Hs3).
  exists pt3. split_and!; [done|congruence|]. intros o Ho. eauto.
Qed.

Lemma pool2_futures_kept_step ev s s' :
  consistent s → step ev s = Some s' → futures_kept s s'.
Proof.
  unfold futures_kept. intros Hc H.
  pool2_step_cases H; simpl in *; try done.
  all: intros hx ptx Hx.
  all: try (by eauto).
  all: try (by (exists ptx; split_and!; [|done|done];
                repeat (apply lookup_app_l_Some); done)).
  - (* a rejected submission fills the state of a new object *)
    exists ptx. split_and!; [|done|done].
    rewrite list_lookup_insert_ne
      by (apply lookup_lt_Some in Hx; rewrite length_app; simpl; lia).
    by do 2 apply lookup_app_l_Some.
  - (* a thread calls the task it holds *)
    match goal with
    | |- ∃ _, <[?a := ?t']> _ !! ?x = _ ∧ _ =>
        destruct (decide (a = x)) as [->|Hne];
        [ exists t';
          rewrite list_lookup_insert_eq by (by eapply lookup_lt_Some)
        | exists ptx; by rewrite list_lookup_insert_ne by done ]
    end.
    simplify_eq/=. split_and!; [done|done|]. intros o Ho. congruence.
Qed.

Lemma pool2_futures_kept_steps evs s s' :
  consistent s → steps evs s = Some s' → futures_kept s s'.
Proof.
  revert s. induction evs as [|ev evs IH]; intros s Hc; simpl.
  - intros [= <-]. apply pool2_futures_kept_refl.
  - destruct (step ev s) as [s1|] eqn:Hstep; [|done]. simpl. intros Hs.
    eapply pool2_futures_kept_trans;
      eauto using pool2_futures_kept_step, pool2_consistent_step.
Qed.

Lemma pool2_completed_ready_step ev s s' :
  consistent s → completed_ready s → step ev s = Some s' →
  completed_ready s'.
Proof.
  intros Hc Hr H tx Hx.
  pose proof (pool2_futures_kept_step _ _ _ Hc H) as Hk.
  assert (tx ∈ completed s → ∃ pt o, tasks s' !! tx = Some pt
                                     ∧ shared_state pt = Some o) as Hold.
  { intros Hin. destruct (Hr tx Hin) as (pt & o & Hpt & Ho).
    destruct (Hk tx pt Hpt) as (pt' & Hpt' & _ & Hs'). eauto. }
  revert Hx. clear Hk.
  pool2_step_cases H; simpl in *; try done.
  rewrite elem_of_app, list_elem_of_singleton. intros [Hin| ->]; [by apply Hold|].
  eexists _, _.
  split; [apply list_lookup_insert_eq; by eapply lookup_lt_Some|done].
Qed.

Lemma pool2_completed_ready_steps evs s s' :
  consistent s → completed_ready s → steps evs s = Some s' →
  completed_ready s'.
Proof.
  revert s. induction evs as [|ev evs IH]; intros s Hc Hr; simpl.
  - by intros [= <-].
  - destruct (step ev s) as [s1|] eqn:Hstep; [|done]. simpl.
    apply IH; eauto using pool2_consistent_step, pool2_completed_ready_step.
Qed.

(** What [submitTask] returns. *)
Lemma pool2_submitTask_future bound s s1 h :
  submitTask RType_default bound s = Some (s1, h) →
  (has_room (pool s) = true →
   tasks s1 !! h = Some (make_packaged_task bound)
   ∧ taskQue_ (pool s1) = taskQue_ (pool s) ++ [h]
   ∧ accepted s1 = accepted s ++ [h])
  ∧ (has_room (pool s) = false →
     tasks s1 !! h = Some {| callable := fun _ => Value RType_default;
                             shared_state := Some (Value RType_default) |}
     ∧ pool s1 = pool s ∧ threads s1 = threads s
     ∧ generateId_ s1 = generateId_ s
     ∧ accepted s1 = accepted s ∧ completed s1 = completed s).
Proof.
  unfold submitTask, make_shared, packaged_task_call, make_packaged_task.
  simpl. intros H.
  destruct (has_room (pool s)) eqn:Hroom.
  - split; [intros _|done].
    repeat (simplify_option_eq || case_match); split_and!; try done.
    all: by rewrite lookup_app_r, Nat.sub_diag by lia.
  - split; [done|intros _]. revert H.
    rewrite lookup_app_r by (rewrite length_app; simpl; lia).
    rewrite length_app. simpl.
    replace (length (tasks s) + 1 - (length (tasks s) + 1))%nat with 0%nat
      by lia.
    simpl. intros [= <- <-]. simpl. split_and!; try done.
    apply list_lookup_insert_eq. rewrite !length_app. simpl. lia.
Qed.

(** *** A fixed pool with no initial thread *)

Lemma pool2_no_threads_step ev s s' :
  poolmode_ (pool s) = MODE_FIXED → initThreadSize_ (pool s) <= 0 →
  threads s = [] → step ev s = Some s' →
  threads s' = [] ∧ completed s' = completed s.
Proof.
  intros Hm Hi Hnil H.
  pool2_step_cases H; simpl in *; try done.
  all: unfold wants_thread in *; simpl in *.
  all: try rewrite Hm in *; simpl in *; try done.
  all: try (rewrite Hnil in *; simplify_eq/=; done).
  all: try (destruct ws; [|simpl in *; lia]; by rewrite Hnil).
Qed.

Lemma pool2_no_threads_steps evs s s' :
  poolmode_ (pool s) = MODE_FIXED → initThreadSize_ (pool s) <= 0 →
  threads s = [] → steps evs s = Some s' →
  threads s' = [] ∧ completed s' = completed s.
Proof.
  revert s. induction evs as [|ev evs IH]; intros s Hm Hi Hnil; simpl.
  - by intros [= <-].
  - destruct (step ev s) as [s1|] eqn:Hstep; [|done]. simpl. intros Hs.
    destruct (pool2_no_threads_step _ _ _ Hm Hi Hnil Hstep) as [Hnil1 Hc1].
    pose proof (pool2_step_config RType_default _ _ _ Hstep) as Hcfg.
    unfold config in Hcfg. injection Hcfg as Hm1 Hi1 _ _.
    rewrite <- Hc1. apply IH; [congruence|lia|done|done].
Qed.

(** *** Dequeuing *)

(** A thread that comes to hold a task has taken it from the front of the
    queue. *)
Lemma pool2_takes_front ev i s s' w w' t :
  step ev s = Some s' →
  threads s !! i = Some w → threads s' !! i = Some w' →
  at_pc w ≠ HasTask t → at_pc w' = HasTask t →
  taskQue_ (pool s) = t :: taskQue_ (pool s').
Proof.
  intros H Hw Hw' Hne Hpc.
  pool2_step_cases H; simpl in *; thread_moved Hw Hw'; try done.
  all: congruence.
Qed.

(** *** Capacity zero *)

Lemma pool2_zero_capacity_step ev s s' :
  taskMaxSize_ (pool s) = 0 → step ev s = Some s' → accepted s' = accepted s.
Proof.
  intros Hcap H.
  pool2_step_cases H; simpl in *; try done.
  all: exfalso.
  all: match goal with
       | Hr : has_room _ = true |- _ =>
           unfold has_room, to_size_t in Hr; rewrite Hcap in Hr;
           apply Z.ltb_lt in Hr; rewrite Z.mod_0_l in Hr by lia; lia
       end.
Qed.

Lemma pool2_zero_capacity_steps evs s s' :
  taskMaxSize_ (pool s) = 0 → steps evs s = Some s' → accepted s' = accepted s.
Proof.
  revert s. induction evs as [|ev evs IH]; intros s Hcap; simpl.
  - by intros [= <-].
  - destruct (step ev s) as [s1|] eqn:Hstep; [|done]. simpl. intros Hs.
    rewrite <- (pool2_zero_capacity_step _ _ _ Hcap Hstep).
    apply IH; [|done].
    pose proof (pool2_step_config RType_default _ _ _ Hstep) as Hcfg.
    unfold config in Hcfg. injection Hcfg as _ _ _ Hq1. congruence.
Qed.

(** *** The shutdown branch *)

Lemma pool2_shutdown_exit ev i s s' :
  step ev s = Some s' → returns_at i ReturnedShutdown s s' →
  taskQue_ (pool s) = [] ∧ isRunning_ (pool s) = false
  ∧ ∃ w, threads s !! i = Some w
         ∧ pool s' = set_threadMap_ (delete (threadid w) (threadMap_ (pool s)))
                       (pool s)
         ∧ threads s' = <[i := goto ReturnedShutdown w]> (threads s).
Proof.
  intros H (w & w' & Hw & Hw' & Hne & Hpc).
  pool2_step_cases H; simpl in *; thread_moved Hw Hw'; try done.
  all: eauto 10.
Qed.

(** *** Everything at once *)

Lemma pool2_reachable_more poolmode initthreadsize maxthreadsize taskmaxsize
    g evs s :
  in_int initthreadsize → in_int maxthreadsize → 0 <= g <= INT_MAX →
  steps evs
    (boot (ThreadPool_ctor poolmode initthreadsize maxthreadsize
             taskmaxsize) g) = Some s →
  consistent s ∧ registry_ok s ∧ enrolled s ∧ attended s
  ∧ destroyed_on_predicate s ∧ results_kept s ∧ completed_ready s
  ∧ terminated s = None
  ∧ config (pool s) = (poolmode, initthreadsize, maxthreadsize, taskmaxsize).
Proof.
  intros Hi Hm Hg Hs.
  set (p := ThreadPool_ctor poolmode initthreadsize maxthreadsize
              taskmaxsize) in *.
  assert (consistent (boot (RType:=RType) (Fault:=Fault) p g)) as Hc
    by (by apply pool2_consistent_boot).
  assert (registry_ok (boot (RType:=RType) (Fault:=Fault) p g)) as Hok.
  { intros k t. simpl. by rewrite lookup_empty. }
  destruct (pool2_enrolled_steps evs _ s Hc Hok) as (He & Ha & Hd); [|done|].
  { split_and!.
    - intros i w Hw. done.
    - intros k [t Hk]. simpl in Hk. by rewrite lookup_empty in Hk.
    - intros b Hb. done. }
  split_and!; try done.
  - by eapply pool2_consistent_steps.
  - by eapply pool2_registry_steps.
  - eapply pool2_results_kept_steps; [|exact Hs]. intros t pt o Ht. done.
  - eapply pool2_completed_ready_steps; [exact Hc| |exact Hs].
    intros t Ht. simpl in Ht. by apply elem_of_nil in Ht.
  - by eapply pool2_steps_not_terminated.
  - by rewrite (pool2_steps_config _ _ _ _ Hs).
Qed.

End Pool2_extra.

(** ** [Task::exec] and the lifetime of a [Result] *)

Section Exec_facts.
Import Pool1.
Context {Dyn Fault : Type}.
Variable run : nat -> outcome Fault (option Dyn).
Implicit Types (h : @Heap Dyn).
Local Abbreviation heap_step := (Pool1.heap_step run).
Local Abbreviation heap_steps := (Pool1.heap_steps run).

Lemma heap_ok_new : heap_ok (new_heap (Dyn:=Dyn)).
Proof. split_and!; intros *; simpl; by rewrite lookup_empty. Qed.

Lemma Result_setVal_task (v : option Dyn) r r' :
  Result_setVal v r = Some r' →
  task_ r' = task_ r ∧ isValid_ r' = isValid_ r ∧ any_ r' = v
  ∧ resLimit_ (sem_ r') = resLimit_ (sem_ r) + 1
  ∧ resLimit_ (sem_ r) < INT_MAX.
Proof.
  unfold Result_setVal, Semaphore_post. intros H.
  destruct (resLimit_ (sem_ r) <? INT_MAX) eqn:Hlt; simplify_eq/=.
  apply Z.ltb_lt in Hlt. done.
Qed.

Lemma heap_ok_step ev h h' :
  heap_ok h → heap_step ev h = Next h' → heap_ok h'.
Proof.
  intros (Hptr & Hin & Hobj) H.
  destruct ev as [task valid|a|n task|n]; simpl in H.
  - injection H as <-. unfold heap_new_Result. split_and!; simpl.
    + intros t a. rewrite lookup_insert_Some. intros [[<- <-]|[Hne Ht]].
      * split; [lia|]. intros r. rewrite lookup_insert_eq. by intros [= <-].
      * destruct (Hptr _ _ Ht) as [Hlt Hmade]. split; [lia|].
        intros r. rewrite lookup_insert_ne by lia. apply Hmade.
    + intros n t a Hn. destruct (Hin _ _ _ Hn) as [Hlt Hmade]. split; [lia|].
      intros r. rewrite lookup_insert_ne by lia. apply Hmade.
    + intros a r. rewrite lookup_insert_Some. intros [[<- _]|[_ Ha]]; [lia|].
      apply Hobj in Ha. lia.
  - destruct (objects h !! a) as [r0|] eqn:Ha; [|done]. injection H as <-.
    split_and!; simpl.
    + intros t a' Ht. destruct (Hptr _ _ Ht) as [Hlt Hmade]. split; [done|].
      intros r. rewrite lookup_delete_Some. intros [_ Hr]. by apply Hmade.
    + intros n t a' Hn. destruct (Hin _ _ _ Hn) as [Hlt Hmade]. split; [done|].
      intros r. rewrite lookup_delete_Some. intros [_ Hr]. by apply Hmade.
    + intros a' r. rewrite lookup_delete_Some. intros [_ Hr]. by eapply Hobj.
  - destruct (in_exec h !! n) as [[t0 a0]|] eqn:Hn; [done|].
    destruct (task_result_ h !! task) as [a|] eqn:Ht; injection H as <-;
      [|done].
    split_and!; simpl; [done| |done].
    intros n' t a'. rewrite lookup_insert_Some.
    intros [[<- [= <- <-]]|[_ Hn']]; [by apply Hptr|by eapply Hin].
  - destruct (in_exec h !! n) as [[task a]|] eqn:Hn; [|done].
    destruct (run task) as [v|e]; [|done].
    destruct (objects h !! a) as [r|] eqn:Ha; [|done].
    destruct (Result_setVal v r) as [r'|] eqn:Hset; [|done].
    injection H as <-. apply Result_setVal_task in Hset as (Htask & _).
    assert (∀ a' r1, <[a := r']> (objects h) !! a' = Some r1 →
                     ∃ r0, objects h !! a' = Some r0 ∧ task_ r1 = task_ r0)
      as Hback.
    { intros a' r1. rewrite lookup_insert_Some.
      intros [[<- <-]|[_ Hr1]]; eauto. }
    split_and!; simpl.
    + intros t a' Ht. destruct (Hptr _ _ Ht) as [Hlt Hmade]. split; [done|].
      intros r1 Hr1. destruct (Hback _ _ Hr1) as (r0 & Hr0 & ->).
      by apply Hmade.
    + intros n' t a'. rewrite lookup_delete_Some. intros [_ Hn'].
      destruct (Hin _ _ _ Hn') as [Hlt Hmade]. split; [done|].
      intros r1 Hr1. destruct (Hback _ _ Hr1) as (r0 & Hr0 & ->).
      by apply Hmade.
    + intros a' r1 Hr1. destruct (Hback _ _ Hr1) as (r0 & Hr0 & _).
      by eapply Hobj.
Qed.

Lemma heap_ok_steps evs h h' :
  heap_ok h → heap_steps evs h = Some h' → heap_ok h'.
Proof.
  revert h. induction evs as [|ev evs IH]; intros h Hok; simpl.
  - by intros [= <-].
  - destruct (heap_step ev h) as [h1| | |] eqn:Hstep; try done.
    eauto using heap_ok_step.
Qed.

(** The counter of addresses only grows. *)
Lemma heap_step_next_address ev h h' :
  heap_step ev h = Next h' → (next_address h <= next_address h')%nat.
Proof.
  intros H. destruct ev; simpl in H; repeat case_match; simplify_eq/=; lia.
Qed.

Lemma all_kept_step ev h h' :
  all_kept h → (∀ a, ev ≠ DeleteResult a) → heap_step ev h = Next h' →
  all_kept h'.
Proof.
  intros Hk Hev H.
  destruct ev as [task valid|a|n task|n]; simpl in H.
  - injection H as <-. intros a. simpl. intros Ha.
    rewrite lookup_insert_is_Some.
    destruct (decide (next_address h = a)); [by left|right].
    split; [done|]. apply Hk. lia.
  - by destruct (Hev a).
  - repeat case_match; simplify_eq/=; done.
  - destruct (in_exec h !! n) as [[task a]|] eqn:Hn; [|done].
    destruct (run task) as [v|e]; [|done].
    destruct (objects h !! a) as [r|] eqn:Ha; [|done].
    destruct (Result_setVal v r) as [r'|] eqn:Hset; [|done].
    injection H as <-. intros a'. simpl. intros Ha'.
    rewrite lookup_insert_is_Some.
    destruct (decide (a = a')); [by left|right]. split; [done|by apply Hk].
Qed.

Lemma all_kept_steps evs h h' :
  all_kept h → Forall (fun ev => ∀ a, ev ≠ DeleteResult a) evs →
  heap_steps evs h = Some h' → all_kept h'.
Proof.
  revert h. induction evs as [|ev evs IH]; intros h Hk Hall; simpl.
  - by intros [= <-].
  - apply Forall_cons in Hall as [Hev Hall].
    destruct (heap_step ev h) as [h1| | |] eqn:Hstep; try done.
    eauto using all_kept_step.
Qed.

(** Once nothing leads to an object, nothing ever does, and no move but its
    own destruction touches it. *)
Lemma orphaned_step a ev h h' :
  orphaned a h → heap_step ev h = Next h' →
  orphaned a h'
  ∧ (ev ≠ DeleteResult a → objects h' !! a = objects h !! a).
Proof.
  intros (Hptr & Hin & Hlt) H.
  destruct ev as [task valid|a'|n task|n]; simpl in H.
  - injection H as <-. unfold orphaned, heap_new_Result. simpl.
    split_and!; [| |lia|].
    + intros t. rewrite lookup_insert_Some. intros [[_ Heq]|[_ Ht]].
      * lia.
      * by eapply Hptr.
    + done.
    + intros _. rewrite lookup_insert_ne by lia. done.
  - destruct (objects h !! a') as [r0|] eqn:Ha; [|done]. injection H as <-.
    split; [done|]. simpl. intros Hne.
    rewrite lookup_delete_ne by congruence. done.
  - destruct (in_exec h !! n) as [[t0 a0]|] eqn:Hn; [done|].
    destruct (task_result_ h !! task) as [a0|] eqn:Ht; injection H as <-;
      [|done].
    split; [|done]. split_and!; simpl; [done| |done].
    intros n' t. rewrite lookup_insert_Some.
    intros [[_ [= _ Heq]]|[_ Hn']]; [|by eapply Hin].
    subst a0. by eapply Hptr.
  - destruct (in_exec h !! n) as [[task a0]|] eqn:Hn; [|done].
    destruct (run task) as [v|e]; [|done].
    destruct (objects h !! a0) as [r|] eqn:Ha; [|done].
    destruct (Result_setVal v r) as [r'|] eqn:Hset; [|done].
    injection H as <-.
    assert (a0 ≠ a) as Hne.
    { intros ->. by eapply Hin. }
    split.
    + split_and!; simpl; [done| |done].
      intros n' t. rewrite lookup_delete_Some. intros [_ Hn']. by eapply Hin.
    + intros _. simpl. by rewrite lookup_insert_ne by done.
Qed.

Lemma orphaned_steps a evs h h' :
  orphaned a h → heap_steps evs h = Some h' →
  orphaned a h'
  ∧ (DeleteResult a ∉ evs → objects h' !! a = objects h !! a).
Proof.
  revert h. induction evs as [|ev evs IH]; intros h Ho; simpl.
  - by intros [= <-].
  - destruct (heap_step ev h) as [h1| | |] eqn:Hstep; try done.
    intros Hs. destruct (orphaned_step _ _ _ _ Ho Hstep) as [Ho1 Hsame].
    destruct (IH _ Ho1 Hs) as [Ho' Hsame']. split; [done|].
    intros Hnot. rewrite Hsame', Hsame.
    + done.
    + intros ->. apply Hnot. by left.
    + intros Hin. apply Hnot. by right.
Qed.

End Exec_facts.

(** * The properties *)

(** ** Result handles *)

(** C1. [Result::get] of ThreadPool1.0 tests the validity flag the wrong
    way round: on a handle marked valid (an accepted submission) it returns
    the empty-string payload at once, without waiting and whatever was
    posted; on a handle marked invalid (a rejected submission) to which
    nothing was posted it blocks. *)
Theorem Result_get_validity_test_inverted {Dyn : Type} (cstr_empty : Dyn)
    (r : @Pool1.Result Dyn) :
  (Pool1.isValid_ r = true →
   Pool1.Result_get cstr_empty r = Returns (Some cstr_empty, r))
  ∧ (Pool1.isValid_ r = false → Pool1.resLimit_ (Pool1.sem_ r) <= 0 →
     Pool1.Result_get cstr_empty r = Blocks).
Proof.
  unfold Pool1.Result_get, Pool1.Semaphore_wait. split.
  - by intros ->.
  - intros -> Hsem. destruct (0 <? _) eqn:Hpos; [|done].
    apply Z.ltb_lt in Hpos. lia.
Qed.

Lemma Result_get_validity_test_inverted_witness :
  Pool1.Result_get Examples.cstr_empty
    (Pool1.Result_init (Dyn:=Examples.Derive) 0 true)
  = Returns (Some Examples.cstr_empty, Pool1.Result_init 0 true)
  ∧ Pool1.Result_get Examples.cstr_empty
      (Pool1.Result_init (Dyn:=Examples.Derive) 0 false) = Blocks.
Proof.
  split.
  - apply (Result_get_validity_test_inverted Examples.cstr_empty
             (Pool1.Result_init 0 true)). reflexivity.
  - apply (Result_get_validity_test_inverted Examples.cstr_empty
             (Pool1.Result_init 0 false)); [reflexivity|simpl; lia].
Defined.

(** C9. In ThreadPool1.0 the round trip fails: a task returning 42 is
    accepted by a running pool, a thread runs it and posts 42 into the
    handle, and [get] on that handle still returns the empty-string
    payload. *)
Theorem round_trip_value_lost :
  ∃ s r,
    Pool1.steps Examples.run
      ([Start; Submit 0%nat] ++ Examples.serve 0 0) (Examples.fixed1 0)
    = Some s
    ∧ Pool1.completed s = [0%nat]
    ∧ Examples.run 0 = Value (Some (Examples.Derive_int 42))
    ∧ Pool1.results s !! 0%nat = Some r
    ∧ Pool1.any_ r = Some (Examples.Derive_int 42)
    ∧ Pool1.Result_get Examples.cstr_empty r
      = Returns (Some Examples.cstr_empty, r)
    ∧ Some Examples.cstr_empty ≠ Some (Examples.Derive_int 42).
Proof.
  eexists _, _. split_and!; [by vm_compute| | | | | |]; try done.
Qed.

(** ** Shutdown *)

(** C2. The destructor of ThreaadPool2.0 waits for the task queue to be
    empty, not the registry: on a started pool with one thread and no
    task it returns at once, with the thread still registered and still
    running. *)
Theorem destructor2_returns_with_registered_thread :
  ∃ s,
    Pool2.steps 0 [Start; Destroy; DestroyReturn] (Examples.fixed2 0) = Some s
    ∧ Pool2.owner s = Destroyed true
    ∧ Pool2.threadMap_ (Pool2.pool s) !! 0 = Some {| threadId_ := 0 |}
    ∧ Pool2.threads s = [Build_worker 0 Entry 0].
Proof.
  eexists. split_and!; [by vm_compute| | |]; done.
Qed.

(** ** Faults of tasks *)

(** C3, as stated, fails in ThreadPool1.0: the exception of a task's [run]
    leaves [Task::exec] and the thread function, the process is
    terminated, nothing is posted to the handle, and nothing moves any
    more. *)
Lemma fault_escapes_worker1 :
  ∃ s r,
    Pool1.steps Examples.run
      ([Start; Submit 1%nat] ++ Examples.serve 0 0) (Examples.fixed1 0)
    = Some s
    ∧ Examples.run 1 = Raise tt
    ∧ Pool1.terminated s = Some tt
    ∧ Pool1.results s !! 0%nat = Some r
    ∧ Pool1.any_ r = None
    ∧ Pool1.resLimit_ (Pool1.sem_ r) = 0
    ∧ ∀ ev, Pool1.step Examples.run ev s = None.
Proof.
  eexists _, _. split_and!; [by vm_compute| | | | | |]; try done.
Qed.

(** C3, amended. In ThreaadPool2.0 a thread that runs a task whose callable
    throws stores the exception in the shared state of the packaged task,
    where the future reads it; the thread goes on to its next iteration and
    nothing is terminated. *)
Theorem fault_delivered_through_future {RType Fault : Type}
    (RType_default : RType) poolmode initthreadsize maxthreadsize taskmaxsize
    g (s : @Pool2.Process RType Fault) i now timed_out w task pt e :
  in_int initthreadsize → in_int maxthreadsize → 0 <= g <= INT_MAX →
  Pool2.reachable RType_default poolmode initthreadsize maxthreadsize
    taskmaxsize g s →
  Pool2.alive s = true →
  Pool2.threads s !! i = Some w → at_pc w = HasTask task →
  Pool2.tasks s !! task = Some pt → Pool2.callable pt tt = Raise e →
  ∃ s' pt',
    Pool2.step RType_default (Worker i now timed_out) s = Some s'
    ∧ Pool2.terminated s' = None
    ∧ Pool2.threads s' !! i = Some (goto Ran w)
    ∧ Pool2.tasks s' !! task = Some pt'
    ∧ Pool2.future_get pt' = Returns (Raise e).
Proof.
  intros Hi Hm Hg Hreach. apply pool2_fault_contained.
  eapply pool2_reachable_consistent; [exact Hi|exact Hm|exact Hg|exact Hreach].
Qed.

Lemma fault_delivered_through_future_witness :
  ∃ s,
    Pool2.steps 0 ([Start; Submit (fun _ => Examples.thrower 3)]
                   ++ Examples.settle 0 0) (Examples.fixed2 0) = Some s
    ∧ ∃ s' pt',
        Pool2.step 0 (Worker 0 0 false) s = Some s'
        ∧ Pool2.terminated s' = None
        ∧ Pool2.threads s' !! 0%nat = Some (Build_worker 0 Ran 0)
        ∧ Pool2.tasks s' !! 0%nat = Some pt'
        ∧ Pool2.future_get pt' = Returns (Raise tt).
Proof.
  eexists. split; [vm_compute; reflexivity|].
  eapply (fault_delivered_through_future 0 MODE_FIXED 1 1024 2 0 _
            0%nat 0 false (Build_worker 0 (HasTask 0%nat) 0) 0%nat
            (Pool2.make_packaged_task (fun _ => Examples.thrower 3)) tt).
  - by vm_compute.
  - by vm_compute.
  - by vm_compute.
  - exists ([Start; Submit (fun _ => Examples.thrower 3)]
            ++ Examples.settle 0 0). vm_compute. reflexivity.
  - reflexivity.
  - reflexivity.
  - reflexivity.
  - reflexivity.
  - reflexivity.
Defined.

(** ** Construction *)

(** C4, as stated, fails: both constructors take a configuration with
    [initThreadSize = 0], a negative thread limit and a queue capacity of 0,
    and the pool built from it starts and shuts down like any other. *)
Lemma constructor_accepts_invalid_configuration :
  ¬ Pool1.valid_config (Pool1.ThreadPool_ctor 0 (-1) 0 MODE_FIXED false)
  ∧ ¬ Pool2.valid_config (Pool2.ThreadPool_ctor MODE_FIXED 0 (-1) 0)
  ∧ Pool1.initThreadSize_ (Pool1.ThreadPool_ctor 0 (-1) 0 MODE_FIXED false) = 0
  ∧ Pool2.maxThreadSize_ (Pool2.ThreadPool_ctor MODE_FIXED 0 (-1) 0) = -1
  ∧ is_Some (Pool1.steps Examples.run [Start; Destroy; DestroyReturn]
               (Pool1.boot (Pool1.ThreadPool_ctor 0 (-1) 0 MODE_FIXED false) 0))
  ∧ is_Some (Pool2.steps (Fault:=unit) 0 [Start; Destroy; DestroyReturn]
               (Pool2.boot (Pool2.ThreadPool_ctor MODE_FIXED 0 (-1) 0) 0)).
Proof.
  split_and!; try done.
  all: try (by vm_compute).
  all: unfold Pool1.valid_config, Pool2.valid_config; simpl; lia.
Qed.

(** C4, amended. The constructors store the mode and the three sizes as
    given, without any check, so the pool has a valid configuration exactly
    when the arguments form one; the counters are zero, the queue and the
    registry are empty, and no thread object is made (the identity counter
    is not an input). *)
Theorem constructor_stores_arguments_unchecked (mode : PoolMode)
    (initial limit capacity : Z) (indeterminate : bool) :
  let p1 := Pool1.ThreadPool_ctor initial limit capacity mode indeterminate in
  let p2 := Pool2.ThreadPool_ctor mode initial limit capacity in
  let valid := in_int initial ∧ in_int limit ∧ in_int capacity
               ∧ 0 < initial <= limit ∧ 0 < capacity in
  Pool1.config p1 = (initial, limit, capacity, mode)
  ∧ Pool2.config p2 = (mode, initial, limit, capacity)
  ∧ (Pool1.valid_config p1 ↔ valid)
  ∧ (Pool2.valid_config p2 ↔ valid)
  ∧ Pool1.curThreadNum_ p1 = 0 ∧ Pool1.idleThreadNum_ p1 = 0
  ∧ Pool1.taskNum_ p1 = 0 ∧ Pool1.taskQue_ p1 = []
  ∧ Pool1.threadMap_ p1 = ∅
  ∧ Pool2.currentThreadNum_ p2 = 0 ∧ Pool2.idleThreadNum_ p2 = 0
  ∧ Pool2.taskSize_ p2 = 0 ∧ Pool2.taskQue_ p2 = []
  ∧ Pool2.threadMap_ p2 = ∅ ∧ Pool2.isRunning_ p2 = false.
Proof. by split_and!. Qed.

(** ** The identity counter *)

(** C10. [start()] looks the new threads up under the keys 0, 1, ...,
    while their identities come from the process-wide counter.  On a pool
    with an empty registry and a positive initial size, [start()] finds
    them (and launches the threads 0 .. initThreadSize-1) exactly when the
    counter is 0; for any other counter value the lookup of key 0 finds no
    thread object and a null handle is dereferenced.  The same holds in
    both designs. *)
Theorem start_depends_on_global_counter :
  (∀ (Dyn Fault : Type) (s : @Pool1.Process Dyn Fault),
     Pool1.threadMap_ (Pool1.pool s) = ∅ →
     0 < Pool1.initThreadSize_ (Pool1.pool s) →
     0 <= Pool1.generateId_ s →
     Pool1.generateId_ s + Pool1.initThreadSize_ (Pool1.pool s) <= INT_MAX →
     (Pool1.generateId_ s = 0 →
      ∃ s', Pool1.start s = Pool1.StartDone s'
            ∧ Pool1.threads s'
              = Pool1.threads s
                ++ launched 0 (Z.to_nat (Pool1.initThreadSize_ (Pool1.pool s)))
            ∧ ∀ k, Pool1.threadMap_ (Pool1.pool s') !! k
                   = if decide (0 <= k < Pool1.initThreadSize_ (Pool1.pool s))
                     then Some {| threadId_ := k |} else None)
     ∧ (Pool1.generateId_ s ≠ 0 → Pool1.start s = Pool1.NullThreadHandle 0))
  ∧ (∀ (RType Fault : Type) (s : @Pool2.Process RType Fault),
     Pool2.threadMap_ (Pool2.pool s) = ∅ →
     0 < Pool2.initThreadSize_ (Pool2.pool s) →
     0 <= Pool2.generateId_ s →
     Pool2.generateId_ s + Pool2.initThreadSize_ (Pool2.pool s) <= INT_MAX →
     (Pool2.generateId_ s = 0 →
      ∃ s', Pool2.start s = Pool2.StartDone s'
            ∧ Pool2.threads s'
              = Pool2.threads s
                ++ launched 0 (Z.to_nat (Pool2.initThreadSize_ (Pool2.pool s)))
            ∧ ∀ k, Pool2.threadMap_ (Pool2.pool s') !! k
                   = if decide (0 <= k < Pool2.initThreadSize_ (Pool2.pool s))
                     then Some {| threadId_ := k |} else None)
     ∧ (Pool2.generateId_ s ≠ 0 → Pool2.start s = Pool2.NullThreadHandle 0)).
Proof.
  split.
  - intros Dyn Fault s He Hp Hg Hm.
    destruct (pool1_start_counter s He Hp Hg Hm) as [Hzero Hother].
    split; [|done]. intros H0.
    destruct (Hzero H0) as (m' & _ & Hm' & ->). eexists. split_and!; done.
  - intros RType Fault s He Hp Hg Hm.
    destruct (pool2_start_counter s He Hp Hg Hm) as [Hzero Hother].
    split; [|done]. intros H0.
    destruct (Hzero H0) as (m' & _ & Hm' & ->). eexists. split_and!; done.
Qed.

Lemma start_depends_on_global_counter_witness :
  (∃ s', Pool1.start (Examples.fixed1 0) = Pool1.StartDone s'
         ∧ Pool1.threads s' = [Build_worker 0 Entry 0])
  ∧ Pool1.start (Examples.fixed1 1) = Pool1.NullThreadHandle 0
  ∧ (∃ s', Pool2.start (Examples.fixed2 0) = Pool2.StartDone s'
           ∧ Pool2.threads s' = [Build_worker 0 Entry 0])
  ∧ Pool2.start (Examples.fixed2 1) = Pool2.NullThreadHandle 0.
Proof.
  split_and!.
  - destruct (proj1 start_depends_on_global_counter _ _ (Examples.fixed1 0))
      as [Hzero _]; [reflexivity|simpl; lia|simpl; lia|by vm_compute|].
    destruct Hzero as (s' & Hs & Hth & _); [reflexivity|].
    exists s'. split; [exact Hs|exact Hth].
  - apply (proj1 start_depends_on_global_counter _ _ (Examples.fixed1 1));
      [reflexivity|simpl; lia|simpl; lia|by vm_compute|simpl; lia].
  - destruct (proj2 start_depends_on_global_counter _ _ (Examples.fixed2 0))
      as [Hzero _]; [reflexivity|simpl; lia|simpl; lia|by vm_compute|].
    destruct Hzero as (s' & Hs & Hth & _); [reflexivity|].
    exists s'. split; [exact Hs|exact Hth].
  - apply (proj2 start_depends_on_global_counter _ _ (Examples.fixed2 1));
      [reflexivity|simpl; lia|simpl; lia|by vm_compute|simpl; lia].
Defined.

(** ** Draining on shutdown *)


(** ** Growing and shrinking *)

(** C6. In a cached pool built with valid arguments, a submission adds a
    thread exactly when it was accepted, the queue (with the new task in
    it) is longer than the idle count, and the thread count is below the
    limit; otherwise the threads, the registry and both counters stay as
    they are.  Either way the thread count stays within the limit.  The
    same holds in both designs. *)
Theorem cached_growth_on_submission :
  (∀ (Dyn Fault : Type) (run : nat -> outcome Fault (option Dyn))
     initThreadSize threadthreshhold taskthreshhold indeterminate g evs
     (s s' : Pool1.Process) sp,
     Pool1.valid_config
       (Pool1.ThreadPool_ctor initThreadSize threadthreshhold taskthreshhold
          MODE_CACHED indeterminate) →
     0 <= g <= INT_MAX →
     Pool1.steps run evs
       (Pool1.boot
          (Pool1.ThreadPool_ctor initThreadSize threadthreshhold
             taskthreshhold MODE_CACHED indeterminate) g) = Some s →
     Pool1.step run (Submit sp) s = Some s' →
     let grow :=
       Pool1.has_room (Pool1.pool s) = true
       ∧ Pool1.idleThreadNum_ (Pool1.pool s)
         < Z.of_nat (length (Pool1.taskQue_ (Pool1.pool s')))
       ∧ Pool1.curThreadNum_ (Pool1.pool s) < threadthreshhold in
     (grow → ∃ t, Pool1.grown_by t s s')
     ∧ (¬ grow → Pool1.same_size s s')
     ∧ Pool1.curThreadNum_ (Pool1.pool s) <= threadthreshhold
     ∧ Pool1.curThreadNum_ (Pool1.pool s') <= threadthreshhold)
  ∧ (∀ (RType Fault : Type) (RType_default : RType)
       initthreadsize maxthreadsize taskmaxsize g evs
       (s s' : @Pool2.Process RType Fault) bound,
     Pool2.valid_config
       (Pool2.ThreadPool_ctor MODE_CACHED initthreadsize maxthreadsize
          taskmaxsize) →
     0 <= g <= INT_MAX →
     Pool2.steps RType_default evs
       (Pool2.boot
          (Pool2.ThreadPool_ctor MODE_CACHED initthreadsize maxthreadsize
             taskmaxsize) g) = Some s →
     Pool2.step RType_default (Submit bound) s = Some s' →
     let grow :=
       Pool2.has_room (Pool2.pool s) = true
       ∧ Pool2.idleThreadNum_ (Pool2.pool s)
         < Z.of_nat (length (Pool2.taskQue_ (Pool2.pool s')))
       ∧ Pool2.currentThreadNum_ (Pool2.pool s) < maxthreadsize in
     (grow → ∃ t, Pool2.grown_by t s s')
     ∧ (¬ grow → Pool2.same_size s s')
     ∧ Pool2.currentThreadNum_ (Pool2.pool s) <= maxthreadsize
     ∧ Pool2.currentThreadNum_ (Pool2.pool s') <= maxthreadsize).
Proof.
  split.
  - intros Dyn Fault run i t q b g evs s s' sp Hv Hg Hs Hstep grow.
    destruct (pool1_reachable_facts run _ _ _ _ _ _ _ _ Hv Hg Hs)
      as (Hc & Hb & Hr & _ & _ & Hvs & Hcfg).
    unfold Pool1.config in Hcfg. injection Hcfg as Hi Ht Hq Hmode.
    destruct (pool1_submit_growth run sp s s' Hvs Hc Hb Hr _ eq_refl Hstep)
      as [Hgrow Hsame].
    pose proof (pool1_bounded_step run _ _ _ Hvs Hc Hb Hstep) as [Hcur' _].
    pose proof (pool1_step_config run _ _ _ Hstep) as Hcfg'.
    unfold Pool1.config in Hcfg'. injection Hcfg' as _ Ht' _ _.
    destruct Hb as [Hcur _]. rewrite Ht in *. rewrite Ht' in *.
    subst grow. split_and!; try done.
    + intros (? & ? & ?). apply Hgrow. by split_and!.
    + intros Hno. apply Hsame. intros (? & ? & ? & ?). apply Hno.
      by split_and!.
  - intros RType Fault d i m q g evs s s' bound Hv Hg Hs Hstep grow.
    destruct (pool2_reachable_facts d _ _ _ _ _ _ _ Hv Hg Hs)
      as (Hc & Hb & Hr & _ & _ & _ & Hvs & Hcfg).
    unfold Pool2.config in Hcfg. injection Hcfg as Hmode Hi Ht Hq.
    destruct (pool2_submit_growth d bound s s' Hvs Hc Hb Hr _ eq_refl Hstep)
      as [Hgrow Hsame].
    pose proof (pool2_bounded_step d _ _ _ Hvs Hc Hb Hstep) as [Hcur' _].
    pose proof (pool2_step_config d _ _ _ Hstep) as Hcfg'.
    unfold Pool2.config in Hcfg'. injection Hcfg' as _ _ Ht' _.
    destruct Hb as [Hcur _]. rewrite Ht in *. rewrite Ht' in *.
    subst grow. split_and!; try done.
    + intros (? & ? & ?). apply Hgrow. by split_and!.
    + intros Hno. apply Hsame. intros (? & ? & ? & ?). apply Hno.
      by split_and!.
Qed.

Lemma cached_growth_on_submission_witness :
  (∃ s s' t,
     Pool1.steps Examples.run ([Start; Submit 2%nat] ++ Examples.settle 0 0)
       Examples.cached1 = Some s
     ∧ Pool1.step Examples.run (Submit 3%nat) s = Some s'
     ∧ Pool1.grown_by t s s'
     ∧ Pool1.curThreadNum_ (Pool1.pool s') <= 2)
  ∧ (∃ s s' t,
       Pool2.steps 0 ([Start; Submit (fun _ => Examples.square 3)]
                      ++ Examples.settle 0 0) Examples.cached2 = Some s
       ∧ Pool2.step 0 (Submit (fun _ => Examples.square 4)) s = Some s'
       ∧ Pool2.grown_by t s s'
       ∧ Pool2.currentThreadNum_ (Pool2.pool s') <= 2).
Proof.
  destruct cached_growth_on_submission as [H1 H2].
  split.
  - pose (evs := [Start; Submit 2%nat]
                 ++ Examples.settle (A:=nat) 0 0).
    destruct (Pool1.steps Examples.run evs Examples.cached1) as [s|] eqn:Hs;
      [|by vm_compute in Hs].
    destruct (Pool1.step Examples.run (Submit 3%nat) s) as [s'|] eqn:Hs';
      [|vm_compute in Hs; injection Hs as <-; by vm_compute in Hs'].
    destruct (H1 _ _ Examples.run 1 2 4 false 0 evs s s' 3%nat)
      as (Hgrow & _ & _ & Hcur'); [| |exact Hs|exact Hs'|].
    + unfold Pool1.valid_config, in_int, INT_MIN, INT_MAX. simpl. lia.
    + by vm_compute.
    + destruct Hgrow as [t Ht].
      * vm_compute in Hs. injection Hs as <-.
        vm_compute in Hs'. injection Hs' as <-.
        split_and!; [reflexivity|simpl; lia|simpl; lia].
      * exists s, s', t. done.
  - pose (evs := [Start; Submit (fun _ => Examples.square 3)]
                 ++ Examples.settle (A:=unit -> outcome unit Z) 0 0).
    destruct (Pool2.steps 0 evs Examples.cached2) as [s|] eqn:Hs;
      [|by vm_compute in Hs].
    destruct (Pool2.step 0 (Submit (fun _ => Examples.square 4)) s)
      as [s'|] eqn:Hs';
      [|vm_compute in Hs; injection Hs as <-; by vm_compute in Hs'].
    destruct (H2 _ _ 0 1 2 4 0 evs s s' (fun _ => Examples.square 4))
      as (Hgrow & _ & _ & Hcur'); [| |exact Hs|exact Hs'|].
    + unfold Pool2.valid_config, in_int, INT_MIN, INT_MAX. simpl. lia.
    + by vm_compute.
    + destruct Hgrow as [t Ht].
      * vm_compute in Hs. injection Hs as <-.
        vm_compute in Hs'. injection Hs' as <-.
        split_and!; [reflexivity|simpl; lia|simpl; lia].
      * exists s, s', t. done.
Defined.

(** C7. In both designs a thread takes the idle return only from a
    timed-out [wait_for] of a cached pool, when at least
    [THREAD_MAX_IDLE_TIME] (60) seconds have passed since its [lastTime] and
    the thread count is above the initial size; it then erases its registry
    entry and decrements the thread count and the idle count by one.  So
    once [start()] has run the thread count is never below the initial
    size. *)
Theorem idle_return_only_above_initial_size :
  (∀ (Dyn Fault : Type) (run : nat -> outcome Fault (option Dyn))
     initThreadSize threadthreshhold taskthreshhold mode indeterminate g evs
     ev i (s s' : Pool1.Process),
     in_int initThreadSize → 0 <= g <= INT_MAX →
     Pool1.steps run evs
       (Pool1.boot
          (Pool1.ThreadPool_ctor initThreadSize threadthreshhold
             taskthreshhold mode indeterminate) g) = Some s →
     Pool1.step run ev s = Some s' →
     (Pool1.returns_at i ReturnedIdle s s' →
      ∃ now w,
        ev = Worker i now true
        ∧ Pool1.threads s !! i = Some w ∧ at_pc w = InWait
        ∧ mode = MODE_CACHED
        ∧ THREAD_MAX_IDLE_TIME <= seconds_between (lastTime w) now
        ∧ initThreadSize < Pool1.curThreadNum_ (Pool1.pool s)
        ∧ Pool1.threadMap_ (Pool1.pool s')
          = delete (threadid w) (Pool1.threadMap_ (Pool1.pool s))
        ∧ Pool1.curThreadNum_ (Pool1.pool s')
          = Pool1.curThreadNum_ (Pool1.pool s) - 1
        ∧ Pool1.idleThreadNum_ (Pool1.pool s')
          = Pool1.idleThreadNum_ (Pool1.pool s) - 1)
     ∧ (was_started (Pool1.owner s') = true →
        initThreadSize <= Pool1.curThreadNum_ (Pool1.pool s')))
  ∧ (∀ (RType Fault : Type) (RType_default : RType)
       poolmode initthreadsize maxthreadsize taskmaxsize g evs
       ev i (s s' : @Pool2.Process RType Fault),
     in_int initthreadsize → in_int maxthreadsize → 0 <= g <= INT_MAX →
     Pool2.steps RType_default evs
       (Pool2.boot
          (Pool2.ThreadPool_ctor poolmode initthreadsize maxthreadsize
             taskmaxsize) g) = Some s →
     Pool2.step RType_default ev s = Some s' →
     (Pool2.returns_at i ReturnedIdle s s' →
      ∃ now w,
        ev = Worker i now true
        ∧ Pool2.threads s !! i = Some w ∧ at_pc w = InWait
        ∧ poolmode = MODE_CACHED
        ∧ THREAD_MAX_IDLE_TIME <= seconds_between (lastTime w) now
        ∧ initthreadsize < Pool2.currentThreadNum_ (Pool2.pool s)
        ∧ Pool2.threadMap_ (Pool2.pool s')
          = delete (threadid w) (Pool2.threadMap_ (Pool2.pool s))
        ∧ Pool2.currentThreadNum_ (Pool2.pool s')
          = Pool2.currentThreadNum_ (Pool2.pool s) - 1
        ∧ Pool2.idleThreadNum_ (Pool2.pool s')
          = Pool2.idleThreadNum_ (Pool2.pool s) - 1)
     ∧ (was_started (Pool2.owner s') = true →
        initthreadsize <= Pool2.currentThreadNum_ (Pool2.pool s'))).
Proof.
  split.
  - intros Dyn Fault run i t q mode b g evs ev n s s' Hi Hg Hs Hstep.
    assert (Pool1.consistent s) as Hc.
    { eapply pool1_reachable_consistent; [exact Hi|exact Hg|by exists evs]. }
    pose proof (pool1_steps_config run _ _ _ Hs) as Hcfg.
    unfold Pool1.config in Hcfg. simpl in Hcfg.
    injection Hcfg as Hi' _ _ Hmode.
    pose proof (pool1_step_config run _ _ _ Hstep) as Hcfg'.
    unfold Pool1.config in Hcfg'. injection Hcfg' as Hi'' _ _ _.
    split.
    + intros Hret.
      destruct (pool1_returns_idle run _ _ _ _ Hc Hstep Hret)
        as (now & w & ? & ? & ? & ? & ? & ? & ? & ? & ?).
      exists now, w. rewrite <- Hi', <- Hmode. by split_and!.
    + intros Hst. rewrite <- Hi', <- Hi''.
      apply (Pool1.cur_floor s'); [|done].
      by eapply pool1_consistent_step.
  - intros RType Fault d mode i m q g evs ev n s s' Hi Hm Hg Hs Hstep.
    assert (Pool2.consistent s) as Hc.
    { eapply pool2_reachable_consistent;
        [exact Hi|exact Hm|exact Hg|by exists evs]. }
    pose proof (pool2_steps_config d _ _ _ Hs) as Hcfg.
    unfold Pool2.config in Hcfg. simpl in Hcfg.
    injection Hcfg as Hmode Hi' _ _.
    pose proof (pool2_step_config d _ _ _ Hstep) as Hcfg'.
    unfold Pool2.config in Hcfg'. injection Hcfg' as _ Hi'' _ _.
    split.
    + intros Hret.
      destruct (pool2_returns_idle d _ _ _ _ Hc Hstep Hret)
        as (now & w & ? & ? & ? & ? & ? & ? & ? & ? & ?).
      exists now, w. rewrite <- Hi', <- Hmode. by split_and!.
    + intros Hst. rewrite <- Hi', <- Hi''.
      apply (Pool2.cur_floor s'); [|done].
      by eapply pool2_consistent_step.
Qed.

Lemma idle_return_only_above_initial_size_witness :
  (∃ s s',
     Pool1.steps Examples.run (Examples.grow_and_settle 2%nat 3%nat)
       Examples.cached1 = Some s
     ∧ Pool1.step Examples.run (Worker 1 (60 * Examples.second) true) s
       = Some s'
     ∧ Pool1.curThreadNum_ (Pool1.pool s) = 2
     ∧ Pool1.curThreadNum_ (Pool1.pool s') = 1
     ∧ 1 <= Pool1.curThreadNum_ (Pool1.pool s'))
  ∧ (∃ s s',
       Pool2.steps 0
         (Examples.grow_and_settle (fun _ => Examples.square 3)
            (fun _ => Examples.square 4))
         Examples.cached2 = Some s
       ∧ Pool2.step 0 (Worker 1 (60 * Examples.second) true) s = Some s'
       ∧ Pool2.currentThreadNum_ (Pool2.pool s) = 2
       ∧ Pool2.currentThreadNum_ (Pool2.pool s') = 1
       ∧ 1 <= Pool2.currentThreadNum_ (Pool2.pool s')).
Proof.
  destruct idle_return_only_above_initial_size as [H1 H2].
  split.
  - eexists _, _.
    split; [vm_compute; reflexivity|].
    split; [vm_compute; reflexivity|].
    split; [reflexivity|]. split; [reflexivity|].
    eapply (H1 _ _ Examples.run 1 2 4 MODE_CACHED false 0
              (Examples.grow_and_settle 2%nat 3%nat)
              (Worker 1 (60 * Examples.second) true) 1%nat).
    + by vm_compute.
    + by vm_compute.
    + vm_compute. reflexivity.
    + vm_compute. reflexivity.
    + reflexivity.
  - eexists _, _.
    split; [vm_compute; reflexivity|].
    split; [vm_compute; reflexivity|].
    split; [reflexivity|]. split; [reflexivity|].
    eapply (H2 _ _ 0 MODE_CACHED 1 2 4 0
              (Examples.grow_and_settle (fun _ => Examples.square 3)
                 (fun _ => Examples.square 4))
              (Worker 1 (60 * Examples.second) true) 1%nat).
    + by vm_compute.
    + by vm_compute.
    + by vm_compute.
    + vm_compute. reflexivity.
    + vm_compute. reflexivity.
    + reflexivity.
Defined.

(** ** Order of service *)

(** C8. In a fixed pool with one thread, in both designs, what was
    accepted is, in this order: what has completed, then the task in the
    hands of the thread, then the queue.  So tasks complete in the order
    in which they were accepted. *)
Theorem single_worker_serves_in_order :
  (∀ (Dyn Fault : Type) (run : nat -> outcome Fault (option Dyn))
     threadthreshhold taskthreshhold indeterminate g evs (s : Pool1.Process),
     0 <= g <= INT_MAX →
     Pool1.steps run evs
       (Pool1.boot
          (Pool1.ThreadPool_ctor 1 threadthreshhold taskthreshhold
             MODE_FIXED indeterminate) g) = Some s →
     Pool1.accepted s
     = Pool1.completed s ++ in_flight (Pool1.threads s)
       ++ Pool1.taskQue_ (Pool1.pool s))
  ∧ (∀ (RType Fault : Type) (RType_default : RType)
       maxthreadsize taskmaxsize g evs (s : @Pool2.Process RType Fault),
     in_int maxthreadsize → 0 <= g <= INT_MAX →
     Pool2.steps RType_default evs
       (Pool2.boot
          (Pool2.ThreadPool_ctor MODE_FIXED 1 maxthreadsize taskmaxsize) g)
     = Some s →
     Pool2.accepted s
     = Pool2.completed s ++ in_flight (Pool2.threads s)
       ++ Pool2.taskQue_ (Pool2.pool s)).
Proof.
  split.
  - intros Dyn Fault run t q b g evs s Hg Hs.
    assert (Pool1.consistent
              (Pool1.boot (Dyn:=Dyn) (Fault:=Fault)
                 (Pool1.ThreadPool_ctor 1 t q MODE_FIXED b) g)) as Hc.
    { apply pool1_consistent_boot; [by vm_compute|done]. }
    pose proof (pool1_in_order_steps run _ _ _ Hc
                  ltac:(by intros _) Hs) as Hord.
    pose proof (pool1_fixed_size_steps run _ _ _ Hc
                  ltac:(by intros _) Hs) as Hfix.
    pose proof (pool1_steps_config run _ _ _ Hs) as Hcfg.
    unfold Pool1.config in Hcfg. simpl in Hcfg.
    injection Hcfg as Hi _ _ Hmode.
    apply Hord. rewrite (Hfix Hmode), Hi.
    destruct (was_started _); simpl; lia.
  - intros RType Fault d m q g evs s Hm Hg Hs.
    assert (Pool2.consistent
              (Pool2.boot (RType:=RType) (Fault:=Fault)
                 (Pool2.ThreadPool_ctor MODE_FIXED 1 m q) g)) as Hc.
    { apply pool2_consistent_boot; [by vm_compute|done|done]. }
    pose proof (pool2_in_order_steps d _ _ _ Hc
                  ltac:(by intros _) Hs) as Hord.
    pose proof (pool2_fixed_size_steps d _ _ _ Hc
                  ltac:(by intros _) Hs) as Hfix.
    pose proof (pool2_steps_config d _ _ _ Hs) as Hcfg.
    unfold Pool2.config in Hcfg. simpl in Hcfg.
    injection Hcfg as Hmode Hi _ _.
    apply Hord. rewrite (Hfix Hmode), Hi.
    destruct (was_started _); simpl; lia.
Qed.

Lemma single_worker_serves_in_order_witness :
  (∃ s,
     Pool1.steps Examples.run
       ([Start; Submit 2%nat; Submit 0%nat; Submit 3%nat]
        ++ Examples.serve 0 0 ++ Examples.settle 0 0) (Examples.fixed1 0)
     = Some s
     ∧ Pool1.completed s = [2%nat]
     ∧ Pool1.accepted s
       = Pool1.completed s ++ in_flight (Pool1.threads s)
         ++ Pool1.taskQue_ (Pool1.pool s))
  ∧ (∃ s,
       Pool2.steps 0
         ([Start; Submit (fun _ => Examples.square 3);
           Submit (fun _ => Examples.square 4)]
          ++ Examples.serve 0 0 ++ Examples.settle 0 0) (Examples.fixed2 0)
       = Some s
       ∧ Pool2.completed s = [0%nat]
       ∧ Pool2.accepted s
         = Pool2.completed s ++ in_flight (Pool2.threads s)
           ++ Pool2.taskQue_ (Pool2.pool s)).
Proof.
  destruct single_worker_serves_in_order as [H1 H2].
  split.
  - eexists. split; [vm_compute; reflexivity|]. split; [reflexivity|].
    eapply (H1 _ _ Examples.run 1024 4 false 0
              ([Start; Submit 2%nat; Submit 0%nat; Submit 3%nat]
               ++ Examples.serve 0 0 ++ Examples.settle 0 0)).
    + by vm_compute.
    + vm_compute. reflexivity.
  - eexists. split; [vm_compute; reflexivity|]. split; [reflexivity|].
    eapply (H2 _ _ 0 1024 2 0
              ([Start; Submit (fun _ => Examples.square 3);
                Submit (fun _ => Examples.square 4)]
               ++ Examples.serve 0 0 ++ Examples.settle 0 0)).
    + by vm_compute.
    + by vm_compute.
    + vm_compute. reflexivity.
Defined.

(** * Further properties of the two designs *)

(** ** Counters *)

(** X1. For a pool built with valid arguments, in both designs and in
    every reachable state: the task counter is the length of the queue,
    which is at most the capacity; and the idle count is between 0 and the
    thread count, which is at most the thread limit. *)
Theorem counters_within_bounds :
  (∀ (Dyn Fault : Type) (run : nat -> outcome Fault (option Dyn))
     initThreadSize threadthreshhold taskthreshhold mode indeterminate g evs
     (s : Pool1.Process),
     Pool1.valid_config
       (Pool1.ThreadPool_ctor initThreadSize threadthreshhold taskthreshhold
          mode indeterminate) →
     0 <= g <= INT_MAX →
     Pool1.steps run evs
       (Pool1.boot
          (Pool1.ThreadPool_ctor initThreadSize threadthreshhold
             taskthreshhold mode indeterminate) g) = Some s →
     Pool1.taskNum_ (Pool1.pool s)
     = Z.of_nat (length (Pool1.taskQue_ (Pool1.pool s)))
     ∧ Pool1.taskNum_ (Pool1.pool s) <= taskthreshhold
     ∧ 0 <= Pool1.idleThreadNum_ (Pool1.pool s)
       <= Pool1.curThreadNum_ (Pool1.pool s)
     ∧ Pool1.curThreadNum_ (Pool1.pool s) <= threadthreshhold)
  ∧ (∀ (RType Fault : Type) (RType_default : RType)
       poolmode initthreadsize maxthreadsize taskmaxsize g evs
       (s : @Pool2.Process RType Fault),
     Pool2.valid_config
       (Pool2.ThreadPool_ctor poolmode initthreadsize maxthreadsize
          taskmaxsize) →
     0 <= g <= INT_MAX →
     Pool2.steps RType_default evs
       (Pool2.boot
          (Pool2.ThreadPool_ctor poolmode initthreadsize maxthreadsize
             taskmaxsize) g) = Some s →
     Pool2.taskSize_ (Pool2.pool s)
     = Z.of_nat (length (Pool2.taskQue_ (Pool2.pool s)))
     ∧ Pool2.taskSize_ (Pool2.pool s) <= taskmaxsize
     ∧ 0 <= Pool2.idleThreadNum_ (Pool2.pool s)
       <= Pool2.currentThreadNum_ (Pool2.pool s)
     ∧ Pool2.currentThreadNum_ (Pool2.pool s) <= maxthreadsize).
Proof.
  split.
  - intros Dyn Fault run i t q mode b g evs s Hv Hg Hs.
    destruct (pool1_reachable_facts run _ _ _ _ _ _ _ _ Hv Hg Hs)
      as (Hc & [Hcur Hque] & _ & _ & _ & Hvs & Hcfg).
    unfold Pool1.config in Hcfg. injection Hcfg as Hi Ht Hq Hmode.
    destruct Hvs as (_ & _ & Hqi & _ & _).
    rewrite Hq, Ht in *.
    pose proof (Pool1.taskNum_queue s Hc) as Hnum.
    rewrite wrap_int_small in Hnum
      by (unfold in_int, INT_MIN, INT_MAX in *; lia).
    rewrite (Pool1.idle_threads s Hc), (Pool1.cur_threads s Hc).
    pose proof (total_bounds idle_share (Pool1.threads s) idle_share_bounds).
    pose proof (total_le idle_share cur_share (Pool1.threads s)
                  idle_share_le_cur).
    rewrite (Pool1.cur_threads s Hc) in Hcur.
    split_and!; try lia.
  - intros RType Fault d mode i m q g evs s Hv Hg Hs.
    destruct (pool2_reachable_facts d _ _ _ _ _ _ _ Hv Hg Hs)
      as (Hc & [Hcur Hque] & _ & _ & _ & _ & Hvs & Hcfg).
    unfold Pool2.config in Hcfg. injection Hcfg as Hmode Hi Ht Hq.
    destruct Hvs as (_ & _ & Hqi & [Hpos _] & _).
    rewrite Hq, Ht in *.
    pose proof (Pool2.taskSize_queue s Hc) as Hnum.
    rewrite wrap_int_small in Hnum
      by (unfold in_int, INT_MIN, INT_MAX in *; lia).
    rewrite (Pool2.cur_threads s Hc) in * by lia.
    rewrite (Pool2.idle_threads s Hc).
    pose proof (total_bounds idle_share (Pool2.threads s) idle_share_bounds).
    pose proof (total_le idle_share cur_share (Pool2.threads s)
                  idle_share_le_cur).
    split_and!; try lia.
Qed.

Lemma counters_within_bounds_witness :
  (∃ s,
     Pool1.steps Examples.run (Examples.grow_and_settle 2%nat 3%nat)
       Examples.cached1 = Some s
     ∧ Pool1.taskNum_ (Pool1.pool s) <= 4
     ∧ 0 <= Pool1.idleThreadNum_ (Pool1.pool s)
       <= Pool1.curThreadNum_ (Pool1.pool s)
     ∧ Pool1.curThreadNum_ (Pool1.pool s) <= 2)
  ∧ (∃ s,
       Pool2.steps 0
         (Examples.grow_and_settle (fun _ => Examples.square 3)
            (fun _ => Examples.square 4))
         Examples.cached2 = Some s
       ∧ Pool2.taskSize_ (Pool2.pool s) <= 4
       ∧ 0 <= Pool2.idleThreadNum_ (Pool2.pool s)
         <= Pool2.currentThreadNum_ (Pool2.pool s)
       ∧ Pool2.currentThreadNum_ (Pool2.pool s) <= 2).
Proof.
  destruct counters_within_bounds as [H1 H2].
  split.
  - eexists. split; [vm_compute; reflexivity|].
    eapply (H1 _ _ Examples.run 1 2 4 MODE_CACHED false 0
              (Examples.grow_and_settle 2%nat 3%nat)).
    + unfold Pool1.valid_config, in_int, INT_MIN, INT_MAX. simpl. lia.
    + by vm_compute.
    + vm_compute. reflexivity.
  - eexists. split; [vm_compute; reflexivity|].
    eapply (H2 _ _ 0 MODE_CACHED 1 2 4 0
              (Examples.grow_and_settle (fun _ => Examples.square 3)
                 (fun _ => Examples.square 4))).
    + unfold Pool2.valid_config, in_int, INT_MIN, INT_MAX. simpl. lia.
    + by vm_compute.
    + vm_compute. reflexivity.
Defined.

(** ** Threads and registry *)

(** X2. A fixed pool keeps the threads that [start()] made, in both
    designs: once started, the thread count is the initial size, as many
    threads exist, and none of them has taken the idle return. *)
Theorem fixed_pool_keeps_its_threads :
  (∀ (Dyn Fault : Type) (run : nat -> outcome Fault (option Dyn))
     initThreadSize threadthreshhold taskthreshhold indeterminate g evs
     (s : Pool1.Process),
     in_int initThreadSize → 0 <= initThreadSize → 0 <= g <= INT_MAX →
     Pool1.steps run evs
       (Pool1.boot
          (Pool1.ThreadPool_ctor initThreadSize threadthreshhold
             taskthreshhold MODE_FIXED indeterminate) g) = Some s →
     was_started (Pool1.owner s) = true →
     Pool1.curThreadNum_ (Pool1.pool s) = initThreadSize
     ∧ Z.of_nat (length (Pool1.threads s)) = initThreadSize
     ∧ Forall (fun w => at_pc w ≠ ReturnedIdle) (Pool1.threads s))
  ∧ (∀ (RType Fault : Type) (RType_default : RType)
       initthreadsize maxthreadsize taskmaxsize g evs
       (s : @Pool2.Process RType Fault),
     in_int initthreadsize → in_int maxthreadsize → 0 <= initthreadsize →
     0 <= g <= INT_MAX →
     Pool2.steps RType_default evs
       (Pool2.boot
          (Pool2.ThreadPool_ctor MODE_FIXED initthreadsize maxthreadsize
             taskmaxsize) g) = Some s →
     was_started (Pool2.owner s) = true →
     Pool2.currentThreadNum_ (Pool2.pool s) = initthreadsize
     ∧ Z.of_nat (length (Pool2.threads s)) = initthreadsize
     ∧ Forall (fun w => at_pc w ≠ ReturnedIdle) (Pool2.threads s)).
Proof.
  split.
  - intros Dyn Fault run i t q b g evs s Hi Hpos Hg Hs Hst.
    destruct (pool1_reachable_more run _ _ _ _ _ _ _ _ Hi Hg Hs)
      as (Hc & _ & _ & _ & _ & _ & Hcfg).
    unfold Pool1.config in Hcfg. injection Hcfg as Hinit _ _ Hmode.
    assert (Forall (fun w => at_pc w ≠ ReturnedIdle) (Pool1.threads s))
      as Hall.
    { eapply (pool1_fixed_threads_steps run); [| |exact Hs]; simpl; done. }
    assert (Pool1.fixed_size s) as Hfix.
    { eapply (pool1_fixed_size_steps run); [| |exact Hs].
      - by apply pool1_consistent_boot.
      - intros _. done. }
    specialize (Hfix Hmode). rewrite Hst, Hinit in Hfix.
    rewrite (Pool1.cur_threads s Hc), (total_cur_no_idle _ Hall), Hfix.
    split_and!; [lia|lia|done].
  - intros RType Fault d i m q g evs s Hi Hm Hpos Hg Hs Hst.
    destruct (pool2_reachable_more d _ _ _ _ _ _ _ Hi Hm Hg Hs)
      as (Hc & _ & _ & _ & _ & _ & _ & _ & Hcfg).
    unfold Pool2.config in Hcfg. injection Hcfg as Hmode Hinit _ _.
    assert (Forall (fun w => at_pc w ≠ ReturnedIdle) (Pool2.threads s))
      as Hall.
    { eapply (pool2_fixed_threads_steps d); [| |exact Hs]; simpl; done. }
    assert (Pool2.fixed_size s) as Hfix.
    { eapply (pool2_fixed_size_steps d); [| |exact Hs].
      - by apply pool2_consistent_boot.
      - intros _. done. }
    specialize (Hfix Hmode). rewrite Hst, Hinit in Hfix.
    rewrite (Pool2.cur_threads s Hc) by (rewrite Hinit; lia).
    rewrite (total_cur_no_idle _ Hall), Hfix.
    split_and!; [lia|lia|done].
Qed.

Lemma fixed_pool_keeps_its_threads_witness :
  (∃ s,
     Pool1.steps Examples.run (Examples.serve_one 0%nat) (Examples.fixed1 0)
     = Some s
     ∧ Pool1.curThreadNum_ (Pool1.pool s) = 1
     ∧ Z.of_nat (length (Pool1.threads s)) = 1
     ∧ Forall (fun w => at_pc w ≠ ReturnedIdle) (Pool1.threads s))
  ∧ (∃ s,
       Pool2.steps 0 (Examples.serve_one (fun _ => Examples.square 3))
         (Examples.fixed2 0) = Some s
       ∧ Pool2.currentThreadNum_ (Pool2.pool s) = 1
       ∧ Z.of_nat (length (Pool2.threads s)) = 1
       ∧ Forall (fun w => at_pc w ≠ ReturnedIdle) (Pool2.threads s)).
Proof.
  destruct fixed_pool_keeps_its_threads as [H1 H2].
  split.
  - eexists. split; [vm_compute; reflexivity|].
    eapply (H1 _ _ Examples.run 1 1024 4 false 0
              (Examples.serve_one 0%nat)).
    + by vm_compute.
    + lia.
    + by vm_compute.
    + vm_compute. reflexivity.
    + reflexivity.
  - eexists. split; [vm_compute; reflexivity|].
    eapply (H2 _ _ 0 1 1024 2 0
              (Examples.serve_one (fun _ => Examples.square 3))).
    + by vm_compute.
    + by vm_compute.
    + lia.
    + by vm_compute.
    + vm_compute. reflexivity.
    + reflexivity.
Defined.

(** X3. In both designs the registry holds exactly the threads that have
    not left [threadFunc]: a key is present if and only if a thread with
    that identity is still inside.  And no two threads of the pool were
    given the same identity. *)
Theorem registry_holds_the_live_threads :
  (∀ (Dyn Fault : Type) (run : nat -> outcome Fault (option Dyn))
     initThreadSize threadthreshhold taskthreshhold mode indeterminate g evs
     (s : Pool1.Process),
     in_int initThreadSize → 0 <= g <= INT_MAX →
     Pool1.steps run evs
       (Pool1.boot
          (Pool1.ThreadPool_ctor initThreadSize threadthreshhold
             taskthreshhold mode indeterminate) g) = Some s →
     (∀ k, is_Some (Pool1.threadMap_ (Pool1.pool s) !! k)
           ↔ ∃ i w, Pool1.threads s !! i = Some w ∧ threadid w = k
                    ∧ has_returned w = false)
     ∧ (∀ i j wi wj,
          Pool1.threads s !! i = Some wi → Pool1.threads s !! j = Some wj →
          threadid wi = threadid wj → i = j))
  ∧ (∀ (RType Fault : Type) (RType_default : RType)
       poolmode initthreadsize maxthreadsize taskmaxsize g evs
       (s : @Pool2.Process RType Fault),
     in_int initthreadsize → in_int maxthreadsize → 0 <= g <= INT_MAX →
     Pool2.steps RType_default evs
       (Pool2.boot
          (Pool2.ThreadPool_ctor poolmode initthreadsize maxthreadsize
             taskmaxsize) g) = Some s →
     (∀ k, is_Some (Pool2.threadMap_ (Pool2.pool s) !! k)
           ↔ ∃ i w, Pool2.threads s !! i = Some w ∧ threadid w = k
                    ∧ has_returned w = false)
     ∧ (∀ i j wi wj,
          Pool2.threads s !! i = Some wi → Pool2.threads s !! j = Some wj →
          threadid wi = threadid wj → i = j)).
Proof.
  split.
  - intros Dyn Fault run i t q mode b g evs s Hi Hg Hs.
    destruct (pool1_reachable_more run _ _ _ _ _ _ _ _ Hi Hg Hs)
      as (_ & _ & He & Ha & _).
    split.
    + intros k. split; [apply Ha|].
      intros (n & w & Hw & <- & Hl). by apply (He n w Hw).
    + intros n j wi wj Hwi Hwj Hid.
      destruct (He j wj Hwj) as (_ & _ & Hdis). by apply (Hdis n wi).
  - intros RType Fault d mode i m q g evs s Hi Hm Hg Hs.
    destruct (pool2_reachable_more d _ _ _ _ _ _ _ Hi Hm Hg Hs)
      as (_ & _ & He & Ha & _).
    split.
    + intros k. split; [apply Ha|].
      intros (n & w & Hw & <- & Hl). by apply (He n w Hw).
    + intros n j wi wj Hwi Hwj Hid.
      destruct (He j wj Hwj) as (_ & _ & Hdis). by apply (Hdis n wi).
Qed.

Lemma registry_holds_the_live_threads_witness :
  (∃ s,
     Pool1.steps Examples.run (Examples.grow_and_settle 2%nat 3%nat)
       Examples.cached1 = Some s
     ∧ (is_Some (Pool1.threadMap_ (Pool1.pool s) !! 1)
        ↔ ∃ i w, Pool1.threads s !! i = Some w ∧ threadid w = 1
                 ∧ has_returned w = false))
  ∧ (∃ s,
       Pool2.steps 0
         (Examples.grow_and_settle (fun _ => Examples.square 3)
            (fun _ => Examples.square 4))
         Examples.cached2 = Some s
       ∧ (is_Some (Pool2.threadMap_ (Pool2.pool s) !! 1)
          ↔ ∃ i w, Pool2.threads s !! i = Some w ∧ threadid w = 1
                   ∧ has_returned w = false)).
Proof.
  destruct registry_holds_the_live_threads as [H1 H2].
  split.
  - eexists. split; [vm_compute; reflexivity|].
    eapply (H1 _ _ Examples.run 1 2 4 MODE_CACHED false 0
              (Examples.grow_and_settle 2%nat 3%nat)).
    + by vm_compute.
    + by vm_compute.
    + vm_compute. reflexivity.
  - eexists. split; [vm_compute; reflexivity|].
    eapply (H2 _ _ 0 MODE_CACHED 1 2 4 0
              (Examples.grow_and_settle (fun _ => Examples.square 3)
                 (fun _ => Examples.square 4))).
    + by vm_compute.
    + by vm_compute.
    + by vm_compute.
    + vm_compute. reflexivity.
Defined.

(** X4. The destructor of ThreadPool1.0 waits for every thread: its
    predicate, [threadMap_.size() == 0], holds exactly when all threads of
    the pool have left [threadFunc]; so when the destructor has returned,
    they all have. *)
Theorem destructor1_waits_for_every_thread
    (Dyn Fault : Type) (run : nat -> outcome Fault (option Dyn))
    initThreadSize threadthreshhold taskthreshhold mode indeterminate g evs
    (s : Pool1.Process) :
  in_int initThreadSize → 0 <= g <= INT_MAX →
  Pool1.steps run evs
    (Pool1.boot
       (Pool1.ThreadPool_ctor initThreadSize threadthreshhold
          taskthreshhold mode indeterminate) g) = Some s →
  (Pool1.destructor_may_return (Pool1.pool s) = true
   ↔ Forall (fun w => has_returned w = true) (Pool1.threads s))
  ∧ (∀ b, Pool1.owner s = Destroyed b →
          Forall (fun w => has_returned w = true) (Pool1.threads s)).
Proof.
  intros Hi Hg Hs.
  destruct (pool1_reachable_more run _ _ _ _ _ _ _ _ Hi Hg Hs)
    as (_ & _ & He & Ha & Hd & _).
  assert (Pool1.destructor_may_return (Pool1.pool s) = true
          ↔ Forall (fun w => has_returned w = true) (Pool1.threads s))
    as Hiff.
  { unfold Pool1.destructor_may_return.
    rewrite bool_decide_eq_true, map_size_empty_iff. split.
    - intros Hempty. by eapply enrolled_in_returned.
    - intros Hall. by eapply attended_by_empty. }
  split; [done|]. intros b Hb. apply Hiff. by eapply Hd.
Qed.

Lemma destructor1_waits_for_every_thread_witness :
  ∃ s,
    Pool1.steps Examples.run
      (Examples.serve_one 0%nat ++ Examples.shut_down) (Examples.fixed1 0)
    = Some s
    ∧ Pool1.owner s = Destroyed true
    ∧ Forall (fun w => has_returned w = true) (Pool1.threads s).
Proof.
  eexists. split; [vm_compute; reflexivity|]. split; [reflexivity|].
  eapply (destructor1_waits_for_every_thread _ _ Examples.run 1 1024 4
            MODE_FIXED false 0
            (Examples.serve_one 0%nat ++ Examples.shut_down)).
  - by vm_compute.
  - by vm_compute.
  - vm_compute. reflexivity.
  - reflexivity.
Defined.



(** ** Results of ThreadPool1.0 *)

(** X6. [Semaphore]: a [post] followed by a [wait] returns without
    suspending and leaves the count as it was; a [wait] on a count that is
    not positive suspends. *)
Theorem semaphore_post_then_wait (m : Pool1.Semaphore) :
  (0 <= Pool1.resLimit_ m < INT_MAX →
   ∃ m1, Pool1.Semaphore_post m = Some m1
         ∧ Pool1.Semaphore_wait m1 = Returns m)
  ∧ (Pool1.resLimit_ m <= 0 → Pool1.Semaphore_wait m = Blocks).
Proof.
  destruct m as [n]. unfold Pool1.Semaphore_post, Pool1.Semaphore_wait.
  simpl. split.
  - intros Hn. destruct (n <? INT_MAX) eqn:Hlt.
    + eexists. split; [done|]. simpl.
      destruct (0 <? n + 1) eqn:Hpos.
      * do 2 f_equal. lia.
      * apply Z.ltb_ge in Hpos. lia.
    + apply Z.ltb_ge in Hlt. lia.
  - intros Hn. destruct (0 <? n) eqn:Hpos; [|done].
    apply Z.ltb_lt in Hpos. lia.
Qed.

Lemma semaphore_post_then_wait_witness :
  (∃ m1, Pool1.Semaphore_post {| Pool1.resLimit_ := 0 |} = Some m1
         ∧ Pool1.Semaphore_wait m1 = Returns {| Pool1.resLimit_ := 0 |})
  ∧ Pool1.Semaphore_wait {| Pool1.resLimit_ := 0 |} = Blocks.
Proof.
  destruct (semaphore_post_then_wait {| Pool1.resLimit_ := 0 |}) as [H1 H2].
  split.
  - apply H1. by vm_compute.
  - apply H2. simpl. lia.
Defined.

(** X7. On the branch of [Result::get] that waits (the handle is marked
    invalid), [setVal] and [get] compose: [get] blocks before the value is
    posted, returns exactly the posted [Any] afterwards, and moves it out,
    so that a second [get] blocks again. *)
Theorem result_value_moved_out_once {Dyn : Type} (cstr_empty : Dyn)
    (v : option Dyn) (r : @Pool1.Result Dyn) :
  Pool1.isValid_ r = false → Pool1.resLimit_ (Pool1.sem_ r) = 0 →
  Pool1.Result_get cstr_empty r = Blocks
  ∧ ∃ r1 r2,
      Pool1.Result_setVal v r = Some r1
      ∧ Pool1.Result_get cstr_empty r1 = Returns (v, r2)
      ∧ Pool1.any_ r2 = None
      ∧ Pool1.Result_get cstr_empty r2 = Blocks.
Proof.
  destruct r as [a [n] t valid]. simpl. intros -> ->.
  split; [done|]. eexists _, _. split_and!; done.
Qed.

Lemma result_value_moved_out_once_witness :
  ∃ r1 r2,
    Pool1.Result_setVal (Some (Examples.Derive_int 42))
      (Pool1.Result_init 0 false) = Some r1
    ∧ Pool1.Result_get Examples.cstr_empty r1
      = Returns (Some (Examples.Derive_int 42), r2)
    ∧ Pool1.any_ r2 = None
    ∧ Pool1.Result_get Examples.cstr_empty r2 = Blocks.
Proof.
  apply (result_value_moved_out_once Examples.cstr_empty
           (Some (Examples.Derive_int 42)) (Pool1.Result_init 0 false));
    reflexivity.
Defined.

(** X8. [Any]: [cast<T>] on an [Any] built from a value of type [T] gives
    that value back; [cast] at any other type, or on an [Any] that holds
    nothing (default-constructed or moved from), throws. *)
Theorem any_cast_round_trip {Ty : Type} `{EqDecision Ty} (El : Ty -> Type)
    (T U : Ty) (data : El T) :
  Any_cast El T (Any_of El T data) = Value data
  ∧ (U ≠ T → Any_cast El U (Any_of El T data) = Raise type_is_unmatch)
  ∧ Any_cast El U None = Raise type_is_unmatch.
Proof.
  unfold Any_cast, Any_of. split_and!.
  - destruct (decide (T = T)) as [e|Hne]; [|done].
    by rewrite (proof_irrel e eq_refl).
  - intros Hne. destruct (decide (T = U)) as [e|_]; [|done].
    by destruct Hne.
  - done.
Qed.

Lemma any_cast_round_trip_witness :
  Any_cast Examples.El Examples.T_int
    (Any_of Examples.El Examples.T_int 42) = Value 42
  ∧ Any_cast Examples.El Examples.T_cstr
      (Any_of Examples.El Examples.T_int 42) = Raise type_is_unmatch.
Proof.
  destruct (any_cast_round_trip Examples.El Examples.T_int Examples.T_cstr
              (42 : Examples.El Examples.T_int)) as (H1 & H2 & _).
  split; [exact H1|]. apply H2. by vm_compute.
Defined.

(** X9. What a client of ThreadPool1.0 reads from an accepted submission:
    [get()] on a handle marked valid gives the [Any] made from the empty
    string literal, so [cast<T>] on it throws for every [T] other than the
    type of that literal. *)
Theorem accepted_result_cast_throws {Ty : Type} `{EqDecision Ty}
    (El : Ty -> Type) (cstr : Ty) (empty : El cstr) (T : Ty)
    (r : @Pool1.Result (Any_Base El)) :
  Pool1.isValid_ r = true → T ≠ cstr →
  ∃ any r',
    Pool1.Result_get (existT cstr empty : Any_Base El) r = Returns (any, r')
    ∧ Any_cast El T any = Raise type_is_unmatch.
Proof.
  intros Hvalid Hne. exists (Some (existT cstr empty)), r.
  split; [unfold Pool1.Result_get; by rewrite Hvalid|]. unfold Any_cast.
  destruct (decide (cstr = T)) as [e|_]; [|done]. by destruct Hne.
Qed.

Lemma accepted_result_cast_throws_witness :
  ∃ s r any r',
    Pool1.steps Examples.run_int (Examples.serve_one 0%nat)
      (Pool1.boot (Pool1.ThreadPool_ctor 1 1024 4 MODE_FIXED false) 0)
    = Some s
    ∧ Pool1.results s !! 0%nat = Some r
    ∧ Pool1.any_ r = Any_of Examples.El Examples.T_int 1
    ∧ Pool1.Result_get Examples.empty_literal r = Returns (any, r')
    ∧ Any_cast Examples.El Examples.T_int any = Raise type_is_unmatch.
Proof.
  eexists _, _.
  assert (∀ (P Q R : Prop), P → Q → R → P ∧ Q ∧ R) as Hconj by tauto.
  destruct (accepted_result_cast_throws Examples.El Examples.T_cstr
              ([] : Examples.El Examples.T_cstr) Examples.T_int
              {| Pool1.any_ := Any_of Examples.El Examples.T_int 1;
                 Pool1.sem_ := {| Pool1.resLimit_ := 1 |};
                 Pool1.task_ := 0%nat; Pool1.isValid_ := true |})
    as (any & r' & Hget & Hcast); [reflexivity|by vm_compute|].
  exists any, r'. split_and!; [by vm_compute|by vm_compute|done| |done].
  exact Hget.
Defined.

(** X10. [Task::exec], with the read of [result_], the call of [run] and
    the post as separate moves, in any interleaving with the construction
    and the destruction of [Result] objects.  A thread that leaves [exec]
    of a task whose [run] returned [v] writes through the pointer it read on
    entry, and nowhere else.  If the [Result] read is still alive, it is
    one made for this task; it receives [v] and one more unit on its
    semaphore.  If its owner has destroyed it meanwhile, the write goes
    through a dangling pointer.  As long as no [Result] has been destroyed,
    the [Result] read is alive. *)
Theorem exec_posts_through_the_pointer_read
    (Dyn Fault : Type) (run : nat -> outcome Fault (option Dyn))
    evs (h : Pool1.Heap) n task a v :
  Pool1.heap_steps run evs Pool1.new_heap = Some h →
  Pool1.in_exec h !! n = Some (task, a) →
  run task = Value v →
  (∀ r, Pool1.objects h !! a = Some r →
        Pool1.task_ r = task
        ∧ (Pool1.resLimit_ (Pool1.sem_ r) < INT_MAX →
           Pool1.heap_step run (Pool1.ExecEnd n) h =
             Pool1.Next
               (Pool1.set_objects
                  (<[a := {| Pool1.any_ := v;
                             Pool1.sem_ :=
                               {| Pool1.resLimit_ :=
                                    Pool1.resLimit_ (Pool1.sem_ r) + 1 |};
                             Pool1.task_ := Pool1.task_ r;
                             Pool1.isValid_ := Pool1.isValid_ r |}]>
                     (Pool1.objects h))
                  (Pool1.set_in_exec (delete n (Pool1.in_exec h)) h))))
  ∧ (Pool1.objects h !! a = None →
     Pool1.heap_step run (Pool1.ExecEnd n) h = Pool1.Undefined)
  ∧ (Forall (fun ev => ∀ b, ev ≠ Pool1.DeleteResult b) evs →
     is_Some (Pool1.objects h !! a)).
Proof.
  intros Hs Hn Hrun.
  pose proof (heap_ok_steps run _ _ _ heap_ok_new Hs) as (_ & Hin & _).
  destruct (Hin _ _ _ Hn) as [Hlt Hmade].
  split_and!.
  - intros r Hr. split; [by apply Hmade|]. intros Hsem.
    unfold Pool1.heap_step, Pool1.Result_setVal, Pool1.Semaphore_post.
    rewrite Hn, Hrun, Hr. simpl. apply Z.ltb_lt in Hsem. by rewrite Hsem.
  - intros Hnone. unfold Pool1.heap_step. by rewrite Hn, Hrun, Hnone.
  - intros Hall. eapply (all_kept_steps run); [|exact Hall|exact Hs|exact Hlt].
    intros a0. simpl. lia.
Qed.

Lemma exec_posts_through_the_pointer_read_witness :
  (∃ h h' r',
     Pool1.heap_steps Examples.run
       [Pool1.NewResult 0 true; Pool1.ExecBegin 7 0] Pool1.new_heap = Some h
     ∧ Pool1.heap_step Examples.run (Pool1.ExecEnd 7) h = Pool1.Next h'
     ∧ Pool1.objects h' !! 0%nat = Some r'
     ∧ Pool1.any_ r' = Some (Examples.Derive_int 42)
     ∧ Pool1.resLimit_ (Pool1.sem_ r') = 1)
  ∧ (∃ h,
       Pool1.heap_steps Examples.run
         [Pool1.NewResult 0 true; Pool1.ExecBegin 7 0; Pool1.DeleteResult 0]
         Pool1.new_heap = Some h
       ∧ Pool1.heap_step Examples.run (Pool1.ExecEnd 7) h
         = Pool1.Undefined).
Proof.
  split.
  - eexists _, _, _. split; [vm_compute; reflexivity|].
    destruct (exec_posts_through_the_pointer_read _ _ Examples.run
                [Pool1.NewResult 0 true; Pool1.ExecBegin 7 0]
                (default Pool1.new_heap
                   (Pool1.heap_steps Examples.run
                      [Pool1.NewResult 0 true; Pool1.ExecBegin 7 0]
                      Pool1.new_heap))
                7%nat 0%nat 0%nat (Some (Examples.Derive_int 42)))
      as (Hpost & _ & _);
      [vm_compute; reflexivity|reflexivity|reflexivity|].
    destruct (Hpost (Pool1.Result_init 0 true)) as [_ Hstep];
      [reflexivity|].
    split; [apply Hstep; by vm_compute|].
    split; [reflexivity|]. split; reflexivity.
  - eexists. split; [vm_compute; reflexivity|].
    eapply (exec_posts_through_the_pointer_read _ _ Examples.run
              [Pool1.NewResult 0 true; Pool1.ExecBegin 7 0;
               Pool1.DeleteResult 0]
              _ 7%nat 0%nat 0%nat (Some (Examples.Derive_int 42)));
      [vm_compute; reflexivity|reflexivity|reflexivity|reflexivity].
Defined.

(** X11. Submitting a task object again redirects its [result_] to the new
    [Result].  If at that moment no thread is inside [exec] with the earlier
    [Result] read, then nothing leads to the earlier [Result] any more and
    nothing ever will: no later move writes it, so it stays as it is until
    its owner destroys it, which then harms no one.  If a thread is inside
    [exec] with the earlier [Result] read, its post still goes to the
    earlier [Result] and the new one receives nothing from it. *)
Theorem resubmitted_task_orphans_result1
    (Dyn Fault : Type) (run : nat -> outcome Fault (option Dyn))
    evs0 (h0 : Pool1.Heap) a r valid :
  Pool1.heap_steps run evs0 Pool1.new_heap = Some h0 →
  Pool1.objects h0 !! a = Some r →
  let h := Pool1.heap_new_Result (Pool1.task_ r) valid h0 in
  Pool1.task_result_ h !! Pool1.task_ r = Some (Pool1.next_address h0)
  ∧ Pool1.next_address h0 ≠ a
  ∧ ((∀ n t, Pool1.in_exec h0 !! n ≠ Some (t, a)) →
     ∀ evs h',
       Pool1.heap_steps run evs h = Some h' →
       Pool1.orphaned a h'
       ∧ (Pool1.DeleteResult a ∉ evs → Pool1.objects h' !! a = Some r))
  ∧ (∀ n v,
       Pool1.in_exec h0 !! n = Some (Pool1.task_ r, a) →
       run (Pool1.task_ r) = Value v →
       Pool1.resLimit_ (Pool1.sem_ r) < INT_MAX →
       ∃ h',
         Pool1.heap_step run (Pool1.ExecEnd n) h = Pool1.Next h'
         ∧ (∃ r', Pool1.objects h' !! a = Some r' ∧ Pool1.any_ r' = v
                  ∧ Pool1.resLimit_ (Pool1.sem_ r')
                    = Pool1.resLimit_ (Pool1.sem_ r) + 1)
         ∧ Pool1.objects h' !! Pool1.next_address h0
           = Some (Pool1.Result_init (Pool1.task_ r) valid)).
Proof.
  intros Hs Ha h.
  pose proof (heap_ok_steps run _ _ _ heap_ok_new Hs) as (Hptr & Hin & Hobj).
  pose proof (Hobj _ _ Ha) as Hlt.
  split_and!.
  - unfold h, Pool1.heap_new_Result. simpl. by rewrite lookup_insert_eq.
  - lia.
  - intros Hnone evs h' Hs'.
    assert (Pool1.orphaned a h) as Ho.
    { unfold h, Pool1.orphaned, Pool1.heap_new_Result. simpl.
      split_and!; [|done|lia].
      intros t. rewrite lookup_insert_Some. intros [[_ Heq]|[Hne Ht]]; [lia|].
      destruct (Hptr _ _ Ht) as [_ Hmade]. apply Hne. by apply Hmade. }
    destruct (orphaned_steps run _ _ _ _ Ho Hs') as [Ho' Hsame].
    split; [done|]. intros Hnot. rewrite (Hsame Hnot).
    unfold h, Pool1.heap_new_Result. simpl.
    by rewrite lookup_insert_ne by lia.
  - intros n v Hn Hrun Hsem.
    unfold Pool1.heap_step, Pool1.Result_setVal, Pool1.Semaphore_post.
    unfold h, Pool1.heap_new_Result. simpl. rewrite Hn, Hrun.
    rewrite lookup_insert_ne by lia. rewrite Ha. simpl.
    apply Z.ltb_lt in Hsem. rewrite Hsem. simpl.
    eexists. split; [done|]. simpl. split.
    + eexists. rewrite lookup_insert_eq. split; [done|]. done.
    + rewrite lookup_insert_ne by lia. by rewrite lookup_insert_eq.
Qed.

Lemma resubmitted_task_orphans_result1_witness :
  (∃ h0 h',
     Pool1.heap_steps Examples.run [Pool1.NewResult 0 true] Pool1.new_heap
     = Some h0
     ∧ Pool1.heap_steps Examples.run
         [Pool1.ExecBegin 7 0; Pool1.ExecEnd 7; Pool1.ExecBegin 7 0;
          Pool1.ExecEnd 7]
         (Pool1.heap_new_Result 0 true h0) = Some h'
     ∧ Pool1.objects h' !! 0%nat = Some (Pool1.Result_init 0 true)
     ∧ Pool1.orphaned 0 h')
  ∧ (∃ h0 h' r',
       Pool1.heap_steps Examples.run
         [Pool1.NewResult 0 true; Pool1.ExecBegin 7 0] Pool1.new_heap
       = Some h0
       ∧ Pool1.heap_step Examples.run (Pool1.ExecEnd 7)
           (Pool1.heap_new_Result 0 true h0) = Pool1.Next h'
       ∧ Pool1.objects h' !! 0%nat = Some r'
       ∧ Pool1.any_ r' = Some (Examples.Derive_int 42)
       ∧ Pool1.objects h' !! 1%nat = Some (Pool1.Result_init 0 true)).
Proof.
  split.
  - eexists _, _. split; [vm_compute; reflexivity|].
    split; [vm_compute; reflexivity|].
    destruct (resubmitted_task_orphans_result1 _ _ Examples.run
                [Pool1.NewResult 0 true]
                (default Pool1.new_heap
                   (Pool1.heap_steps Examples.run [Pool1.NewResult 0 true]
                      Pool1.new_heap))
                0%nat (Pool1.Result_init 0 true) true)
      as (_ & _ & Horphan & _);
      [vm_compute; reflexivity|reflexivity|].
    destruct (Horphan
                ltac:(intros n t; vm_compute; discriminate)
                [Pool1.ExecBegin 7 0; Pool1.ExecEnd 7; Pool1.ExecBegin 7 0;
                 Pool1.ExecEnd 7]
                (default Pool1.new_heap
                   (Pool1.heap_steps Examples.run
                      [Pool1.NewResult 0 true; Pool1.NewResult 0 true;
                       Pool1.ExecBegin 7 0; Pool1.ExecEnd 7;
                       Pool1.ExecBegin 7 0; Pool1.ExecEnd 7]
                      Pool1.new_heap)))
      as [Ho Hsame]; [vm_compute; reflexivity|].
    split; [|exact Ho]. apply Hsame.
    intros Hin. repeat (apply elem_of_cons in Hin as [Hin|Hin]; [done|]).
    by apply elem_of_nil in Hin.
  - destruct (resubmitted_task_orphans_result1 _ _ Examples.run
                [Pool1.NewResult 0 true; Pool1.ExecBegin 7 0]
                (default Pool1.new_heap
                   (Pool1.heap_steps Examples.run
                      [Pool1.NewResult 0 true; Pool1.ExecBegin 7 0]
                      Pool1.new_heap))
                0%nat (Pool1.Result_init 0 true) true)
      as (_ & _ & _ & Hrace);
      [vm_compute; reflexivity|reflexivity|].
    destruct (Hrace 7%nat (Some (Examples.Derive_int 42)))
      as (h' & Hstep & (r' & Hr' & Hany & _) & Hnew);
      [reflexivity|reflexivity|by vm_compute|].
    eexists _, h', r'. split; [vm_compute; reflexivity|].
    split; [exact Hstep|]. split; [exact Hr'|]. split; [exact Hany|].
    exact Hnew.
Defined.

(** ** Futures of ThreaadPool2.0 *)

(** X12. No thread of ThreaadPool2.0 calls a packaged task twice, so no
    [std::future_error] leaves a thread function and the process is not
    terminated: what is in the queue or in the hands of a thread is there
    once, and its shared state is still empty. *)
Theorem worker2_never_calls_a_task_twice
    (RType Fault : Type) (RType_default : RType)
    poolmode initthreadsize maxthreadsize taskmaxsize g evs
    (s : @Pool2.Process RType Fault) :
  in_int initthreadsize → in_int maxthreadsize → 0 <= g <= INT_MAX →
  Pool2.steps RType_default evs
    (Pool2.boot
       (Pool2.ThreadPool_ctor poolmode initthreadsize maxthreadsize
          taskmaxsize) g) = Some s →
  Pool2.terminated s = None
  ∧ NoDup (in_flight (Pool2.threads s) ++ Pool2.taskQue_ (Pool2.pool s))
  ∧ ∀ t, t ∈ in_flight (Pool2.threads s) ++ Pool2.taskQue_ (Pool2.pool s) →
         ∃ pt, Pool2.tasks s !! t = Some pt
               ∧ Pool2.future_get pt = Blocks.
Proof.
  intros Hi Hm Hg Hs.
  destruct (pool2_reachable_more RType_default _ _ _ _ _ _ _ Hi Hm Hg Hs)
    as (Hc & _ & _ & _ & _ & _ & _ & Hterm & _).
  split_and!; [done|by destruct Hc|].
  intros t Ht. destruct (Pool2.fresh s Hc t Ht) as (pt & Hpt & Hnone).
  exists pt. split; [done|]. unfold Pool2.future_get. by rewrite Hnone.
Qed.

Lemma worker2_never_calls_a_task_twice_witness :
  ∃ s,
    Pool2.steps 0
      ([Start; Submit (fun _ => Examples.square 3);
        Submit (fun _ => Examples.thrower 4)] ++ Examples.serve 0 0)
      (Examples.fixed2 0) = Some s
    ∧ Pool2.completed s = [0%nat]
    ∧ Pool2.taskQue_ (Pool2.pool s) = [1%nat]
    ∧ Pool2.terminated s = None.
Proof.
  eexists. split; [vm_compute; reflexivity|].
  split; [reflexivity|]. split; [reflexivity|].
  eapply (worker2_never_calls_a_task_twice _ _ 0 MODE_FIXED 1 1024 2 0
            ([Start; Submit (fun _ => Examples.square 3);
              Submit (fun _ => Examples.thrower 4)] ++ Examples.serve 0 0)).
  - by vm_compute.
  - by vm_compute.
  - by vm_compute.
  - vm_compute. reflexivity.
Defined.

(** X13. The round trip of ThreaadPool2.0: the future returned for an
    accepted submission of [func] with [arg] stays attached to its task;
    whenever it is ready it holds the outcome of [func arg], value or
    exception, and it holds the same in every later state. *)
Theorem future_round_trip2
    (RType Fault A : Type) (RType_default : RType)
    poolmode initthreadsize maxthreadsize taskmaxsize g evs0 evs evs'
    (s s1 s2 s3 : @Pool2.Process RType Fault)
    (func : A -> outcome Fault RType) (arg : A) h :
  in_int initthreadsize → in_int maxthreadsize → 0 <= g <= INT_MAX →
  Pool2.steps RType_default evs0
    (Pool2.boot
       (Pool2.ThreadPool_ctor poolmode initthreadsize maxthreadsize
          taskmaxsize) g) = Some s →
  Pool2.alive s = true → was_started (Pool2.owner s) = true →
  Pool2.has_room (Pool2.pool s) = true →
  Pool2.submit RType_default func arg s = Some (s1, h) →
  Pool2.steps RType_default evs s1 = Some s2 →
  Pool2.steps RType_default evs' s2 = Some s3 →
  ∃ pt2 pt3,
    Pool2.tasks s2 !! h = Some pt2 ∧ Pool2.tasks s3 !! h = Some pt3
    ∧ ∀ o, Pool2.future_get pt2 = Returns o →
           o = func arg ∧ Pool2.future_get pt3 = Returns o.
Proof.
  intros Hi Hm Hg Hs Halive Hst Hroom Hsub Hs2 Hs3.
  destruct (pool2_reachable_more RType_default _ _ _ _ _ _ _ Hi Hm Hg Hs)
    as (Hc & _ & _ & _ & _ & Hk & _).
  unfold Pool2.submit in Hsub.
  assert (Pool2.step RType_default (Submit (fun _ => func arg)) s = Some s1)
    as Hstep.
  { unfold Pool2.step. by rewrite Halive, Hst, Hsub. }
  pose proof (pool2_consistent_step _ _ _ _ Hc Hstep) as Hc1.
  pose proof (pool2_consistent_steps _ _ _ _ Hc1 Hs2) as Hc2.
  pose proof (pool2_results_kept_steps _ _ _ _
                (pool2_results_kept_step _ _ _ _ Hk Hstep) Hs2) as Hk2.
  destruct (pool2_submitTask_future _ _ _ _ _ Hsub) as [Hacc _].
  destruct (Hacc Hroom) as (Hh & _).
  destruct (pool2_futures_kept_steps _ _ _ _ Hc1 Hs2 _ _ Hh)
    as (pt2 & Hpt2 & Hcall2 & _).
  destruct (pool2_futures_kept_steps _ _ _ _ Hc2 Hs3 _ _ Hpt2)
    as (pt3 & Hpt3 & _ & Hkeep).
  exists pt2, pt3. split_and!; [done|done|].
  unfold Pool2.future_get. intros o Ho.
  destruct (Pool2.shared_state pt2) as [o2|] eqn:Hstate; [|done].
  injection Ho as ->. split.
  - rewrite (Hk2 _ _ _ Hpt2 Hstate), Hcall2. done.
  - by rewrite (Hkeep o).
Qed.

Lemma future_round_trip2_witness :
  ∃ s s1 s2 s3 pt2 pt3,
    Pool2.steps 0 [Start] (Examples.fixed2 0) = Some s
    ∧ Pool2.submit 0 Examples.thrower 4 s = Some (s1, 0%nat)
    ∧ Pool2.steps 0 (Examples.serve 0 0) s1 = Some s2
    ∧ Pool2.steps 0 [Submit (fun _ => Examples.square 3)] s2 = Some s3
    ∧ Pool2.tasks s2 !! 0%nat = Some pt2
    ∧ Pool2.tasks s3 !! 0%nat = Some pt3
    ∧ Pool2.future_get pt2 = Returns (Raise tt)
    ∧ Pool2.future_get pt3 = Returns (Raise tt).
Proof.
  eexists _, _, _, _.
  destruct (future_round_trip2 Z unit Z 0 MODE_FIXED 1 1024 2 0 [Start]
              (Examples.serve 0 0) [Submit (fun _ => Examples.square 3)]
              (default (Examples.fixed2 0)
                 (Pool2.steps 0 [Start] (Examples.fixed2 0)))
              (default (Examples.fixed2 0)
                 (Pool2.steps 0 [Start; Submit (fun _ => Examples.thrower 4)]
                    (Examples.fixed2 0)))
              (default (Examples.fixed2 0)
                 (Pool2.steps 0
                    ([Start; Submit (fun _ => Examples.thrower 4)]
                     ++ Examples.serve 0 0) (Examples.fixed2 0)))
              (default (Examples.fixed2 0)
                 (Pool2.steps 0
                    ([Start; Submit (fun _ => Examples.thrower 4)]
                     ++ Examples.serve 0 0
                     ++ [Submit (fun _ => Examples.square 3)])
                    (Examples.fixed2 0)))
              Examples.thrower 4 0%nat)
    as (pt2 & pt3 & Hpt2 & Hpt3 & Hget);
    [by vm_compute|by vm_compute|by vm_compute|vm_compute; reflexivity
    |reflexivity|reflexivity|reflexivity|vm_compute; reflexivity
    |vm_compute; reflexivity|vm_compute; reflexivity|].
  exists pt2, pt3.
  assert (Pool2.future_get pt2 = Returns (Examples.thrower 4)) as Hready.
  { vm_compute in Hpt2. injection Hpt2 as <-. reflexivity. }
  destruct (Hget _ Hready) as [_ Hlater].
  split_and!; [vm_compute; reflexivity|vm_compute; reflexivity
              |vm_compute; reflexivity|vm_compute; reflexivity
              |exact Hpt2|exact Hpt3|exact Hready|exact Hlater].
Defined.

(** X14. A rejected submission (the room test fails), in both designs:
    what it leaves behind is the state before it with the objects it made,
    and nothing else changed: queue, counters, registry, threads and the
    record of accepted tasks are as they were.  In ThreadPool1.0 the
    object made is the [Result] returned, marked invalid and with nothing
    posted, so that [get] on it blocks; its constructor has redirected the
    [result_] of the task to it.  In ThreaadPool2.0 the objects made are
    the packaged task of the submission, which is not queued, and a second
    one that has been called: the future returned is ready at once with the
    value-initialised [RType()].  And in every later state of a
    ThreaadPool2.0 the future returned is still ready with that value. *)
Theorem rejected_submission_changes_nothing :
  (∀ (Dyn Fault : Type) (run : nat -> outcome Fault (option Dyn))
     (cstr_empty : Dyn) sp (s s1 : Pool1.Process),
     Pool1.has_room (Pool1.pool s) = false →
     Pool1.step run (Submit sp) s = Some s1 →
     Pool1.submitTask sp s = Some (s1, length (Pool1.results s))
     ∧ s1 = Pool1.set_results
              (<[sp := length (Pool1.results s)]> (Pool1.result_ s))
              (Pool1.results s ++ [Pool1.Result_init sp false]) s
     ∧ Pool1.Result_get cstr_empty (Pool1.Result_init sp false) = Blocks)
  ∧ (∀ (RType Fault : Type) (RType_default : RType) bound
       (s s1 : @Pool2.Process RType Fault),
     Pool2.has_room (Pool2.pool s) = false →
     Pool2.step RType_default (Submit bound) s = Some s1 →
     Pool2.submitTask RType_default bound s
     = Some (s1, S (length (Pool2.tasks s)))
     ∧ s1 = Pool2.set_tasks
              (Pool2.tasks s
               ++ [Pool2.make_packaged_task bound;
                   {| Pool2.callable := fun _ => Value RType_default;
                      Pool2.shared_state := Some (Value RType_default) |}])
              s
     ∧ @Pool2.future_get RType Fault
         {| Pool2.callable := fun _ => Value RType_default;
            Pool2.shared_state := Some (Value RType_default) |}
       = Returns (Value RType_default))
  ∧ (∀ (RType Fault : Type) (RType_default : RType)
       poolmode initthreadsize maxthreadsize taskmaxsize g evs0 evs
       (s s1 s' : @Pool2.Process RType Fault) bound,
     in_int initthreadsize → in_int maxthreadsize → 0 <= g <= INT_MAX →
     Pool2.steps RType_default evs0
       (Pool2.boot
          (Pool2.ThreadPool_ctor poolmode initthreadsize maxthreadsize
             taskmaxsize) g) = Some s →
     Pool2.has_room (Pool2.pool s) = false →
     Pool2.step RType_default (Submit bound) s = Some s1 →
     Pool2.steps RType_default evs s1 = Some s' →
     ∃ pt, Pool2.tasks s' !! S (length (Pool2.tasks s)) = Some pt
           ∧ Pool2.future_get pt = Returns (Value RType_default)).
Proof.
  assert (∀ (RType Fault : Type) (d : RType) bound
            (s s1 : @Pool2.Process RType Fault),
            Pool2.has_room (Pool2.pool s) = false →
            Pool2.step d (Submit bound) s = Some s1 →
            Pool2.submitTask d bound s = Some (s1, S (length (Pool2.tasks s)))
            ∧ s1 = Pool2.set_tasks
                     (Pool2.tasks s
                      ++ [Pool2.make_packaged_task bound;
                          {| Pool2.callable := fun _ => Value d;
                             Pool2.shared_state := Some (Value d) |}]) s)
    as Hrej2.
  { intros RType Fault d bound s s1 Hroom Hstep.
    unfold Pool2.step in Hstep.
    destruct (Pool2.alive s); [|done].
    destruct (was_started (Pool2.owner s)); [|done].
    revert Hstep.
    unfold Pool2.submitTask, Pool2.make_shared, Pool2.packaged_task_call,
      Pool2.make_packaged_task. simpl. rewrite Hroom.
    rewrite lookup_app_r by (rewrite length_app; simpl; lia).
    rewrite !length_app. simpl.
    replace (length (Pool2.tasks s) + 1 - (length (Pool2.tasks s) + 1))%nat
      with 0%nat by lia.
    simpl. intros [= <-].
    replace (length (Pool2.tasks s) + 1)%nat
      with (S (length (Pool2.tasks s))) by lia.
    split; [done|].
    unfold Pool2.set_tasks. simpl. f_equal.
    rewrite <- (app_assoc _ [_] [_]). simpl.
    replace (S (length (Pool2.tasks s)))
      with (length (Pool2.tasks s) + 1)%nat by lia.
    rewrite insert_app_r. simpl. done. }
  split_and!.
  - intros Dyn Fault run cstr_empty sp s s1 Hroom Hstep.
    unfold Pool1.step in Hstep.
    destruct (Pool1.alive s); [|done].
    destruct (was_started (Pool1.owner s)); [|done].
    revert Hstep. unfold Pool1.submitTask, Pool1.construct_Result.
    rewrite Hroom. simpl. intros [= <-]. done.
  - intros RType Fault d bound s s1 Hroom Hstep.
    destruct (Hrej2 _ _ d bound s s1 Hroom Hstep) as [Hsub Heq]. done.
  - intros RType Fault d mode i m q g evs0 evs s s1 s' bound
      Hi Hm Hg Hs Hroom Hstep Hs'.
    destruct (pool2_reachable_more d _ _ _ _ _ _ _ Hi Hm Hg Hs)
      as (Hc & _).
    pose proof (pool2_consistent_step _ _ _ _ Hc Hstep) as Hc1.
    destruct (Hrej2 _ _ d bound s s1 Hroom Hstep) as [_ ->].
    destruct (pool2_futures_kept_steps _ _ _ _ Hc1 Hs'
                (S (length (Pool2.tasks s)))
                {| Pool2.callable := fun _ => Value d;
                   Pool2.shared_state := Some (Value d) |})
      as (pt & Hpt & _ & Hkeep).
    { simpl. rewrite lookup_app_r by lia. by rewrite Nat.sub_succ_l, Nat.sub_diag by lia. }
    exists pt. split; [done|]. unfold Pool2.future_get.
    by rewrite (Hkeep (Value d)).
Qed.

Lemma rejected_submission_changes_nothing_witness :
  (∃ s s1,
     Pool1.steps Examples.run
       [Start; Submit 2%nat; Submit 3%nat; Submit 4%nat; Submit 5%nat]
       (Examples.fixed1 0) = Some s
     ∧ Pool1.step Examples.run (Submit 6%nat) s = Some s1
     ∧ Pool1.submitTask 6%nat s = Some (s1, 4%nat)
     ∧ Pool1.pool s1 = Pool1.pool s
     ∧ Pool1.result_ s1 !! 6%nat = Some 4%nat)
  ∧ (∃ s s1 s' pt,
       Pool2.steps 0
         [Start; Submit (fun _ => Examples.square 3);
          Submit (fun _ => Examples.square 4)] (Examples.fixed2 0) = Some s
       ∧ Pool2.step 0 (Submit (fun _ => Examples.square 5)) s = Some s1
       ∧ Pool2.submitTask 0 (fun _ => Examples.square 5) s
         = Some (s1, 3%nat)
       ∧ Pool2.pool s1 = Pool2.pool s
       ∧ Pool2.steps 0 (Examples.serve 0 0) s1 = Some s'
       ∧ Pool2.tasks s' !! 3%nat = Some pt
       ∧ Pool2.future_get pt = Returns (Value 0)).
Proof.
  destruct rejected_submission_changes_nothing as (H1 & H2 & H3).
  split.
  - eexists _, _.
    destruct (H1 _ _ Examples.run Examples.cstr_empty 6%nat
                (default (Examples.fixed1 0)
                   (Pool1.steps Examples.run
                      [Start; Submit 2%nat; Submit 3%nat; Submit 4%nat;
                       Submit 5%nat] (Examples.fixed1 0)))
                (default (Examples.fixed1 0)
                   (Pool1.steps Examples.run
                      [Start; Submit 2%nat; Submit 3%nat; Submit 4%nat;
                       Submit 5%nat; Submit 6%nat] (Examples.fixed1 0))))
      as (Hsub & Heq & _); [reflexivity|vm_compute; reflexivity|].
    split_and!; [vm_compute; reflexivity|vm_compute; reflexivity
                |exact Hsub|vm_compute; reflexivity|vm_compute; reflexivity].
  - eexists _, _, _.
    destruct (H2 Z unit 0 (fun _ => Examples.square 5)
                (default (Examples.fixed2 0)
                   (Pool2.steps 0
                      [Start; Submit (fun _ => Examples.square 3);
                       Submit (fun _ => Examples.square 4)]
                      (Examples.fixed2 0)))
                (default (Examples.fixed2 0)
                   (Pool2.steps 0
                      [Start; Submit (fun _ => Examples.square 3);
                       Submit (fun _ => Examples.square 4);
                       Submit (fun _ => Examples.square 5)]
                      (Examples.fixed2 0))))
      as (Hsub & Heq & _); [reflexivity|vm_compute; reflexivity|].
    destruct (H3 Z unit 0 MODE_FIXED 1 1024 2 0
                [Start; Submit (fun _ => Examples.square 3);
                 Submit (fun _ => Examples.square 4)]
                (Examples.serve 0 0)
                (default (Examples.fixed2 0)
                   (Pool2.steps 0
                      [Start; Submit (fun _ => Examples.square 3);
                       Submit (fun _ => Examples.square 4)]
                      (Examples.fixed2 0)))
                (default (Examples.fixed2 0)
                   (Pool2.steps 0
                      [Start; Submit (fun _ => Examples.square 3);
                       Submit (fun _ => Examples.square 4);
                       Submit (fun _ => Examples.square 5)]
                      (Examples.fixed2 0)))
                (default (Examples.fixed2 0)
                   (Pool2.steps 0
                      ([Start; Submit (fun _ => Examples.square 3);
                        Submit (fun _ => Examples.square 4);
                        Submit (fun _ => Examples.square 5)]
                       ++ Examples.serve 0 0)
                      (Examples.fixed2 0)))
                (fun _ => Examples.square 5))
      as (pt & Hpt & Hget);
      [by vm_compute|by vm_compute|by vm_compute|vm_compute; reflexivity
      |reflexivity|vm_compute; reflexivity|vm_compute; reflexivity|].
    exists pt. split_and!; [vm_compute; reflexivity|vm_compute; reflexivity
                           |exact Hsub|vm_compute; reflexivity|vm_compute; reflexivity
                           |exact Hpt|exact Hget].
Defined.

(** X15. In a ThreaadPool2.0 built with valid arguments, once all threads
    have returned, the future of every task that had been accepted while
    the pool was running is ready and holds the outcome of its callable. *)
Theorem futures_ready_after_threads_return2
    (RType Fault : Type) (RType_default : RType)
    poolmode initthreadsize maxthreadsize taskmaxsize g evs1 evs2
    (s1 s' : @Pool2.Process RType Fault) :
  Pool2.valid_config
    (Pool2.ThreadPool_ctor poolmode initthreadsize maxthreadsize
       taskmaxsize) →
  0 <= g <= INT_MAX →
  Pool2.steps RType_default evs1
    (Pool2.boot
       (Pool2.ThreadPool_ctor poolmode initthreadsize maxthreadsize
          taskmaxsize) g) = Some s1 →
  Pool2.isRunning_ (Pool2.pool s1) = true →
  Pool2.steps RType_default evs2 s1 = Some s' →
  Forall (fun w => has_returned w = true) (Pool2.threads s') →
  ∀ t, t ∈ Pool2.accepted s1 →
       ∃ pt, Pool2.tasks s' !! t = Some pt
             ∧ Pool2.future_get pt = Returns (Pool2.callable pt tt).
Proof.
  intros Hv Hg Hs1 Hrun Hs' Hall t Ht.
  destruct (pool2_reachable_facts RType_default _ _ _ _ _ _ _ Hv Hg Hs1)
    as (Hc & _ & _ & _ & _ & _ & Hv1 & _).
  pose proof (pool2_no_task_lost RType_default _ _ _ Hc Hv1 Hrun Hs' Hall)
    as Hsub.
  assert (Pool2.steps RType_default (evs1 ++ evs2)
            (Pool2.boot
               (Pool2.ThreadPool_ctor poolmode initthreadsize maxthreadsize
                  taskmaxsize) g) = Some s') as Hboth.
  { rewrite (pool2_steps_app RType_default), Hs1. done. }
  destruct Hv as (Hi & Hm & _).
  destruct (pool2_reachable_more RType_default _ _ _ _ _ _ _ Hi Hm Hg Hboth)
    as (_ & _ & _ & _ & _ & Hk & Hr & _).
  destruct (Hr t) as (pt & o & Hpt & Ho).
  { eapply elem_of_submseteq; done. }
  exists pt. split; [done|]. unfold Pool2.future_get. rewrite Ho.
  by rewrite (Hk _ _ _ Hpt Ho).
Qed.

Lemma futures_ready_after_threads_return2_witness :
  ∃ s1 s' pt,
    Pool2.steps 0 [Start; Submit (fun _ => Examples.square 3)]
      (Examples.fixed2 0) = Some s1
    ∧ Pool2.steps 0
        (Examples.serve 0 0 ++ [Destroy; Worker 0 0 false; Worker 0 0 false])
        s1 = Some s'
    ∧ Pool2.tasks s' !! 0%nat = Some pt
    ∧ Pool2.future_get pt = Returns (Value 9).
Proof.
  eexists _, _.
  destruct (futures_ready_after_threads_return2 _ _ 0 MODE_FIXED 1 1024 2 0
              [Start; Submit (fun _ => Examples.square 3)]
              (Examples.serve 0 0
               ++ [Destroy; Worker 0 0 false; Worker 0 0 false])
              (default (Examples.fixed2 0)
                 (Pool2.steps 0 [Start; Submit (fun _ => Examples.square 3)]
                    (Examples.fixed2 0)))
              (default (Examples.fixed2 0)
                 (Pool2.steps 0
                    ([Start; Submit (fun _ => Examples.square 3)]
                     ++ Examples.serve 0 0
                     ++ [Destroy; Worker 0 0 false; Worker 0 0 false])
                    (Examples.fixed2 0))))
    with (t := 0%nat) as (pt & Hpt & Hget).
  - unfold Pool2.valid_config, in_int, INT_MIN, INT_MAX. simpl. lia.
  - by vm_compute.
  - vm_compute. reflexivity.
  - reflexivity.
  - vm_compute. reflexivity.
  - vm_compute. by repeat constructor.
  - vm_compute. left.
  - exists pt. split_and!; [vm_compute; reflexivity|vm_compute; reflexivity
                           |exact Hpt|].
    rewrite Hget. vm_compute in Hpt. by injection Hpt as <-.
Defined.

(** ** Bookkeeping and unchecked arguments *)

(** X16. In both designs every accepted task is in exactly one place: it
    has completed, or a thread holds it, or it is still in the queue.  So
    no task is run twice, none is dropped, and nothing runs that was not
    accepted. *)
Theorem accepted_tasks_are_conserved :
  (∀ (Dyn Fault : Type) (run : nat -> outcome Fault (option Dyn))
     initThreadSize threadthreshhold taskthreshhold mode indeterminate g evs
     (s : Pool1.Process),
     in_int initThreadSize → 0 <= g <= INT_MAX →
     Pool1.steps run evs
       (Pool1.boot
          (Pool1.ThreadPool_ctor initThreadSize threadthreshhold
             taskthreshhold mode indeterminate) g) = Some s →
     Pool1.accepted s
     ≡ₚ Pool1.completed s ++ in_flight (Pool1.threads s)
        ++ Pool1.taskQue_ (Pool1.pool s))
  ∧ (∀ (RType Fault : Type) (RType_default : RType)
       poolmode initthreadsize maxthreadsize taskmaxsize g evs
       (s : @Pool2.Process RType Fault),
     in_int initthreadsize → in_int maxthreadsize → 0 <= g <= INT_MAX →
     Pool2.steps RType_default evs
       (Pool2.boot
          (Pool2.ThreadPool_ctor poolmode initthreadsize maxthreadsize
             taskmaxsize) g) = Some s →
     Pool2.accepted s
     ≡ₚ Pool2.completed s ++ in_flight (Pool2.threads s)
        ++ Pool2.taskQue_ (Pool2.pool s)).
Proof.
  split.
  - intros Dyn Fault run i t q mode b g evs s Hi Hg Hs.
    destruct (pool1_reachable_more run _ _ _ _ _ _ _ _ Hi Hg Hs)
      as (Hc & _).
    destruct (Pool1.fifo s Hc) as (taken & -> & ->).
    by rewrite <- app_assoc.
  - intros RType Fault d mode i m q g evs s Hi Hm Hg Hs.
    destruct (pool2_reachable_more d _ _ _ _ _ _ _ Hi Hm Hg Hs)
      as (Hc & _).
    destruct (Pool2.fifo s Hc) as (taken & -> & ->).
    by rewrite <- app_assoc.
Qed.

Lemma accepted_tasks_are_conserved_witness :
  (∃ s,
     Pool1.steps Examples.run
       ([Start; Submit 0%nat; Submit 2%nat; Submit 3%nat]
        ++ Examples.serve 0 0 ++ Examples.settle 0 0)
       (Examples.fixed1 0) = Some s
     ∧ Pool1.completed s = [0%nat]
     ∧ in_flight (Pool1.threads s) = [2%nat]
     ∧ Pool1.taskQue_ (Pool1.pool s) = [3%nat]
     ∧ Pool1.accepted s ≡ₚ [0%nat] ++ [2%nat] ++ [3%nat])
  ∧ (∃ s,
       Pool2.steps 0
         ([Start; Submit (fun _ => Examples.square 3);
           Submit (fun _ => Examples.square 4)] ++ Examples.serve 0 0)
         (Examples.fixed2 0) = Some s
       ∧ Pool2.completed s = [0%nat]
       ∧ Pool2.taskQue_ (Pool2.pool s) = [1%nat]
       ∧ Pool2.accepted s ≡ₚ [0%nat] ++ [] ++ [1%nat]).
Proof.
  destruct accepted_tasks_are_conserved as [H1 H2].
  split.
  - eexists. split; [vm_compute; reflexivity|].
    split; [reflexivity|]. split; [reflexivity|]. split; [reflexivity|].
    eapply (H1 _ _ Examples.run 1 1024 4 MODE_FIXED false 0
              ([Start; Submit 0%nat; Submit 2%nat; Submit 3%nat]
               ++ Examples.serve 0 0 ++ Examples.settle 0 0)).
    + by vm_compute.
    + by vm_compute.
    + vm_compute. reflexivity.
  - eexists. split; [vm_compute; reflexivity|].
    split; [reflexivity|]. split; [reflexivity|].
    eapply (H2 _ _ 0 MODE_FIXED 1 1024 2 0
              ([Start; Submit (fun _ => Examples.square 3);
                Submit (fun _ => Examples.square 4)]
               ++ Examples.serve 0 0)).
    + by vm_compute.
    + by vm_compute.
    + by vm_compute.
    + vm_compute. reflexivity.
Defined.

(** X17. Neither constructor rejects an initial size of zero or less; a
    fixed pool built that way never has a thread and never completes a
    task, whatever is submitted to it. *)
Theorem fixed_pool_without_threads_runs_nothing :
  (∀ (Dyn Fault : Type) (run : nat -> outcome Fault (option Dyn))
     initThreadSize threadthreshhold taskthreshhold indeterminate g evs
     (s : Pool1.Process),
     initThreadSize <= 0 →
     Pool1.steps run evs
       (Pool1.boot
          (Pool1.ThreadPool_ctor initThreadSize threadthreshhold
             taskthreshhold MODE_FIXED indeterminate) g) = Some s →
     Pool1.threads s = [] ∧ Pool1.completed s = [])
  ∧ (∀ (RType Fault : Type) (RType_default : RType)
       initthreadsize maxthreadsize taskmaxsize g evs
       (s : @Pool2.Process RType Fault),
     initthreadsize <= 0 →
     Pool2.steps RType_default evs
       (Pool2.boot
          (Pool2.ThreadPool_ctor MODE_FIXED initthreadsize maxthreadsize
             taskmaxsize) g) = Some s →
     Pool2.threads s = [] ∧ Pool2.completed s = []).
Proof.
  split.
  - intros Dyn Fault run i t q b g evs s Hi Hs.
    eapply (pool1_no_threads_steps run) in Hs; simpl in *; done.
  - intros RType Fault d i m q g evs s Hi Hs.
    eapply (pool2_no_threads_steps d) in Hs; simpl in *; done.
Qed.

Lemma fixed_pool_without_threads_runs_nothing_witness :
  (∃ s,
     Pool1.steps Examples.run [Start; Submit 0%nat; Submit 2%nat]
       (Pool1.boot (Pool1.ThreadPool_ctor 0 1024 4 MODE_FIXED false) 0)
     = Some s
     ∧ Pool1.accepted s = [0%nat; 2%nat]
     ∧ Pool1.threads s = [] ∧ Pool1.completed s = [])
  ∧ (∃ s,
       Pool2.steps 0 [Start; Submit (fun _ => Examples.square 3)]
         (Pool2.boot (Pool2.ThreadPool_ctor MODE_FIXED (-1) 1024 2) 0)
       = Some s
       ∧ Pool2.accepted s = [0%nat]
       ∧ Pool2.currentThreadNum_ (Pool2.pool s) = -1
       ∧ Pool2.threads s = [] ∧ Pool2.completed s = []).
Proof.
  destruct fixed_pool_without_threads_runs_nothing as [H1 H2].
  split.
  - eexists. split; [vm_compute; reflexivity|]. split; [reflexivity|].
    eapply (H1 _ _ Examples.run 0 1024 4 false 0
              [Start; Submit 0%nat; Submit 2%nat]).
    + lia.
    + vm_compute. reflexivity.
  - eexists. split; [vm_compute; reflexivity|]. split; [reflexivity|].
    split; [reflexivity|].
    eapply (H2 Z unit 0 (-1) 1024 2 0
              [Start; Submit (fun _ => Examples.square 3)]).
    + lia.
    + vm_compute. reflexivity.
Defined.

(** X18. The capacity is compared as a [size_t] and is not checked by the
    constructors.  A pool built with capacity 0 never accepts a task: every
    submission is rejected.  With a negative capacity the room test of
    [submitTask] holds for every queue shorter than 2^64 - 2^31, so the
    queue is not bounded.  The same in both designs. *)
Theorem unchecked_capacity_edge_cases :
  (∀ (Dyn Fault : Type) (run : nat -> outcome Fault (option Dyn))
     initThreadSize threadthreshhold mode indeterminate g evs
     (s : Pool1.Process),
     Pool1.steps run evs
       (Pool1.boot
          (Pool1.ThreadPool_ctor initThreadSize threadthreshhold 0 mode
             indeterminate) g) = Some s →
     Pool1.accepted s = [])
  ∧ (∀ p : Pool1.ThreadPool,
       INT_MIN <= Pool1.taskQueMaxThreshHold_ p < 0 →
       Z.of_nat (length (Pool1.taskQue_ p)) < 2 ^ 64 - 2 ^ 31 →
       Pool1.has_room p = true)
  ∧ (∀ (RType Fault : Type) (RType_default : RType)
       poolmode initthreadsize maxthreadsize g evs
       (s : @Pool2.Process RType Fault),
     Pool2.steps RType_default evs
       (Pool2.boot
          (Pool2.ThreadPool_ctor poolmode initthreadsize maxthreadsize 0)
          g) = Some s →
     Pool2.accepted s = [])
  ∧ (∀ p : Pool2.ThreadPool,
       INT_MIN <= Pool2.taskMaxSize_ p < 0 →
       Z.of_nat (length (Pool2.taskQue_ p)) < 2 ^ 64 - 2 ^ 31 →
       Pool2.has_room p = true).
Proof.
  assert (∀ cap len : Z,
            INT_MIN <= cap < 0 → len < 2 ^ 64 - 2 ^ 31 →
            (len <? to_size_t cap) = true) as Hcmp.
  { intros cap len. unfold to_size_t, INT_MIN.
    intros Hcap Hlen. apply Z.ltb_lt.
    replace cap with (cap + 2 ^ 64 - 1 * 2 ^ 64) by lia.
    rewrite Zminus_mod, Z_mod_mult, Z.sub_0_r, Z.mod_mod by lia.
    rewrite Z.mod_small; lia. }
  split_and!.
  - intros Dyn Fault run i t mode b g evs s Hs.
    by apply (pool1_zero_capacity_steps run) in Hs.
  - intros p. apply Hcmp.
  - intros RType Fault d mode i m g evs s Hs.
    by apply (pool2_zero_capacity_steps d) in Hs.
  - intros p. apply Hcmp.
Qed.

Lemma unchecked_capacity_edge_cases_witness :
  Pool1.has_room (Pool1.ThreadPool_ctor 1 1024 (-1) MODE_FIXED false) = true
  ∧ Pool2.has_room (Pool2.ThreadPool_ctor MODE_FIXED 1 1024 (-1)) = true
  ∧ (∃ s,
       Pool1.steps Examples.run [Start; Submit 0%nat]
         (Pool1.boot (Pool1.ThreadPool_ctor 1 1024 0 MODE_FIXED false) 0)
       = Some s
       ∧ Pool1.accepted s = [])
  ∧ (∃ s,
       Pool2.steps 0 [Start; Submit (fun _ => Examples.square 3)]
         (Pool2.boot (Pool2.ThreadPool_ctor MODE_FIXED 1 1024 0) 0)
       = Some s
       ∧ Pool2.accepted s = []).
Proof.
  destruct unchecked_capacity_edge_cases as (H1 & H2 & H3 & H4).
  split_and!.
  - apply (H2 (Pool1.ThreadPool_ctor 1 1024 (-1) MODE_FIXED false)).
    + by vm_compute.
    + by vm_compute.
  - apply (H4 (Pool2.ThreadPool_ctor MODE_FIXED 1 1024 (-1))).
    + by vm_compute.
    + by vm_compute.
  - eexists. split; [vm_compute; reflexivity|].
    eapply (H1 _ _ Examples.run 1 1024 MODE_FIXED false 0
              [Start; Submit 0%nat]).
    vm_compute. reflexivity.
  - eexists. split; [vm_compute; reflexivity|].
    eapply (H3 Z unit 0 MODE_FIXED 1 1024 0
              [Start; Submit (fun _ => Examples.square 3)]).
    vm_compute. reflexivity.
Defined.

(** ** Order of service *)

(** X19. The queue is first in, first out, in both designs and for any
    number of threads: the queue is always the tail of the record of
    accepted tasks, and a thread that comes to hold a task has taken the
    one at the front. *)
Theorem tasks_are_dequeued_in_order :
  (∀ (Dyn Fault : Type) (run : nat -> outcome Fault (option Dyn))
     initThreadSize threadthreshhold taskthreshhold mode indeterminate g evs
     (s : Pool1.Process),
     in_int initThreadSize → 0 <= g <= INT_MAX →
     Pool1.steps run evs
       (Pool1.boot
          (Pool1.ThreadPool_ctor initThreadSize threadthreshhold
             taskthreshhold mode indeterminate) g) = Some s →
     Pool1.taskQue_ (Pool1.pool s) `suffix_of` Pool1.accepted s
     ∧ ∀ ev i s' w w' t,
         Pool1.step run ev s = Some s' →
         Pool1.threads s !! i = Some w → Pool1.threads s' !! i = Some w' →
         at_pc w ≠ HasTask t → at_pc w' = HasTask t →
         Pool1.taskQue_ (Pool1.pool s)
         = t :: Pool1.taskQue_ (Pool1.pool s'))
  ∧ (∀ (RType Fault : Type) (RType_default : RType)
       poolmode initthreadsize maxthreadsize taskmaxsize g evs
       (s : @Pool2.Process RType Fault),
     in_int initthreadsize → in_int maxthreadsize → 0 <= g <= INT_MAX →
     Pool2.steps RType_default evs
       (Pool2.boot
          (Pool2.ThreadPool_ctor poolmode initthreadsize maxthreadsize
             taskmaxsize) g) = Some s →
     Pool2.taskQue_ (Pool2.pool s) `suffix_of` Pool2.accepted s
     ∧ ∀ ev i s' w w' t,
         Pool2.step RType_default ev s = Some s' →
         Pool2.threads s !! i = Some w → Pool2.threads s' !! i = Some w' →
         at_pc w ≠ HasTask t → at_pc w' = HasTask t →
         Pool2.taskQue_ (Pool2.pool s)
         = t :: Pool2.taskQue_ (Pool2.pool s')).
Proof.
  split.
  - intros Dyn Fault run i t q mode b g evs s Hi Hg Hs.
    destruct (pool1_reachable_more run _ _ _ _ _ _ _ _ Hi Hg Hs)
      as (Hc & _).
    split.
    + destruct (Pool1.fifo s Hc) as (taken & -> & _). by exists taken.
    + intros ev n s' w w' task. apply pool1_takes_front.
  - intros RType Fault d mode i m q g evs s Hi Hm Hg Hs.
    destruct (pool2_reachable_more d _ _ _ _ _ _ _ Hi Hm Hg Hs)
      as (Hc & _).
    split.
    + destruct (Pool2.fifo s Hc) as (taken & -> & _). by exists taken.
    + intros ev n s' w w' task. apply pool2_takes_front.
Qed.

Lemma tasks_are_dequeued_in_order_witness :
  (∃ s,
     Pool1.steps Examples.run
       ([Start; Submit 0%nat; Submit 2%nat; Submit 3%nat]
        ++ Examples.serve 0 0)
       (Examples.fixed1 0) = Some s
     ∧ Pool1.accepted s = [0%nat; 2%nat; 3%nat]
     ∧ Pool1.taskQue_ (Pool1.pool s) = [2%nat; 3%nat]
     ∧ Pool1.taskQue_ (Pool1.pool s) `suffix_of` Pool1.accepted s)
  ∧ (∃ s,
       Pool2.steps 0
         ([Start; Submit (fun _ => Examples.square 3);
           Submit (fun _ => Examples.square 4)] ++ Examples.serve 0 0)
         (Examples.fixed2 0) = Some s
       ∧ Pool2.accepted s = [0%nat; 1%nat]
       ∧ Pool2.taskQue_ (Pool2.pool s) = [1%nat]
       ∧ Pool2.taskQue_ (Pool2.pool s) `suffix_of` Pool2.accepted s).
Proof.
  destruct tasks_are_dequeued_in_order as [H1 H2].
  split.
  - eexists. split; [vm_compute; reflexivity|].
    split; [reflexivity|]. split; [reflexivity|].
    eapply (H1 _ _ Examples.run 1 1024 4 MODE_FIXED false 0
              ([Start; Submit 0%nat; Submit 2%nat; Submit 3%nat]
               ++ Examples.serve 0 0)).
    + by vm_compute.
    + by vm_compute.
    + vm_compute. reflexivity.
  - eexists. split; [vm_compute; reflexivity|].
    split; [reflexivity|]. split; [reflexivity|].
    eapply (H2 _ _ 0 MODE_FIXED 1 1024 2 0
              ([Start; Submit (fun _ => Examples.square 3);
                Submit (fun _ => Examples.square 4)]
               ++ Examples.serve 0 0)).
    + by vm_compute.
    + by vm_compute.
    + by vm_compute.
    + vm_compute. reflexivity.
Defined.

(** ** What the counters count *)



(** ** The shutdown branch *)

(** X21. In both designs a thread leaves [threadFunc] through the shutdown
    branch only in a state where the queue is empty and the running flag is
    cleared.  It erases its own entry from the registry and changes nothing
    else of the pool (the counters stay as they are), and no other thread
    moves with it. *)
Theorem shutdown_exit_only_on_empty_queue :
  (∀ (Dyn Fault : Type) (run : nat -> outcome Fault (option Dyn)) ev i
     (s s' : Pool1.Process),
     Pool1.step run ev s = Some s' →
     Pool1.returns_at i ReturnedShutdown s s' →
     Pool1.taskQue_ (Pool1.pool s) = []
     ∧ Pool1.isPoolRunning_ (Pool1.pool s) = false
     ∧ ∃ w, Pool1.threads s !! i = Some w
            ∧ Pool1.pool s'
              = Pool1.set_threadMap_
                  (delete (threadid w) (Pool1.threadMap_ (Pool1.pool s)))
                  (Pool1.pool s)
            ∧ Pool1.threads s'
              = <[i := goto ReturnedShutdown w]> (Pool1.threads s))
  ∧ (∀ (RType Fault : Type) (RType_default : RType) ev i
       (s s' : @Pool2.Process RType Fault),
     Pool2.step RType_default ev s = Some s' →
     Pool2.returns_at i ReturnedShutdown s s' →
     Pool2.taskQue_ (Pool2.pool s) = []
     ∧ Pool2.isRunning_ (Pool2.pool s) = false
     ∧ ∃ w, Pool2.threads s !! i = Some w
            ∧ Pool2.pool s'
              = Pool2.set_threadMap_
                  (delete (threadid w) (Pool2.threadMap_ (Pool2.pool s)))
                  (Pool2.pool s)
            ∧ Pool2.threads s'
              = <[i := goto ReturnedShutdown w]> (Pool2.threads s)).
Proof.
  split.
  - intros Dyn Fault run ev i s s'. apply pool1_shutdown_exit.
  - intros RType Fault d ev i s s'. apply pool2_shutdown_exit.
Qed.

Lemma shutdown_exit_only_on_empty_queue_witness :
  (∃ s s',
     Pool1.steps Examples.run
       (Examples.serve_one 0%nat ++ [Destroy; Worker 0 0 false])
       (Examples.fixed1 0) = Some s
     ∧ Pool1.step Examples.run (Worker 0 0 false) s = Some s'
     ∧ Pool1.taskQue_ (Pool1.pool s) = []
     ∧ Pool1.isPoolRunning_ (Pool1.pool s) = false)
  ∧ (∃ s s',
       Pool2.steps 0
         (Examples.serve_one (fun _ => Examples.square 3)
          ++ [Destroy; Worker 0 0 false])
         (Examples.fixed2 0) = Some s
       ∧ Pool2.step 0 (Worker 0 0 false) s = Some s'
       ∧ Pool2.taskQue_ (Pool2.pool s) = []
       ∧ Pool2.isRunning_ (Pool2.pool s) = false).
Proof.
  destruct shutdown_exit_only_on_empty_queue as [H1 H2].
  split.
  - eexists _, _.
    split; [vm_compute; reflexivity|]. split; [vm_compute; reflexivity|].
    destruct (H1 _ _ Examples.run (Worker 0 0 false) 0%nat
                (default (Examples.fixed1 0)
                   (Pool1.steps Examples.run
                      (Examples.serve_one 0%nat
                       ++ [Destroy; Worker 0 0 false])
                      (Examples.fixed1 0)))
                (default (Examples.fixed1 0)
                   (Pool1.steps Examples.run
                      (Examples.serve_one 0%nat
                       ++ [Destroy; Worker 0 0 false; Worker 0 0 false])
                      (Examples.fixed1 0))))
      as (Hq & Hrun & _).
    + vm_compute. reflexivity.
    + eexists _, _. split_and!; [reflexivity|reflexivity|done|reflexivity].
    + split; [exact Hq|exact Hrun].
  - eexists _, _.
    split; [vm_compute; reflexivity|]. split; [vm_compute; reflexivity|].
    destruct (H2 Z unit 0 (Worker 0 0 false) 0%nat
                (default (Examples.fixed2 0)
                   (Pool2.steps 0
                      (Examples.serve_one (fun _ => Examples.square 3)
                       ++ [Destroy; Worker 0 0 false])
                      (Examples.fixed2 0)))
                (default (Examples.fixed2 0)
                   (Pool2.steps 0
                      (Examples.serve_one (fun _ => Examples.square 3)
                       ++ [Destroy; Worker 0 0 false; Worker 0 0 false])
                      (Examples.fixed2 0))))
      as (Hq & Hrun & _).
    + vm_compute. reflexivity.
    + eexists _, _. split_and!; [reflexivity|reflexivity|done|reflexivity].
    + split; [exact Hq|exact Hrun].
Defined.
